(** * stream-membership: model components, mixtures and the truncated grid GMM

    A shallow embedding of [stream_membership/model.py] and
    [stream_membership/truncatedgridgmm.py].

    Conventions of the embedding:
    - a Python [dict] is an association list in insertion order (iteration
      order is observable in [_sample_order] and in [__post_init__]);
    - a coordinate key ([str | tuple]) is the inductive [CoordKey];
    - a raised exception is the [Raise] branch of [result];
    - array entries are real numbers; JAX arrays are lists (1-D) and lists of
      rows (2-D);
    - distributions, the quadrature rule and the standard normal cdf belong to
      numpyro / jax and are Section variables. *)

From Stdlib Require Import String Ascii List Bool Arith Lia Permutation.
From Stdlib Require Import Relations.Relation_Operators.
From Stdlib Require Import Reals Lra.
Import ListNotations.
Open Scope string_scope.
Open Scope list_scope.

(** ** Exceptions and results *)

Inductive exn : Type :=
| ValueError (msg : string)
| IndexError
| KeyError
| StopIteration
| AttributeError
| TypeError
| AssertionError
| UnboundLocalError
| NotImplementedError (msg : string).

Inductive result (A : Type) : Type :=
| Ok (a : A)
| Raise (e : exn).

Arguments Ok {A} a.
Arguments Raise {A} e.

Definition bind {A B : Type} (r : result A) (f : A -> result B) : result B :=
  match r with
  | Ok a => f a
  | Raise e => Raise e
  end.

Notation "'do' x <- r ;; k" := (bind r (fun x => k))
  (at level 10, x name, r at level 100, k at level 200).

(** ** Python string primitives *)

Module PyStr.

(** [c in s] for a one-character [c]. *)
Fixpoint contains (c : ascii) (s : string) : bool :=
  match s with
  | EmptyString => false
  | String a s' => Ascii.eqb a c || contains c s'
  end.

(** [needle in s]: substring test. *)
Fixpoint is_substring (needle s : string) : bool :=
  String.prefix needle s ||
  match s with
  | EmptyString => false
  | String _ s' => is_substring needle s'
  end.

(** [s.split(sep)] for a one-character separator: one more piece than there
    are separators, empty pieces kept. *)
Fixpoint split (sep : ascii) (s : string) : list string :=
  match s with
  | EmptyString => [EmptyString]
  | String a s' =>
      if Ascii.eqb a sep then EmptyString :: split sep s'
      else match split sep s' with
           | [] => [String a EmptyString]
           | w :: ws => String a w :: ws
           end
  end.

(** [sep.join(l)]. *)
Definition join (sep : string) (l : list string) : string := String.concat sep l.

End PyStr.

(** ** Coordinate keys *)

(** [str | tuple]: a single coordinate name or a tuple of names. *)
Inductive CoordKey : Type :=
| Single (name : string)
| Joint (names : list string).

Definition CoordKey_eq_dec (a b : CoordKey) : {a = b} + {a <> b}.
Proof.
  decide equality; [apply string_dec | apply (list_eq_dec string_dec)].
Defined.

Definition key_eqb (a b : CoordKey) : bool :=
  if CoordKey_eq_dec a b then true else false.

(** [k in l] for a list (or the keys of a dict). *)
Definition key_in (k : CoordKey) (l : list CoordKey) : bool :=
  existsb (key_eqb k) l.

Definition str_in (s : string) (l : list string) : bool :=
  existsb (String.eqb s) l.

(** ** Dictionaries as association lists *)

Section Dict.
Variables (K V : Type).
Variable eqb : K -> K -> bool.

Definition dict : Type := list (K * V).

Definition keys (d : dict) : list K := map fst d.
Definition values (d : dict) : list V := map snd d.

(** [d.get(k)] *)
Fixpoint get (k : K) (d : dict) : option V :=
  match d with
  | [] => None
  | (k', v) :: d' => if eqb k k' then Some v else get k d'
  end.

(** [k in d] *)
Definition mem (k : K) (d : dict) : bool :=
  match get k d with Some _ => true | None => false end.

(** [d.pop(k, None)]: the dict without [k]. *)
Fixpoint remove (k : K) (d : dict) : dict :=
  match d with
  | [] => []
  | (k', v) :: d' => if eqb k k' then d' else (k', v) :: remove k d'
  end.

(** [d[k] = v]: overwrite in place, or append a new key last. *)
Fixpoint set (k : K) (v : V) (d : dict) : dict :=
  match d with
  | [] => [(k, v)]
  | (k', v') :: d' => if eqb k k' then (k', v) :: d' else (k', v') :: set k v d'
  end.
End Dict.

Arguments get {K V} eqb k d.
Arguments mem {K V} eqb k d.
Arguments remove {K V} eqb k d.
Arguments set {K V} eqb k v d.
Arguments keys {K V} d.
Arguments values {K V} d.

(** ** The naming codec *)

Module Codec.

(** [ModelComponent._make_numpyro_name], with [self.name] as first argument. *)
Definition _make_numpyro_name (self_name : string) (coord_name : CoordKey)
    (arg_name : option string) : string :=
  let coord_name :=
    match coord_name with
    | Joint names => PyStr.join "-" names
    | Single s => s
    end in
  let name := (self_name ++ ":" ++ coord_name)%string in
  match arg_name with
  | None => name
  | Some a => (name ++ ":" ++ a)%string
  end.

(** [ModelComponent._expand_numpyro_name]: [bits[i]] raises [IndexError]
    when the name has fewer than three segments. *)
Definition _expand_numpyro_name (numpyro_name : string)
    : result (string * CoordKey * string) :=
  let bits := PyStr.split ":" numpyro_name in
  match bits with
  | b0 :: b1 :: b2 :: _ =>
      Ok (b0,
          if PyStr.contains "-" b1 then Joint (PyStr.split "-" b1) else Single b1,
          b2)
  | _ => Raise IndexError
  end.

(** The coordinate segment produced by the encoder. *)
Definition segment (k : CoordKey) : string :=
  match k with
  | Joint names => PyStr.join "-" names
  | Single s => s
  end.

(** A name usable as a segment: free of the given separator. *)
Definition free_of (sep : ascii) (s : string) : Prop := PyStr.contains sep s = false.

(** The keys the codec is written for: a name, or a tuple of at least two
    names, none of which holds ["-"] or [":"]. *)
Definition codec_key (k : CoordKey) : Prop :=
  match k with
  | Single s => free_of "-" s /\ free_of ":" s
  | Joint names =>
      2 <= length names /\
      Forall (fun s => free_of "-" s /\ free_of ":" s) names
  end.

End Codec.

(** ** Model components *)

(** [conditional_data[coord]]: argument name -> name of the coordinate that
    supplies the argument's value. *)
Definition DataMap : Type := dict string string.

Section Component.
(** Distribution families and parameter specifications are numpyro objects;
    the component only stores them. *)
Variables (Family Spec : Type).

Record ModelComponent : Type := mkComponent {
  name : string;
  coord_distributions : dict CoordKey Family;
  coord_parameters : dict CoordKey (dict string Spec);
  default_x_coord : option string;
  conditional_data : option (dict CoordKey DataMap);
  _coord_names : option (list string)
}.

(** [set(a) != set(b)] on key lists. *)
Definition same_key_set (a b : list CoordKey) : bool :=
  forallb (fun k => key_in k b) a && forallb (fun k => key_in k a) b.

(** The flattened coordinate names, in declaration order. *)
Fixpoint flatten_names (ks : list CoordKey) : list string :=
  match ks with
  | [] => []
  | Single s :: ks' => s :: flatten_names ks'
  | Joint names :: ks' => names ++ flatten_names ks'
  end.

(** [self.conditional_data.get(coord_name, {})] *)
Definition data_map_of (cd : dict CoordKey DataMap) (coord_name : CoordKey) : DataMap :=
  match get key_eqb coord_name cd with
  | Some m => m
  | None => []
  end.

(** The [_pairs] list of [__post_init__]: [(coord_name, val)]. *)
Definition dependency_pairs (ks : list CoordKey) (cd : dict CoordKey DataMap)
    : list (CoordKey * string) :=
  flat_map (fun coord_name =>
              map (fun val => (coord_name, val)) (values (data_map_of cd coord_name)))
           ks.

(** [_pair[::-1] in _pairs]: a tuple [(val, coord_name)] equals a stored
    [(coord_name', val')] when [val == coord_name'] and [coord_name == val']. *)
Definition reversed_in (p : CoordKey * string) (pairs : list (CoordKey * string)) : bool :=
  existsb (fun q => key_eqb (Single (snd p)) (fst q) && key_eqb (fst p) (Single (snd q)))
          pairs.

Definition repr_str (s : string) : string := ("'" ++ s ++ "'")%string.

Definition repr_key (k : CoordKey) : string :=
  match k with
  | Single s => repr_str s
  | Joint [s] => ("(" ++ repr_str s ++ ",)")%string
  | Joint names => ("(" ++ PyStr.join ", " (map repr_str names) ++ ")")%string
  end.

Definition repr_pair (p : CoordKey * string) : string :=
  ("(" ++ repr_key (fst p) ++ ", " ++ repr_str (snd p) ++ ")")%string.

Definition circular_msg (p : CoordKey * string) : string :=
  ("Circular dependency: " ++ repr_pair p)%string.

(** [ModelComponent.__post_init__]: validates the declaration and fills in
    the derived fields. *)
Definition __post_init__ (self : ModelComponent) : result ModelComponent :=
  let ks := keys (coord_distributions self) in
  if negb (same_key_set ks (keys (coord_parameters self))) then
    Raise (ValueError "Keys in coord_distributions and coord_parameters must match")
  else
    do x <- match default_x_coord self with
            | Some x => Ok x
            | None =>
                match ks with
                | [] => Raise StopIteration
                | Single s :: _ => Ok s
                | Joint [] :: _ => Raise IndexError
                | Joint (s :: _) :: _ => Ok s
                end
            end ;;
    let names := flatten_names ks in
    let cd := match conditional_data self with
              | Some cd => cd
              | None => []
              end in
    let _pairs := dependency_pairs ks cd in
    match find (fun _pair => reversed_in _pair _pairs) _pairs with
    | Some _pair => Raise (ValueError (circular_msg _pair))
    | None =>
        Ok (mkComponent (name self) (coord_distributions self)
              (coord_parameters self) (Some x) (Some cd) (Some names))
    end.

(** [ModelComponent._make_conditional_data]: for every declared key, the
    conditional arguments looked up in [data]; [data.get(val, None)] gives
    [None] for a source that is missing. *)
Definition _make_conditional_data {A : Type} (self : ModelComponent)
    (data : dict CoordKey A) : result (dict CoordKey (dict string (option A))) :=
  match conditional_data self with
  | None => Raise AttributeError
  | Some cd =>
      Ok (map (fun coord_name =>
                 (coord_name,
                  map (fun kv => (fst kv, get key_eqb (Single (snd kv)) data))
                      (data_map_of cd coord_name)))
              (keys (coord_distributions self)))
  end.

(** *** The dependency resolver *)

(** [list(set(v.values()))]: the order of a set is unspecified, and the
    list is only read by [all]. *)
Definition dependencies (v : DataMap) : list string :=
  nodup string_dec (values v).

(** [all(dep in sample_order for dep in dependencies)] *)
Definition all_sampled (sample_order : list CoordKey) (deps : list string) : bool :=
  forallb (fun dep => key_in (Single dep) sample_order) deps.

(** The inner [for] of the relaxation: the first pending key whose
    dependencies are all placed. *)
Definition first_ready (sample_order : list CoordKey)
    (pending : dict CoordKey (list string)) : option CoordKey :=
  option_map fst (find (fun kd => all_sampled sample_order (snd kd)) pending).

(** One round: append the ready key and pop it, or change nothing. *)
Definition relax_round (st : list CoordKey * dict CoordKey (list string))
    : list CoordKey * dict CoordKey (list string) :=
  match first_ready (fst st) (snd st) with
  | Some coord_name => (fst st ++ [coord_name], remove key_eqb coord_name (snd st))
  | None => st
  end.

(** [for _ in range(fuel): ... else: raise]. *)
Fixpoint relax (fuel : nat) (st : list CoordKey * dict CoordKey (list string))
    : result (list CoordKey) :=
  match fuel with
  | 0 => Raise (ValueError "Circular dependency likely in conditional_data")
  | S fuel' =>
      let st' := relax_round st in
      match snd st' with
      | [] => Ok (fst st')
      | _ :: _ => relax fuel' st'
      end
  end.

(** The first loop: keys without conditional data go first. *)
Definition unconditional_first (ks : list CoordKey) (cd : dict CoordKey DataMap)
    (pending : dict CoordKey (list string))
    : list CoordKey * dict CoordKey (list string) :=
  fold_left (fun st coord_name =>
               if negb (mem key_eqb coord_name cd)
               then (fst st ++ [coord_name], remove key_eqb coord_name (snd st))
               else st)
            ks ([], pending).

Definition max_rounds : nat := 128.

(** [ModelComponent._sample_order] *)
Definition _sample_order (self : ModelComponent) : result (list CoordKey) :=
  match conditional_data self with
  | None => Raise AttributeError
  | Some cd =>
      let pending := map (fun kv => (fst kv, dependencies (snd kv))) cd in
      relax max_rounds
            (unconditional_first (keys (coord_distributions self)) cd pending)
  end.

(** *** Dependency graphs *)

(** [depends_on cd k k']: key [k] reads the coordinate [k']. *)
Definition depends_on (cd : dict CoordKey DataMap) (k k' : CoordKey) : Prop :=
  exists v d, In (k, v) cd /\ In d (values v) /\ k' = Single d.

Definition acyclic (cd : dict CoordKey DataMap) : Prop :=
  forall k, ~ clos_trans CoordKey (depends_on cd) k k.

(** [a] occurs strictly before [b] in [l]. *)
Definition precedes (a b : CoordKey) (l : list CoordKey) : Prop :=
  exists l1 l2 l3, l = l1 ++ a :: l2 ++ b :: l3.

(** [placed cd order]: every key of [order] comes after the keys it reads. *)
Inductive placed (cd : dict CoordKey DataMap) : list CoordKey -> Prop :=
| placed_nil : placed cd []
| placed_snoc order k :
    placed cd order ->
    (forall v d, In (k, v) cd -> In d (values v) -> In (Single d) order) ->
    placed cd (order ++ [k]).

(** The invariant of the relaxation loop. *)
Record resolver_inv (ks : list CoordKey) (cd : dict CoordKey DataMap)
    (st : list CoordKey * dict CoordKey (list string)) : Prop := {
  inv_perm : Permutation (fst st ++ keys (snd st)) ks;
  inv_pending : forall k deps, In (k, deps) (snd st) ->
                  exists v, In (k, v) cd /\ deps = dependencies v;
  inv_placed : placed cd (fst st)
}.

(** A declaration the resolver is written for: dict keys are distinct,
    conditional data is declared for keys of the component and names
    keys of the component. *)
Record well_declared (self : ModelComponent) (cd : dict CoordKey DataMap) : Prop := {
  wd_cd : conditional_data self = Some cd;
  wd_keys : NoDup (keys (coord_distributions self));
  wd_cd_keys : NoDup (keys cd);
  wd_declared : incl (keys cd) (keys (coord_distributions self));
  wd_sources : forall k v d, In (k, v) cd -> In d (values v) ->
                 In (Single d) (keys (coord_distributions self))
}.

End Component.

Arguments mkComponent {Family Spec}.
Arguments name {Family Spec}.
Arguments coord_distributions {Family Spec}.
Arguments coord_parameters {Family Spec}.
Arguments default_x_coord {Family Spec}.
Arguments conditional_data {Family Spec}.
Arguments _coord_names {Family Spec}.
Arguments __post_init__ {Family Spec}.
Arguments _make_conditional_data {Family Spec A}.
Arguments _sample_order {Family Spec}.
Arguments well_declared {Family Spec}.

(** ** Arrays *)

Open Scope R_scope.

(** The array shapes that occur: 1-D, 2-D (a list of rows), and the 2-D
    array of points built by [jnp.stack((g1, g2), axis=-1)]. *)
Inductive ndarray : Type :=
| Vec (v : list R)
| Mat (m : list (list R))
| Pts (p : list (list (R * R))).

Section Zip.
Context {A B C : Type}.
Variable f : A -> B -> C.

(** Element-wise operation on two arrays of the same length. *)
Fixpoint map2 (l : list A) (l' : list B) : list C :=
  match l, l' with
  | a :: t, b :: t' => f a b :: map2 t t'
  | _, _ => []
  end.
End Zip.

Definition midpoint (a b : R) : R := 0.5 * (a + b).

(** [0.5 * (g[:-1] + g[1:])] *)
Definition centers (g : list R) : list R :=
  map2 midpoint (removelast g) (tl g).

(** [0.5 * (m[:-1, :-1] + m[1:, 1:])] *)
Definition centers2 (m : list (list R)) : list (list R) :=
  map2 (map2 midpoint)
       (map (@removelast R) (removelast m))
       (map (@tl R) (tl m)).

(** [jnp.meshgrid(ga, gb)] with the default ['xy'] indexing: both results
    have one row per entry of [gb] and one column per entry of [ga]. *)
Definition meshgrid (ga gb : list R) : list (list R) * list (list R) :=
  (map (fun _ => ga) gb, map (fun y => map (fun _ => y) ga) gb).

(** [jnp.stack((m1, m2), axis=-1)] *)
Definition stack_last (m1 m2 : list (list R)) : list (list (R * R)) :=
  map2 (map2 (@pair R R)) m1 m2.

(** The bin-centre meshes of two edge grids, written directly. *)
Definition center_mesh_x (ga gb : list R) : list (list R) :=
  map (fun _ => centers ga) (centers gb).

Definition center_mesh_y (ga gb : list R) : list (list R) :=
  map (fun cy => map (fun _ => cy) (centers ga)) (centers gb).

Definition center_points (ga gb : list R) : list (list (R * R)) :=
  map (fun cy => map (fun cx => (cx, cy)) (centers ga)) (centers gb).

(** Strictly increasing edges. *)
Fixpoint increasing (g : list R) : Prop :=
  match g with
  | [] => True
  | a :: t => match t with
              | [] => True
              | b :: _ => a < b /\ increasing t
              end
  end.

Close Scope R_scope.

(** ** Random keys *)

(** A key is the caller's key or the [i]-th of the [num] keys that
    [jax.random.split(parent, num)] derives; distinct derivations are
    distinct keys. *)
Inductive PRNGKey : Type :=
| RootKey (seed : nat)
| SplitKey (parent : PRNGKey) (num i : nat).

Definition PRNGKey_eq_dec (a b : PRNGKey) : {a = b} + {a <> b}.
Proof. decide equality; apply Nat.eq_dec. Defined.

(** [jax.random.split(key, num)] *)
Definition random_split (key : PRNGKey) (num : nat) : list PRNGKey :=
  map (SplitKey key num) (seq 0 num).

(** ** The probabilistic substrate *)

Definition Kwargs : Type := dict string (option ndarray).

(** What the component asks of numpyro and jax, in call order. *)
Inductive event : Type :=
| SiteDraw (site : string) (key : PRNGKey)
| LogProb (coord : CoordKey) (x : ndarray) (kwargs : Kwargs)
| LnSimpson (ln_p : ndarray) (grid : ndarray)
| DistSample (coord : CoordKey) (key : PRNGKey) (shape : list nat) (kwargs : Kwargs).

(** The key a stochastic consumer received. *)
Definition consumed_key (ev : event) : option PRNGKey :=
  match ev with
  | SiteDraw _ key => Some key
  | DistSample _ key _ _ => Some key
  | _ => None
  end.

(** The ambient state: the key of an enclosing [seed] handler, if there is
    one, and the calls made so far. *)
Record world : Type := mkWorld {
  rng : option PRNGKey;
  log : list event
}.

Definition M (A : Type) : Type := world -> result A * world.

Definition ret {A : Type} (a : A) : M A := fun w => (Ok a, w).

Definition raise {A : Type} (e : exn) : M A := fun w => (Raise e, w).

Definition lift {A : Type} (r : result A) : M A := fun w => (r, w).

Definition mbind {A B : Type} (m : M A) (f : A -> M B) : M B :=
  fun w =>
    match m w with
    | (Ok a, w') => f a w'
    | (Raise e, w') => (Raise e, w')
    end.

Definition emit (ev : event) : M unit :=
  fun w => (Ok tt, mkWorld (rng w) (log w ++ [ev])).

Notation "'let*' x ':=' m 'in' k" := (mbind m (fun x => k))
  (at level 10, x name, m at level 100, k at level 200).

(** [d[k]] *)
Definition getitem {V : Type} (k : CoordKey) (d : dict CoordKey V) : result V :=
  match get key_eqb k d with
  | Some v => Ok v
  | None => Raise KeyError
  end.

(** A parameter specification: a literal, a drawable prior given as the
    keyword dict of [numpyro.sample] or as a distribution, each optionally
    paired with a wrapper. *)
Inductive ParamBody (Value Prior : Type) : Type :=
| Literal (v : Value)
| DrawKwargs (p : Prior)
| DrawDist (p : Prior).

Arguments Literal {Value Prior} v.
Arguments DrawKwargs {Value Prior} p.
Arguments DrawDist {Value Prior} p.

Inductive ParamSpec (Value Prior : Type) : Type :=
| Plain (val : ParamBody Value Prior)
| Wrapped (wrapper : Value -> Value) (val : ParamBody Value Prior).

Arguments Plain {Value Prior} val.
Arguments Wrapped {Value Prior} wrapper val.

Section Substrate.
(** numpyro and jax: parameter values, priors, distribution objects and
    what can be done with them. *)
Variables (Value Prior Dist : Type).
Variable draw : Prior -> PRNGKey -> Value.
Variable log_prob : Dist -> ndarray -> Kwargs -> ndarray.
Variable dist_sample : Dist -> PRNGKey -> list nat -> Kwargs -> ndarray.
Variable ln_simpson : ndarray -> ndarray -> ndarray.
Variable nd_add : ndarray -> ndarray -> ndarray.

Definition Family : Type := dict string Value -> Dist.
Definition Component : Type := ModelComponent Family (ParamSpec Value Prior).
Definition Pars : Type := dict CoordKey (dict string Value).

(** [numpyro.sample(name, prior)]: under a [seed] handler the handler's key
    is split, one half kept and one half used for the draw; without a
    handler there is no key to draw with. *)
Definition numpyro_sample (site : string) (prior : Prior) : M Value :=
  fun w =>
    match rng w with
    | Some key =>
        let rng_key := SplitKey key 2 0 in
        let rng_key_sample := SplitKey key 2 1 in
        (Ok (draw prior rng_key_sample),
         mkWorld (Some rng_key) (log w ++ [SiteDraw site rng_key_sample]))
    | None => (Raise AssertionError, w)
    end.

(** [seed(fn, key)()] *)
Definition seed {A : Type} (fn : M A) (key : PRNGKey) : M A :=
  fun w =>
    let (r, w') := fn (mkWorld (Some key) (log w)) in
    (r, mkWorld (rng w) (log w')).

(** The body of the inner loop of [make_dists] for one argument. *)
Definition resolve_arg (self_name : string) (pars : Pars) (coord_name : CoordKey)
    (arg : string) (spec : ParamSpec Value Prior) : M Value :=
  let numpyro_name := Codec._make_numpyro_name self_name coord_name (Some arg) in
  let (wrapper, val) :=
    match spec with
    | Wrapped wrapper val => (wrapper, val)
    | Plain val => (fun x => x, val)
    end in
  let* par :=
    match get String.eqb arg
            (match get key_eqb coord_name pars with Some m => m | None => [] end) with
    | Some v => ret v
    | None =>
        match val with
        | DrawKwargs p => numpyro_sample numpyro_name p
        | DrawDist p => numpyro_sample numpyro_name p
        | Literal v => ret v
        end
    end in
  ret (wrapper par).

Fixpoint resolve_args (self_name : string) (pars : Pars) (coord_name : CoordKey)
    (specs : dict string (ParamSpec Value Prior)) (kwargs : dict string Value)
    : M (dict string Value) :=
  match specs with
  | [] => ret kwargs
  | (arg, spec) :: rest =>
      let* v := resolve_arg self_name pars coord_name arg spec in
      resolve_args self_name pars coord_name rest (set String.eqb arg v kwargs)
  end.

Fixpoint make_dists_loop (self : Component) (pars : Pars)
    (items : dict CoordKey Family) (dists : dict CoordKey Dist)
    : M (dict CoordKey Dist) :=
  match items with
  | [] => ret dists
  | (coord_name, Distribution) :: rest =>
      let specs := match get key_eqb coord_name (coord_parameters self) with
                   | Some m => m
                   | None => []
                   end in
      let* kwargs := resolve_args (name self) pars coord_name specs [] in
      make_dists_loop self pars rest
        (set key_eqb coord_name (Distribution kwargs) dists)
  end.

(** [ModelComponent.make_dists] *)
Definition make_dists (self : Component) (pars : option Pars)
    : M (dict CoordKey Dist) :=
  let pars := match pars with Some p => p | None => [] end in
  make_dists_loop self pars (coord_distributions self) [].

(** *** Grid evaluation *)

Definition Grids : Type := dict string (list R).
Definition Mesh : Type := (list (list R) * list (list R))%type.

Definition pair_key (name_pair : string * string) : CoordKey :=
  Joint [fst name_pair; snd name_pair].

Definition grid_missing_msg (name : string) : string :=
  ("You must specify a 1D grid for the component '" ++ name
     ++ "' via the grids_1d argument")%string.

(** [ModelMixin._get_grids_2d] *)
Fixpoint _get_grids_2d (grids_1d : Grids) (grid_coord_names : list (string * string))
    (grids_2d : dict CoordKey Mesh) : result (dict CoordKey Mesh) :=
  match grid_coord_names with
  | [] => Ok grids_2d
  | name_pair :: rest =>
      match get String.eqb (fst name_pair) grids_1d,
            get String.eqb (snd name_pair) grids_1d with
      | None, _ => Raise (ValueError (grid_missing_msg (fst name_pair)))
      | Some _, None => Raise (ValueError (grid_missing_msg (snd name_pair)))
      | Some ga, Some gb =>
          _get_grids_2d grids_1d rest
            (set key_eqb (pair_key name_pair) (meshgrid ga gb) grids_2d)
      end
  end.

Definition invalid_name_msg (name : string) : string :=
  (name ++ " is not a valid coordinate name")%string.

Definition same_x_msg : string :=
  "We currently only support evaluating on 2D grids with the same x coordinate axis for all grids".

(** The checks at the head of [evaluate_on_2d_grids]: the x coordinate and
    the pairs to evaluate, or the [ValueError]. *)
Definition validate_request (self : Component)
    (grid_coord_names : option (list (string * string)))
    (x_coord_name : option string)
    : result (string * list (string * string)) :=
  let x_coord_name :=
    match x_coord_name with
    | None => default_x_coord self
    | Some x => Some x
    end in
  match _coord_names self with
  | None => Raise TypeError
  | Some names =>
      match x_coord_name with
      | None => Raise (ValueError (invalid_name_msg "None"))
      | Some x =>
          if negb (str_in x names) then Raise (ValueError (invalid_name_msg x))
          else
            let grid_coord_names :=
              match grid_coord_names with
              | None => map (fun coord_name => (x, coord_name)) (tl names)
              | Some l => l
              end in
            match find (fun name_pair => negb (String.eqb (fst name_pair) x))
                       grid_coord_names with
            | Some _ => Raise (ValueError same_x_msg)
            | None =>
                match find (fun name => negb (str_in name names))
                           (flat_map (fun name_pair => [fst name_pair; snd name_pair])
                                     grid_coord_names) with
                | Some name => Raise (ValueError (invalid_name_msg name))
                | None => Ok (x, grid_coord_names)
                end
            end
      end
  end.

(** [x_coord_name in key]: substring test on a string key, membership on a
    tuple key. *)
Definition name_in_key (x : string) (k : CoordKey) : bool :=
  match k with
  | Single s => PyStr.is_substring x s
  | Joint names => str_in x names
  end.

(** The [for ... break] that picks the joint key of the x coordinate: the
    first key holding it, else the last key iterated. *)
Definition find_joint_key (x : string) (ks : list CoordKey) : result CoordKey :=
  match find (name_in_key x) ks with
  | Some k => Ok k
  | None => match last (map Some ks) None with
            | Some k => Ok k
            | None => Raise UnboundLocalError
            end
  end.

Definition kwargs_of (conditional : dict CoordKey Kwargs) (k : CoordKey) : result Kwargs :=
  getitem k conditional.

(** [dists[coord].log_prob(x, **kwargs)] *)
Definition call_log_prob (dists : dict CoordKey Dist)
    (conditional : dict CoordKey Kwargs) (coord : CoordKey) (x : ndarray)
    : M ndarray :=
  let* d := lift (getitem coord dists) in
  let* kwargs := lift (kwargs_of conditional coord) in
  let* _ := emit (LogProb coord x kwargs) in
  ret (log_prob d x kwargs).

(** The loop over the requested pairs. *)
Fixpoint evaluate_pairs (self : Component) (dists : dict CoordKey Dist)
    (conditional : dict CoordKey Kwargs) (grids_2d : dict CoordKey Mesh)
    (ln_p_x : ndarray) (grid_coord_names : list (string * string))
    (evals : dict CoordKey ndarray) : M (dict CoordKey ndarray) :=
  match grid_coord_names with
  | [] => ret evals
  | name_pair :: rest =>
      let* mesh := lift (getitem (pair_key name_pair) grids_2d) in
      let grid1_c := centers2 (fst mesh) in
      let grid2_c := centers2 (snd mesh) in
      let* surface :=
        if mem key_eqb (pair_key name_pair) (coord_distributions self) then
          call_log_prob dists conditional (pair_key name_pair)
                        (Pts (stack_last grid1_c grid2_c))
        else
          let* ln_p_y :=
            call_log_prob dists conditional (Single (snd name_pair)) (Mat grid2_c) in
          ret (nd_add ln_p_x ln_p_y) in
      evaluate_pairs self dists conditional grids_2d ln_p_x rest
        (set key_eqb (pair_key name_pair) surface evals)
  end.

(** [ModelMixin.evaluate_on_2d_grids] on a component. *)
Definition evaluate_on_2d_grids (self : Component) (pars : option Pars)
    (grids : Grids) (grid_coord_names : option (list (string * string)))
    (x_coord_name : option string)
    : M (dict CoordKey Mesh * dict CoordKey ndarray) :=
  let* request := lift (validate_request self grid_coord_names x_coord_name) in
  let x_coord_name := fst request in
  let grid_coord_names := snd request in
  let* grids_2d := lift (_get_grids_2d grids grid_coord_names []) in
  let grid_cs := map (fun kg => (Single (fst kg), Vec (centers (snd kg)))) grids in
  let* conditional_data := lift (_make_conditional_data self grid_cs) in
  let* dists := make_dists self pars in
  let* ln_p_x :=
    if negb (mem key_eqb (Single x_coord_name) (coord_distributions self)) then
      let* x_joint_name_pair :=
        lift (find_joint_key x_coord_name (keys (coord_distributions self))) in
      let* mesh := lift (getitem x_joint_name_pair grids_2d) in
      let grid1_c := centers2 (fst mesh) in
      let grid2_c := centers2 (snd mesh) in
      let* ln_p :=
        call_log_prob dists conditional_data x_joint_name_pair
                      (Pts (stack_last grid1_c grid2_c)) in
      let* _ := emit (LnSimpson ln_p (Mat grid2_c)) in
      ret (ln_simpson ln_p (Mat grid2_c))
    else
      let* grid := lift (match get String.eqb x_coord_name grids with
                         | Some g => Ok g
                         | None => Raise KeyError
                         end) in
      let x_grid := centers grid in
      call_log_prob dists conditional_data (Single x_coord_name) (Vec x_grid) in
  let* evals :=
    evaluate_pairs self dists conditional_data grids_2d ln_p_x grid_coord_names [] in
  ret (grids_2d, evals).

(** *** Sampling *)

(** The body of the [for coord_name, key in zip(...)] loop. *)
Fixpoint sample_loop (self : Component) (dists : dict CoordKey Dist)
    (sample_shape : list nat) (todo : list (CoordKey * PRNGKey))
    (samples : dict CoordKey ndarray) : M (dict CoordKey ndarray) :=
  match todo with
  | [] => ret samples
  | (coord_name, key) :: rest =>
      let* extra_data := lift (_make_conditional_data self samples) in
      let* kwargs := lift (getitem coord_name extra_data) in
      let shape := if Nat.eqb (length kwargs) 0 then sample_shape else [] in
      let* d := lift (getitem coord_name dists) in
      let* _ := emit (DistSample coord_name key shape kwargs) in
      sample_loop self dists sample_shape rest
        (set key_eqb coord_name (dist_sample d key shape kwargs) samples)
  end.

Fixpoint collect_samples (ks : list CoordKey) (samples : dict CoordKey ndarray)
    : result (dict CoordKey ndarray) :=
  match ks with
  | [] => Ok []
  | k :: rest =>
      do v <- getitem k samples ;;
      do tail <- collect_samples rest samples ;;
      Ok ((k, v) :: tail)
  end.

(** [ModelComponent.sample] *)
Definition sample (self : Component) (key : PRNGKey) (sample_shape : list nat)
    (pars : option Pars) : M (dict CoordKey ndarray) :=
  let* dists :=
    match pars with
    | None => seed (make_dists self None) key
    | Some p => make_dists self (Some p)
    end in
  let keys_ := random_split key (length (coord_distributions self)) in
  let* order := lift (_sample_order self) in
  let* samples := sample_loop self dists sample_shape (combine order keys_) [] in
  let* _ := if Nat.eqb (length order) (length keys_) then ret tt
            else raise (ValueError "zip() arguments have different lengths") in
  lift (collect_samples (keys (coord_distributions self)) samples).

End Substrate.

Arguments numpyro_sample {Value Prior} draw site prior _.
Arguments resolve_arg {Value Prior} draw self_name pars coord_name arg spec _.
Arguments resolve_args {Value Prior} draw self_name pars coord_name specs kwargs _.
Arguments make_dists_loop {Value Prior Dist} draw self pars items dists _.
Arguments make_dists {Value Prior Dist} draw self pars _.
Arguments validate_request {Value Prior Dist} self grid_coord_names x_coord_name.
Arguments call_log_prob {Dist} log_prob dists conditional coord x _.
Arguments evaluate_pairs {Value Prior Dist} log_prob nd_add self dists conditional
  grids_2d ln_p_x grid_coord_names evals _.
Arguments evaluate_on_2d_grids {Value Prior Dist} draw log_prob ln_simpson nd_add
  self pars grids grid_coord_names x_coord_name _.
Arguments sample_loop {Value Prior Dist} dist_sample self dists sample_shape todo
  samples _.
Arguments sample {Value Prior Dist} draw dist_sample self key sample_shape pars _.

(** The specification under an optional wrapper. *)
Definition spec_body {Value Prior : Type} (spec : ParamSpec Value Prior)
    : ParamBody Value Prior :=
  match spec with
  | Plain val => val
  | Wrapped _ val => val
  end.

Definition is_literal {Value Prior : Type} (val : ParamBody Value Prior) : bool :=
  match val with
  | Literal _ => true
  | _ => false
  end.

(** [arg in pars.get(coord_name, {})] *)
Definition overridden {Value : Type} (pars : Pars Value) (coord_name : CoordKey)
    (arg : string) : bool :=
  mem String.eqb arg
      (match get key_eqb coord_name pars with Some m => m | None => [] end).

(** Every declared argument is a literal or has a value in [pars]. *)
Definition fully_determined {Value Prior Dist : Type} (self : Component Value Prior Dist)
    (pars : Pars Value) : Prop :=
  forall coord_name specs arg spec,
    In coord_name (keys (coord_distributions self)) ->
    get key_eqb coord_name (coord_parameters self) = Some specs ->
    In (arg, spec) specs ->
    overridden pars coord_name arg = true \/ is_literal (spec_body spec) = true.

(** [ev] is the draw of a declared argument of [self] that is a prior (a
    keyword dict or a distribution, not a literal) and has no value in
    [pars], registered under its encoded name. *)
Definition declared_site {Value Prior Dist : Type} (self : Component Value Prior Dist)
    (pars : Pars Value) (ev : event) : Prop :=
  match ev with
  | SiteDraw site _ =>
      exists coord_name specs arg spec,
        In coord_name (keys (coord_distributions self)) /\
        get key_eqb coord_name (coord_parameters self) = Some specs /\
        In (arg, spec) specs /\
        is_literal (spec_body spec) = false /\
        overridden pars coord_name arg = false /\
        site = Codec._make_numpyro_name (name self) coord_name (Some arg)
  | _ => False
  end.

(** The keys handed to the coordinates' [sample] calls, in call order. *)
Definition dist_keys (evs : list event) : list PRNGKey :=
  flat_map (fun ev => match ev with
                      | DistSample _ key _ _ => [key]
                      | _ => []
                      end) evs.


Definition not_dist_sample (ev : event) : Prop :=
  match ev with
  | DistSample _ _ _ _ => False
  | _ => True
  end.

(** The meshgrid of the 1-D grids of a pair, when both are supplied. *)
Definition mesh_of (grids : Grids) (name_pair : string * string) : option Mesh :=
  match get String.eqb (fst name_pair) grids, get String.eqb (snd name_pair) grids with
  | Some ga, Some gb => Some (meshgrid ga gb)
  | _, _ => None
  end.




(** What a run adds to the call log. *)
Definition emits {A : Type} (P : event -> Prop) (m : M A) : Prop :=
  forall w, exists evs, log (snd (m w)) = log w ++ evs /\ Forall P evs.

(** The coordinates drawn by a run receive the first keys of [l], in order. *)
Definition emits_keys {A : Type} (l : list PRNGKey) (m : M A) : Prop :=
  forall w, exists evs n,
    log (snd (m w)) = log w ++ evs /\ dist_keys evs = firstn n l.

(** The evaluation points of a [log_prob] call are bin centres of the
    supplied edge grids: the centres of one grid, the second mesh of the
    centres of two grids, or the points of both meshes. *)
Definition at_bin_centers (grids : Grids) (x : ndarray) : Prop :=
  match x with
  | Vec v =>
      exists a ga, get String.eqb a grids = Some ga /\ v = centers ga
  | Mat m =>
      exists a b ga gb,
        get String.eqb a grids = Some ga /\ get String.eqb b grids = Some gb /\
        m = center_mesh_y ga gb
  | Pts p =>
      exists a b ga gb,
        get String.eqb a grids = Some ga /\ get String.eqb b grids = Some gb /\
        p = center_points ga gb
  end.

Definition log_prob_at_centers (grids : Grids) (ev : event) : Prop :=
  match ev with
  | LogProb _ x _ => at_bin_centers grids x
  | _ => True
  end.

(** Every mesh of [grids_2d] is the meshgrid of two of the supplied grids. *)
Definition meshes_of (grids : Grids) (grids_2d : dict CoordKey Mesh) : Prop :=
  forall k mesh, In (k, mesh) grids_2d ->
    exists a b ga gb,
      get String.eqb a grids = Some ga /\ get String.eqb b grids = Some gb /\
      mesh = meshgrid ga gb.

(** ** Mixtures of components *)

(** [f] on every element, stopping at the first exception. *)
Fixpoint traverse {A B : Type} (f : A -> result B) (l : list A) : result (list B) :=
  match l with
  | [] => Ok []
  | a :: t =>
      do b <- f a ;;
      do bs <- traverse f t ;;
      Ok (b :: bs)
  end.

(** [m.T] of a 2-D array given as a non-empty list of rows. *)
Fixpoint transpose {A : Type} (m : list (list A)) : list (list A) :=
  match m with
  | [] => []
  | row :: rest =>
      match rest with
      | [] => map (fun a => [a]) row
      | _ :: _ => map2 cons row (transpose rest)
      end
  end.

(** [a.T] of a 3-D array: the axes reversed, [a.T[j][i][k] = a[k][i][j]]. *)
Definition transpose3 {A : Type} (a : list (list (list A))) : list (list (list A)) :=
  map transpose (transpose (map transpose a)).

(** [m] has [n1] rows of [n2] entries. *)
Definition rect {A : Type} (n1 n2 : nat) (m : list (list A)) : Prop :=
  length m = n1 /\ Forall (fun row => length row = n2) m.

Definition rectb {A : Type} (n1 n2 : nat) (m : list (list A)) : bool :=
  Nat.eqb (length m) n1 && forallb (fun row => Nat.eqb (length row) n2) m.

(** [jnp.array(v)] for a list of 2-D surfaces: they must share one shape.
    Surfaces of another rank are outside this model. *)
Definition jnp_array (v : list ndarray) : result (list (list (list R))) :=
  match v with
  | [] => Ok []
  | Mat m0 :: _ =>
      traverse (fun a =>
                  match a with
                  | Mat m =>
                      if rectb (length m0) (length (hd [] m0)) m then Ok m
                      else Raise (ValueError "inhomogeneous shape")
                  | _ => Raise TypeError
                  end) v
  | _ => Raise TypeError
  end.

(** Broadcasting of the weights [b] against the last axis of the array. *)
Definition broadcast_pairs (a b : list R) : result (list (R * R)) :=
  if Nat.eqb (length a) (length b) then Ok (combine a b)
  else match a, b with
       | [x], _ => Ok (map (fun w => (x, w)) b)
       | _, [w] => Ok (map (fun x => (x, w)) a)
       | _, _ => Raise (ValueError "operands could not be broadcast together")
       end.

Definition sum_R (l : list R) : R := fold_right Rplus 0%R l.

(** [jax.scipy.special.logsumexp(a, b=b)] along one axis:
    [log(sum(b * exp(a)))]. *)
Definition logsumexp (a b : list R) : result R :=
  do ab <- broadcast_pairs a b ;;
  Ok (ln (sum_R (map (fun p => (snd p * exp (fst p))%R) ab))).

(** [logsumexp(jnp.array(v).T, axis=-1, b=b).T] *)
Definition combine_terms (v : list ndarray) (b : list R) : result ndarray :=
  do a <- jnp_array v ;;
  do reduced <- traverse (traverse (fun cell => logsumexp cell b)) (transpose3 a) ;;
  Ok (Mat (transpose reduced)).

(** The mixture's log-density at one point as the design states it:
    [logsumexp_k(log w_k + log p_k)], for positive weights. *)
Definition mixture_log_density (ws ln_ps : list R) : R :=
  ln (sum_R (map (fun p => exp (ln (fst p) + snd p)%R) (combine ws ln_ps))).

Module Mixture.
Section Model.
Variables (Value Prior Dist : Type).
Variable draw : Prior -> PRNGKey -> Value.
Variable log_prob : Dist -> ndarray -> Kwargs -> ndarray.
Variable ln_simpson : ndarray -> ndarray -> ndarray.
Variable nd_add : ndarray -> ndarray -> ndarray.
(** The weights read from a parameter value. *)
Variable as_array : Value -> list R.

Record ComponentMixtureModel : Type := mkMixture {
  mixing_probs : Prior + Value;
  components : list (Component Value Prior Dist)
}.

(** One round of the loop of [ModelComponent.expand_numpyro_params]. *)
Definition expand_item (st : dict string (Pars Value) * option string)
    (kv : string * Value) : result (dict string (Pars Value) * option string) :=
  do bits <- Codec._expand_numpyro_name (fst kv) ;;
  let name := fst (fst bits) in
  let coord_name := snd (fst bits) in
  let arg_name := snd bits in
  let of_name := match get String.eqb name (fst st) with Some d => d | None => [] end in
  let of_coord := match get key_eqb coord_name of_name with Some d => d | None => [] end in
  Ok (set String.eqb name
        (set key_eqb coord_name (set String.eqb arg_name (snd kv) of_coord) of_name)
        (fst st),
      Some name).

Fixpoint expand_items (pars : dict string Value)
    (st : dict string (Pars Value) * option string)
    : result (dict string (Pars Value) * option string) :=
  match pars with
  | [] => Ok st
  | kv :: rest =>
      do st' <- expand_item st kv ;;
      expand_items rest st'
  end.

(** [ModelComponent.expand_numpyro_params]: the nested parameters under the
    component name of the last key; [name] is unbound for an empty dict. *)
Definition component_expand_numpyro_params (pars : dict string Value)
    : result (Pars Value) :=
  do st <- expand_items pars ([], None) ;;
  match snd st with
  | None => Raise UnboundLocalError
  | Some name =>
      match get String.eqb name (fst st) with
      | Some d => Ok d
      | None => Raise KeyError
      end
  end.

(** The entries of the expanded mixture parameters: a component's nested
    parameters, or a value kept as it was. *)
Definition Expanded : Type := dict string (Pars Value + Value).

Fixpoint expand_components (comps : list (Component Value Prior Dist))
    (pars : dict string Value) (expanded_pars : Expanded)
    : result (dict string Value * Expanded) :=
  match comps with
  | [] => Ok (pars, expanded_pars)
  | component :: rest =>
      let pre := (name component ++ ":")%string in
      let component_pars := filter (fun kv => String.prefix pre (fst kv)) pars in
      let pars' := filter (fun kv => negb (String.prefix pre (fst kv))) pars in
      do e <- component_expand_numpyro_params component_pars ;;
      expand_components rest pars'
        (set String.eqb (name component) (inl e) expanded_pars)
  end.

(** [ComponentMixtureModel.expand_numpyro_params] *)
Definition expand_numpyro_params (self : ComponentMixtureModel)
    (pars : dict string Value) : result Expanded :=
  do st <- expand_components (components self) pars [] ;;
  Ok (fold_left (fun acc kv => set String.eqb (fst kv) (inr (snd kv)) acc)
                (fst st) (snd st)).

(** [expanded_pars[component.name]], which must be a nested dict. *)
Definition component_slice (expanded_pars : Expanded)
    (component : Component Value Prior Dist) : result (Pars Value) :=
  match get String.eqb (name component) expanded_pars with
  | Some (inl p) => Ok p
  | Some (inr _) => Raise AttributeError
  | None => Raise KeyError
  end.

(** [terms[k].append(v)] for every entry of [component_terms]. *)
Definition append_terms (terms : dict CoordKey (list ndarray))
    (component_terms : dict CoordKey ndarray) : dict CoordKey (list ndarray) :=
  fold_left (fun t kv =>
               set key_eqb (fst kv)
                   (match get key_eqb (fst kv) t with Some l => l | None => [] end
                      ++ [snd kv])
                   t)
            component_terms terms.

(** The loop over the components. *)
Fixpoint evaluate_components (comps : list (Component Value Prior Dist))
    (expanded_pars : Expanded) (grids : Grids)
    (grid_coord_names : option (list (string * string))) (x_coord_name : option string)
    (st : option (dict CoordKey Mesh) * dict CoordKey (list ndarray))
    : M (option (dict CoordKey Mesh) * dict CoordKey (list ndarray)) :=
  match comps with
  | [] => ret st
  | component :: rest =>
      let* pars_c := lift (component_slice expanded_pars component) in
      let* res :=
        evaluate_on_2d_grids draw log_prob ln_simpson nd_add component (Some pars_c)
                             grids grid_coord_names x_coord_name in
      evaluate_components rest expanded_pars grids grid_coord_names x_coord_name
        (Some (fst res), append_terms (snd st) (snd res))
  end.

(** Each component's own evaluation, in component order. *)
Fixpoint evaluate_each (comps : list (Component Value Prior Dist))
    (expanded_pars : Expanded) (grids : Grids)
    (grid_coord_names : option (list (string * string))) (x_coord_name : option string)
    : M (list (dict CoordKey Mesh * dict CoordKey ndarray)) :=
  match comps with
  | [] => ret []
  | component :: rest =>
      let* pars_c := lift (component_slice expanded_pars component) in
      let* res :=
        evaluate_on_2d_grids draw log_prob ln_simpson nd_add component (Some pars_c)
                             grids grid_coord_names x_coord_name in
      let* others := evaluate_each rest expanded_pars grids grid_coord_names x_coord_name in
      ret (res :: others)
  end.

(** [pars["mixture-probs"]] *)
Definition mixture_probs (pars : dict string Value) : result (list R) :=
  match get String.eqb "mixture-probs" pars with
  | Some v => Ok (as_array v)
  | None => Raise KeyError
  end.

(** [ComponentMixtureModel.evaluate_on_2d_grids] *)
Definition evaluate_on_2d_grids (self : ComponentMixtureModel)
    (pars : dict string Value) (grids : Grids)
    (grid_coord_names : option (list (string * string))) (x_coord_name : option string)
    : M (dict CoordKey Mesh * dict CoordKey ndarray) :=
  let* expanded_pars := lift (expand_numpyro_params self pars) in
  let* st := evaluate_components (components self) expanded_pars grids
               grid_coord_names x_coord_name (None, []) in
  let* terms :=
    lift (traverse (fun kv =>
                      do b <- mixture_probs pars ;;
                      do surface <- combine_terms (snd kv) b ;;
                      Ok (fst kv, surface))
                   (snd st)) in
  let* all_grids := lift (match fst st with
                          | Some g => Ok g
                          | None => Raise UnboundLocalError
                          end) in
  ret (all_grids, terms).

(** The value of a component's surface for [k] at row [i], column [j]. *)
Definition surface_at (res : dict CoordKey Mesh * dict CoordKey ndarray)
    (k : CoordKey) (i j : nat) : R :=
  match get key_eqb k (snd res) with
  | Some (Mat m) => nth j (nth i m []) 0%R
  | _ => 0%R
  end.

(** The components returned 2-D surfaces for the same keys [ks], of shape
    [n1 k] by [n2 k] for key [k]. *)
Record homogeneous (results : list (dict CoordKey Mesh * dict CoordKey ndarray))
    (ks : list CoordKey) (n1 n2 : CoordKey -> nat) : Prop := {
  hom_keys : forall res, In res results -> keys (snd res) = ks;
  hom_distinct : NoDup ks;
  hom_shape : forall res k, In res results -> In k ks ->
                exists m, get key_eqb k (snd res) = Some (Mat m) /\
                          rect (n1 k) (n2 k) m;
  hom_rows : forall k, In k ks -> 0 < n1 k;
  hom_cols : forall k, In k ks -> 0 < n2 k
}.

(** [log(sum_k w_k * exp(s_k[i][j]))] over the components' surfaces for [k]. *)
Definition weighted_cell (ws : list R)
    (results : list (dict CoordKey Mesh * dict CoordKey ndarray))
    (k : CoordKey) (i j : nat) : R :=
  ln (sum_R (map (fun p => (snd p * exp (fst p))%R)
                 (combine (map (fun res => surface_at res k i j) results) ws))).

(** The surface with [weighted_cell] at every grid point. *)
Definition weighted_surface (ws : list R)
    (results : list (dict CoordKey Mesh * dict CoordKey ndarray))
    (k : CoordKey) (n1 n2 : nat) : list (list R) :=
  map (fun i => map (fun j => weighted_cell ws results k i j) (seq 0 n2)) (seq 0 n1).

(** What the loop leaves in [all_grids]. *)
Definition last_grids (results : list (dict CoordKey Mesh * dict CoordKey ndarray))
    (g0 : option (dict CoordKey Mesh)) : option (dict CoordKey Mesh) :=
  fold_left (fun _ res => Some (fst res)) results g0.

(** The entry of a component's result for [k]. *)
Definition term_of (res : dict CoordKey Mesh * dict CoordKey ndarray) (k : CoordKey)
    : ndarray :=
  match get key_eqb k (snd res) with
  | Some v => v
  | None => Vec []
  end.

End Model.

Arguments components {Value Prior Dist} _.
Arguments mixing_probs {Value Prior Dist} _.
Arguments mkMixture {Value Prior Dist} _ _.
Arguments expand_numpyro_params {Value Prior Dist} self pars.
Arguments evaluate_components {Value Prior Dist} draw log_prob ln_simpson nd_add
  comps expanded_pars grids grid_coord_names x_coord_name st _.
Arguments evaluate_each {Value Prior Dist} draw log_prob ln_simpson nd_add
  comps expanded_pars grids grid_coord_names x_coord_name _.
Arguments evaluate_on_2d_grids {Value Prior Dist} draw log_prob ln_simpson nd_add
  as_array self pars grids grid_coord_names x_coord_name _.
Arguments mixture_probs {Value} as_array pars.
Arguments component_slice {Value Prior Dist} expanded_pars component.
End Mixture.

(** ** The truncated grid GMM *)

Module TruncatedGridGMM.
Open Scope R_scope.

(** Truncation bounds are floats that may be infinite. *)
Inductive ereal : Type :=
| NegInf
| Fin (r : R)
| PosInf.

(** [a - e] for a finite [a]. *)
Definition sub_from (a : R) (e : ereal) : ereal :=
  match e with
  | NegInf => PosInf
  | Fin r => Fin (a - r)
  | PosInf => NegInf
  end.

(** [sign * e] for [sign] one of [1.0] and [-1.0]. *)
Definition scale_sign (sign : R) (e : ereal) : ereal :=
  match e with
  | Fin r => Fin (sign * r)
  | NegInf => if Rlt_dec 0 sign then NegInf else PosInf
  | PosInf => if Rlt_dec 0 sign then PosInf else NegInf
  end.

(** [a >= e] *)
Definition ge_bound (a : R) (e : ereal) : bool :=
  match e with
  | NegInf => true
  | Fin r => if Rle_dec r a then true else false
  | PosInf => false
  end.

Section Normal.
(** The standard normal cdf ([ndtr]). *)
Variable Phi : R -> R.

(** [dist.Normal(loc, scale).cdf(x)], with its limits at the infinities. *)
Definition normal_cdf (loc scale : R) (x : ereal) : R :=
  match x with
  | NegInf => 0
  | Fin r => Phi ((r - loc) / scale)
  | PosInf => 1
  end.

(** The body of the double loop: what is added to component [k] for one
    dimension. *)
Definition log_diff_term (loc scale : R) (low high : ereal) : R :=
  let sign := if ge_bound loc low then 1 else -1 in
  let _tail_prob_at_low :=
    normal_cdf loc scale (sub_from loc (scale_sign sign (sub_from loc low))) in
  let _tail_prob_at_high :=
    normal_cdf loc scale (sub_from loc (scale_sign sign (sub_from loc high))) in
  ln (sign * (_tail_prob_at_high - _tail_prob_at_low)).

(** One dimension of one component, as the loop indexes it. *)
Record axis : Type := mkAxis {
  ax_loc : R;
  ax_scale : R;
  ax_low : ereal;
  ax_high : ereal
}.

(** The cells [(locs[k, d], scales[k, d], low[d], high[d])] of component
    [k], for [d] in [range(D)]. *)
Definition axes_of (locs_k scales_k : list R) (low high : list ereal) : list axis :=
  map2 (fun ls lh => mkAxis (fst ls) (snd ls) (fst lh) (snd lh))
       (combine locs_k scales_k) (combine low high).

(** [self._log_diff_tail_probs]: zero, then one addition per dimension. *)
Definition _log_diff_tail_probs (locs scales : list (list R)) (low high : list ereal)
    : list R :=
  map2 (fun locs_k scales_k =>
          fold_left (fun acc a =>
                       acc + log_diff_term (ax_loc a) (ax_scale a) (ax_low a) (ax_high a))
                    (axes_of locs_k scales_k low high) 0)
       locs scales.

(** The mass of [Normal(loc, scale)] inside [[low, high]]. *)
Definition retained_mass (loc scale : R) (low high : ereal) : R :=
  normal_cdf loc scale high - normal_cdf loc scale low.

(** The sum over dimensions of the log retained mass. *)
Definition log_retained_mass (locs_k scales_k : list R) (low high : list ereal) : R :=
  fold_right Rplus 0
    (map (fun a => ln (retained_mass (ax_loc a) (ax_scale a) (ax_low a) (ax_high a)))
         (axes_of locs_k scales_k low high)).

(** The constant the design states for component [k] of a model with [D]
    dimensions: the sum over [d < D] of [log (cdf(high[d]) - cdf(low[d]))]
    for [Normal(locs[k, d], scales[k, d])]. *)
Definition log_mass_by_index (locs scales : list (list R)) (low high : list ereal)
    (D k : nat) : R :=
  fold_right Rplus 0
    (map (fun d =>
            ln (retained_mass (nth d (nth k locs []) 0) (nth d (nth k scales []) 0)
                              (nth d low NegInf) (nth d high PosInf)))
         (seq 0 D)).
End Normal.

(** A symmetric cdf to run the definitions on. *)
Definition logistic (x : R) : R := / (1 + exp (- x)).

Close Scope R_scope.
End TruncatedGridGMM.

(** ** Truncation intervals *)

Module Interval.
Import TruncatedGridGMM.
Open Scope R_scope.

(** [low < high] for bounds that may be infinite. *)
Definition lt_bound (low high : ereal) : Prop :=
  match low, high with
  | NegInf, NegInf => False
  | NegInf, _ => True
  | Fin a, Fin b => a < b
  | Fin _, PosInf => True
  | Fin _, NegInf => False
  | PosInf, _ => False
  end.

(** What the loop of [__init__] needs of a standard cdf for the logarithm
    to be taken of a positive number. *)
Record cdf_like (Phi : R -> R) : Prop := {
  cdf_symmetric : forall x, Phi (- x) = 1 - Phi x;
  cdf_increasing : forall x y, x < y -> Phi x < Phi y;
  cdf_range : forall x, 0 < Phi x < 1
}.

Close Scope R_scope.
End Interval.

(** ** Nested parameters *)

(** [nested[coord_name][arg_name]], when both keys are present. *)
Definition lookup_nested {V : Type} (nested : dict CoordKey (dict string V))
    (coord_name : CoordKey) (arg_name : string) : option V :=
  match get key_eqb coord_name nested with
  | Some d => get String.eqb arg_name d
  | None => None
  end.

(** The flat dict of one component: one site name per coordinate and
    argument. *)
Definition flat_pars {V : Type} (c : string) (entries : list (CoordKey * string * V))
    : dict string V :=
  map (fun e => (Codec._make_numpyro_name c (fst (fst e)) (Some (snd (fst e))), snd e))
      entries.

(** No key of [pars] starts with the component's prefix [name:]. *)
Definition no_key_of {V : Type} (component_name : string) (pars : dict string V) : Prop :=
  forall key, In key (keys pars) -> String.prefix (component_name ++ ":") key = false.

(** ** Decidable checks on declarations *)

Fixpoint distinct_keys (l : list CoordKey) : bool :=
  match l with
  | [] => true
  | k :: l' => negb (key_in k l') && distinct_keys l'
  end.

Definition well_declaredb {Family Spec : Type} (self : ModelComponent Family Spec) : bool :=
  match conditional_data self with
  | None => false
  | Some cd =>
      let ks := keys (coord_distributions self) in
      distinct_keys ks && distinct_keys (keys cd)
      && forallb (fun k => key_in k ks) (keys cd)
      && forallb (fun kv => forallb (fun d => key_in (Single d) ks) (values (snd kv))) cd
  end.

(** Position of [k] in [order] ([length order] when absent). *)
Fixpoint index_of (k : CoordKey) (order : list CoordKey) : nat :=
  match order with
  | [] => 0
  | k' :: order' => if key_eqb k k' then 0 else S (index_of k order')
  end.

(** Every key of [cd] sits after the keys it reads in [order]. *)
Definition ranked_by (order : list CoordKey) (cd : dict CoordKey DataMap) : bool :=
  forallb (fun kv =>
             forallb (fun d => Nat.ltb (index_of (Single d) order) (index_of (fst kv) order))
                     (values (snd kv)))
          cd.


(** ** Example declarations *)

Module Examples.

(** Three coordinates, [phi2] and [pm1] conditioned on earlier ones. *)
Definition stream_cd : dict CoordKey DataMap :=
  [(Single "pm1", [("loc", "phi2"); ("x", "phi1")]);
   (Single "phi2", [("x", "phi1")])].

Definition stream : ModelComponent unit unit :=
  mkComponent "stream"
    [(Single "phi1", tt); (Single "phi2", tt); (Single "pm1", tt)]
    [(Single "phi1", []); (Single "phi2", []); (Single "pm1", [])]
    (Some "phi1") (Some stream_cd) (Some ["phi1"; "phi2"; "pm1"]).

(** [n] coordinates [c0 .. c(n-1)], each reading the coordinate [x]. *)
Definition cname (i : nat) : string :=
  String "c" (String.concat EmptyString (repeat "i" i)).

Definition fan_cd (n : nat) : dict CoordKey DataMap :=
  map (fun i => (Single (cname i), [("loc", "x")])) (seq 0 n).

Definition fan (n : nat) : ModelComponent unit unit :=
  mkComponent "fan"
    ((Single "x", tt) :: map (fun i => (Single (cname i), tt)) (seq 0 n))
    ((Single "x", []) :: map (fun i => (Single (cname i), [])) (seq 0 n))
    (Some "x") (Some (fan_cd n)) (Some ("x" :: map cname (seq 0 n))).

(** A joint key whose member is read by a third coordinate. *)
Definition joint_member : ModelComponent unit unit :=
  mkComponent "bg"
    [(Joint ["phi1"; "phi2"], tt); (Single "pm1", tt)]
    [(Joint ["phi1"; "phi2"], []); (Single "pm1", [])]
    (Some "phi1") (Some [(Single "pm1", [("x", "phi1")])])
    (Some ["phi1"; "phi2"; "pm1"]).

(** A declaration whose first key is a joint key, no [default_x_coord]. *)
Definition joint_first : ModelComponent unit unit :=
  mkComponent "bg"
    [(Joint ["phi1"; "phi2"], tt); (Single "pm1", tt)]
    [(Joint ["phi1"; "phi2"], []); (Single "pm1", [])]
    None None None.

(** [phi1] and [phi2] read each other. *)
Definition two_cycle : ModelComponent unit unit :=
  mkComponent "bad"
    [(Single "phi1", tt); (Single "phi2", tt)]
    [(Single "phi1", []); (Single "phi2", [])]
    None
    (Some [(Single "phi1", [("x", "phi2")]); (Single "phi2", [("x", "phi1")])])
    None.

(** The joint coordinate [(a, b)] reads [c], and [c] reads [a]. *)
Definition joint_cycle : ModelComponent unit unit :=
  mkComponent "bad"
    [(Joint ["a"; "b"], tt); (Single "c", tt)]
    [(Joint ["a"; "b"], []); (Single "c", [])]
    None
    (Some [(Joint ["a"; "b"], [("u", "c")]); (Single "c", [("v", "a")])])
    None.

(** [a] and [c] read each other by name, [a] being modelled jointly with
    [b]. *)
Definition member_cycle : ModelComponent unit unit :=
  mkComponent "bad"
    [(Joint ["a"; "b"], tt); (Single "c", tt)]
    [(Joint ["a"; "b"], []); (Single "c", [])]
    None
    (Some [(Single "a", [("u", "c")]); (Single "c", [("v", "a")])])
    None.

(** Two independent coordinates; the location of [x] has a drawable prior. *)
Definition two_coords_raw : Component (list R) unit unit :=
  mkComponent "bg"
    [(Single "x", fun _ => tt); (Single "y", fun _ => tt)]
    [(Single "x", [("loc", Plain (DrawDist tt)); ("scale", Plain (Literal [1%R]))]);
     (Single "y", [("loc", Plain (Literal [0%R])); ("scale", Plain (Literal [1%R]))])]
    None None None.

Definition two_coords : Component (list R) unit unit :=
  mkComponent "bg"
    (coord_distributions two_coords_raw) (coord_parameters two_coords_raw)
    (Some "x") (Some []) (Some ["x"; "y"]).

(** A substrate that ignores its inputs: the calls are what is observed. *)
Definition draw0 (_ : unit) (_ : PRNGKey) : list R := [0%R].
Definition log_prob0 (_ : unit) (x : ndarray) (_ : Kwargs) : ndarray := x.
Definition dist_sample0 (_ : unit) (_ : PRNGKey) (_ : list nat) (_ : Kwargs) : ndarray :=
  Vec [].
Definition ln_simpson0 (ln_p _ : ndarray) : ndarray := ln_p.
Definition nd_add0 (_ b : ndarray) : ndarray := b.

Definition world0 : world := mkWorld None [].

(** Edge grids for [x] and [y]. *)
Definition edges : Grids := [("x", [0; 1; 2]%R); ("y", [0; 2; 4; 6]%R)].

(** One joint key for the coordinates [x] and [y]. *)
Definition joint_xy : Component (list R) unit unit :=
  mkComponent "bg"
    [(Joint ["x"; "y"], fun _ => tt)]
    [(Joint ["x"; "y"], [])]
    (Some "x") (Some []) (Some ["x"; "y"]).


(** [y] is conditioned on the sample of [x]. *)
Definition chain_cd : dict CoordKey DataMap := [(Single "y", [("loc_at", "x")])].

Definition chain : Component (list R) unit unit :=
  mkComponent "bg"
    [(Single "y", fun _ => tt); (Single "x", fun _ => tt)]
    [(Single "y", []); (Single "x", [])]
    (Some "y") (Some chain_cd) (Some ["y"; "x"]).

(** A two-component mixture over the coordinates [x] and [y]. *)
Definition mix_component (nm : string) : Component (list R) unit unit :=
  mkComponent nm
    [(Single "x", fun _ => tt); (Single "y", fun _ => tt)]
    [(Single "x", [("loc", Plain (DrawDist tt))]);
     (Single "y", [("loc", Plain (Literal [0%R]))])]
    (Some "x") (Some []) (Some ["x"; "y"]).

Definition mix : Mixture.ComponentMixtureModel (list R) unit unit :=
  Mixture.mkMixture (inr [0.5%R; 0.5%R]) [mix_component "stream"; mix_component "bg"].

Definition mix_pars : dict string (list R) :=
  [("stream:x:loc", [0%R]); ("bg:x:loc", [0%R]); ("mixture-probs", [1%R; 0%R])].

Definition xy : CoordKey := Joint ["x"; "y"].

(** What either component returns on [edges] for the pair [(x, y)] under the
    substrate above. *)
Definition mix_result : dict CoordKey Mesh * dict CoordKey ndarray :=
  ([(xy, meshgrid [0; 1; 2]%R [0; 2; 4; 6]%R)],
   [(xy, Mat (centers2 (snd (meshgrid [0; 1; 2]%R [0; 2; 4; 6]%R))))]).

End Examples.

(** * Properties *)

(** ** Keys *)

Lemma key_eqb_eq a b : key_eqb a b = true <-> a = b.
Proof.
  unfold key_eqb; destruct (CoordKey_eq_dec a b); split; congruence.
Qed.

Lemma key_eqb_refl a : key_eqb a a = true.
Proof. now apply key_eqb_eq. Qed.

Lemma key_eqb_neq a b : key_eqb a b = false <-> a <> b.
Proof.
  unfold key_eqb; destruct (CoordKey_eq_dec a b); split; congruence.
Qed.

Lemma key_in_In k l : key_in k l = true <-> In k l.
Proof.
  unfold key_in; rewrite existsb_exists; split.
  - intros [x [Hx He]]; apply key_eqb_eq in He; now subst.
  - intros H; exists k; split; [assumption | apply key_eqb_refl].
Qed.

Lemma key_in_not_In k l : key_in k l = false <-> ~ In k l.
Proof.
  rewrite <- key_in_In; destruct (key_in k l); split; congruence.
Qed.

Lemma str_in_In s l : str_in s l = true <-> In s l.
Proof.
  unfold str_in; rewrite existsb_exists; split.
  - intros [x [Hx He]]; apply String.eqb_eq in He; now subst.
  - intros H; exists s; split; [assumption | apply String.eqb_refl].
Qed.


Module PyStrFacts.
Import PyStr.

Lemma contains_app c s t :
  contains c (s ++ t)%string = contains c s || contains c t.
Proof.
  induction s as [|a s IH]; simpl; [reflexivity|].
  now rewrite IH, orb_assoc.
Qed.

Lemma append_assoc (s t u : string) : ((s ++ t) ++ u = s ++ (t ++ u))%string.
Proof. induction s as [|a s IH]; simpl; [reflexivity | now rewrite IH]. Qed.

Lemma split_free sep s : contains sep s = false -> split sep s = [s].
Proof.
  induction s as [|a s IH]; simpl; [reflexivity|].
  intros H; apply orb_false_iff in H as [Ha Hs].
  rewrite Ha, (IH Hs); reflexivity.
Qed.

Lemma split_app_sep sep s t :
  contains sep s = false ->
  split sep (s ++ String sep t)%string = s :: split sep t.
Proof.
  induction s as [|a s IH]; simpl; intros H.
  - now rewrite Ascii.eqb_refl.
  - apply orb_false_iff in H as [Ha Hs].
    rewrite Ha, (IH Hs); reflexivity.
Qed.

Lemma split_join sep l :
  l <> [] ->
  Forall (fun s => contains sep s = false) l ->
  split sep (join (String sep EmptyString) l) = l.
Proof.
  unfold join; induction l as [|x l IH]; [congruence|].
  intros _ Hall; inversion_clear Hall as [|? ? Hx Hl].
  destruct l as [|y l].
  - simpl; now apply split_free.
  - change (String.concat (String sep EmptyString) (x :: y :: l))
      with (x ++ String sep (String.concat (String sep EmptyString) (y :: l)))%string.
    rewrite (split_app_sep _ _ _ Hx), IH; [reflexivity | discriminate | assumption].
Qed.

Lemma contains_join_other c sep l :
  contains c sep = false ->
  Forall (fun s => contains c s = false) l ->
  contains c (join sep l) = false.
Proof.
  intros Hsep; unfold join; induction l as [|x l IH]; [reflexivity|].
  intros Hall; inversion_clear Hall as [|? ? Hx Hl].
  destruct l as [|y l]; simpl; [assumption|].
  rewrite !contains_app, Hx, Hsep; simpl.
  now apply IH.
Qed.

Lemma contains_join_sep sep x y l :
  contains sep (join (String sep EmptyString) (x :: y :: l)) = true.
Proof.
  unfold join; simpl.
  rewrite contains_app; simpl.
  rewrite Ascii.eqb_refl; simpl.
  now rewrite orb_true_r.
Qed.

End PyStrFacts.

Module CodecFacts.
Import PyStr PyStrFacts Codec.

Lemma segment_free_colon k : codec_key k -> contains ":" (segment k) = false.
Proof.
  destruct k as [s|names]; simpl.
  - now intros [_ H].
  - intros [_ H]; apply contains_join_other; [reflexivity|].
    eapply Forall_impl; [|exact H]; now intros ? [_ ?].
Qed.

Lemma segment_decode k :
  codec_key k ->
  (if contains "-" (segment k) then Joint (split "-" (segment k))
   else Single (segment k)) = k.
Proof.
  destruct k as [s|names]; simpl.
  - intros [H _]; unfold free_of in H; now rewrite H.
  - intros [Hlen H].
    destruct names as [|x [|y l]]; simpl in Hlen; try lia.
    rewrite contains_join_sep, split_join; [reflexivity | discriminate |].
    eapply Forall_impl; [|exact H]; now intros ? [? _].
Qed.

(** C2: decoding an encoded name gives back the component name, the
    coordinate key and the argument name, whenever the component and
    argument names hold no [":"], the coordinate names hold neither [":"]
    nor ["-"], and the key is what the codec is typed for
    ([str | tuple[str, str]]): a name, or a tuple of two names or more. *)
Theorem expand_make_numpyro_name_roundtrip (c : string) (k : CoordKey) (a : string) :
  free_of ":" c -> codec_key k -> free_of ":" a ->
  _expand_numpyro_name (_make_numpyro_name c k (Some a)) = Ok (c, k, a).
Proof.
  intros Hc Hk Ha.
  unfold _expand_numpyro_name, _make_numpyro_name.
  fold (segment k).
  replace ((c ++ ":" ++ segment k) ++ ":" ++ a)%string
    with (c ++ String ":" (segment k ++ String ":" a))%string.
  2:{ rewrite append_assoc; reflexivity. }
  rewrite (split_app_sep _ _ _ Hc).
  rewrite (split_app_sep _ _ _ (segment_free_colon _ Hk)).
  rewrite (split_free _ _ Ha).
  now rewrite (segment_decode _ Hk).
Qed.

Lemma expand_make_numpyro_name_roundtrip_witness :
  _expand_numpyro_name
    (_make_numpyro_name "stream" (Joint ["phi1"; "phi2"]) (Some "loc"))
  = Ok ("stream", Joint ["phi1"; "phi2"], "loc").
Proof.
  apply expand_make_numpyro_name_roundtrip.
  - reflexivity.
  - split; [simpl; lia | repeat constructor].
  - reflexivity.
Defined.

(** Outside the codec's key type: the segment of a one-name tuple holds no
    ["-"], so the decoder returns the bare name. *)
Lemma expand_make_numpyro_name_one_tuple :
  Forall (fun s => free_of "-" s /\ free_of ":" s) ["phi1"] /\
  _expand_numpyro_name (_make_numpyro_name "stream" (Joint ["phi1"]) (Some "loc"))
  = Ok ("stream", Single "phi1", "loc") /\
  _expand_numpyro_name (_make_numpyro_name "stream" (Joint ["phi1"]) (Some "loc"))
  <> Ok ("stream", Joint ["phi1"], "loc").
Proof.
  split; [repeat constructor|].
  split; [reflexivity | discriminate].
Qed.

End CodecFacts.

(** ** Generic facts on lists, dictionaries and relations *)

Section ListFacts.
Context {A : Type}.

Lemma forallb_false_witness (f : A -> bool) (l : list A) :
  forallb f l = false -> exists x, In x l /\ f x = false.
Proof.
  induction l as [|a l IH]; simpl; [discriminate|].
  destruct (f a) eqn:Ha; simpl.
  - intros H; destruct (IH H) as [x [Hx Hf]]; eauto.
  - intros _; eauto.
Qed.

(** A finite non-empty set in which every element has a successor holds a
    cycle. *)
Lemma clos_trans_flatten (R : A -> A -> Prop) x y :
  clos_trans A (clos_trans A R) x y -> clos_trans A R x y.
Proof.
  induction 1 as [x y H | x y z _ IH1 _ IH2]; [exact H|].
  eapply t_trans; eassumption.
Qed.

Lemma closed_set_has_cycle (S : list A) :
  forall R : A -> A -> Prop,
  S <> [] ->
  (forall x, In x S -> exists y, In y S /\ R x y) ->
  exists x, clos_trans A R x x.
Proof.
  induction S as [|x S IH]; intros R Hne Hsucc; [congruence|].
  destruct (Hsucc x (or_introl eq_refl)) as [t [[Ht | Ht] Hxt]].
  - subst t; exists x; now apply t_step.
  - destruct (IH (clos_trans A R)) as [z Hz].
    + intros ->; exact Ht.
    + intros z Hz.
      destruct (Hsucc z (or_intror Hz)) as [s [[Hs | Hs] Hzs]].
      * subst s; exists t; split; [exact Ht|].
        eapply t_trans; apply t_step; eassumption.
      * exists s; split; [exact Hs | now apply t_step].
    + exists z; now apply clos_trans_flatten.
Qed.
End ListFacts.

Section DictFacts.
Context {V : Type}.
Implicit Types (d : dict CoordKey V) (k : CoordKey).

Lemma get_Some_In k d v : get key_eqb k d = Some v -> In (k, v) d.
Proof.
  induction d as [|[k' v'] d IH]; simpl; [discriminate|].
  destruct (key_eqb k k') eqn:E.
  - apply key_eqb_eq in E; subst; intros [= ->]; now left.
  - intros H; right; auto.
Qed.

Lemma get_None_keys k d : get key_eqb k d = None <-> ~ In k (keys d).
Proof.
  induction d as [|[k' v'] d IH]; simpl; [tauto|].
  destruct (key_eqb k k') eqn:E.
  - apply key_eqb_eq in E; subst; split; [discriminate | tauto].
  - apply key_eqb_neq in E; rewrite IH; split; [intros H [?|?]; [congruence | tauto] | tauto].
Qed.

Lemma mem_keys k d : mem key_eqb k d = true <-> In k (keys d).
Proof.
  unfold mem; destruct (get key_eqb k d) eqn:E.
  - split; [intros _ | reflexivity].
    apply get_Some_In in E; apply (in_map fst) in E; exact E.
  - apply get_None_keys in E; split; [discriminate | tauto].
Qed.

Lemma In_get k d v : NoDup (keys d) -> In (k, v) d -> get key_eqb k d = Some v.
Proof.
  induction d as [|[k' v'] d IH]; simpl; [tauto|].
  intros Hnd; inversion_clear Hnd as [|? ? Hnotin Hnd'].
  intros [[= -> ->] | Hin].
  - now rewrite key_eqb_refl.
  - destruct (key_eqb k k') eqn:E; [|auto].
    apply key_eqb_eq in E; subst k'.
    exfalso; apply Hnotin; apply (in_map fst) in Hin; exact Hin.
Qed.

Lemma In_unique k d v v' :
  NoDup (keys d) -> In (k, v) d -> In (k, v') d -> v = v'.
Proof.
  intros Hnd H1 H2.
  apply (In_get _ _ _ Hnd) in H1; apply (In_get _ _ _ Hnd) in H2; congruence.
Qed.

Lemma remove_absent k d : ~ In k (keys d) -> remove key_eqb k d = d.
Proof.
  induction d as [|[k' v'] d IH]; simpl; [reflexivity|].
  intros H; destruct (key_eqb k k') eqn:E.
  - apply key_eqb_eq in E; subst; tauto.
  - rewrite IH; tauto.
Qed.

Lemma remove_incl k d x : In x (remove key_eqb k d) -> In x d.
Proof.
  induction d as [|[k' v'] d IH]; simpl; [tauto|].
  destruct (key_eqb k k'); simpl; [tauto | intros [?|?]; auto].
Qed.

Lemma remove_keys_perm k d :
  In k (keys d) -> Permutation (k :: keys (remove key_eqb k d)) (keys d).
Proof.
  induction d as [|[k' v'] d IH]; simpl; [tauto|].
  destruct (key_eqb k k') eqn:E.
  - apply key_eqb_eq in E; subst; intros _; reflexivity.
  - apply key_eqb_neq in E; intros [? | Hin]; [congruence|].
    simpl; rewrite perm_swap; apply perm_skip; auto.
Qed.

Lemma remove_length k d :
  In k (keys d) -> S (length (remove key_eqb k d)) = length d.
Proof.
  induction d as [|[k' v'] d IH]; simpl; [tauto|].
  destruct (key_eqb k k') eqn:E; [reflexivity|].
  apply key_eqb_neq in E; intros [? | Hin]; [congruence|].
  simpl; now rewrite IH.
Qed.
End DictFacts.

(** ** The dependency resolver *)

Section ResolverFacts.
Context {Family Spec : Type}.
Variable self : ModelComponent Family Spec.
Variable cd : dict CoordKey DataMap.
Hypothesis WD : well_declared self cd.

Let ks := keys (coord_distributions self).
Let pending0 : dict CoordKey (list string) :=
  map (fun kv => (fst kv, dependencies (snd kv))) cd.

Lemma keys_pending0 : keys pending0 = keys cd.
Proof. unfold pending0, keys; rewrite map_map; reflexivity. Qed.

Lemma unconditional_fold (l acc : list CoordKey) :
  fold_left (fun st coord_name =>
               if negb (mem key_eqb coord_name cd)
               then (fst st ++ [coord_name], remove key_eqb coord_name (snd st))
               else st)
            l (acc, pending0)
  = (acc ++ filter (fun k => negb (mem key_eqb k cd)) l, pending0).
Proof.
  revert acc; induction l as [|k l IH]; intros acc; simpl.
  - now rewrite app_nil_r.
  - destruct (mem key_eqb k cd) eqn:E; simpl.
    + apply IH.
    + rewrite remove_absent.
      * rewrite IH, <- app_assoc; reflexivity.
      * rewrite keys_pending0, <- mem_keys; congruence.
Qed.

Lemma unconditional_first_filter :
  unconditional_first ks cd pending0
  = (filter (fun k => negb (mem key_eqb k cd)) ks, pending0).
Proof. unfold unconditional_first; now rewrite unconditional_fold. Qed.

Lemma placed_unconditional (l : list CoordKey) :
  (forall k, In k l -> ~ In k (keys cd)) -> placed cd l.
Proof.
  induction l as [|k l IH] using rev_ind; intros H; [constructor|].
  constructor.
  - apply IH; intros k' Hk'; apply H, in_or_app; now left.
  - intros v d Hin _; exfalso.
    apply (H k); [apply in_or_app; right; now left|].
    apply (in_map fst) in Hin; exact Hin.
Qed.

Lemma resolver_inv_init : resolver_inv ks cd (unconditional_first ks cd pending0).
Proof.
  destruct WD as [_ Hks Hcd Hincl _].
  rewrite unconditional_first_filter; constructor; simpl.
  - rewrite keys_pending0.
    apply NoDup_Permutation.
    + apply NoDup_app; [now apply NoDup_filter | assumption |].
      intros a Ha Hb; apply filter_In in Ha as [_ Ha].
      apply mem_keys in Hb; rewrite Hb in Ha; discriminate.
    + exact Hks.
    + intros x; rewrite in_app_iff, filter_In; split.
      * intros [[? _] | ?]; [assumption | now apply Hincl].
      * intros Hx; destruct (mem key_eqb x cd) eqn:E.
        -- right; now apply mem_keys.
        -- left; now split.
  - intros k deps Hin; unfold pending0 in Hin.
    apply in_map_iff in Hin as [[k' v] [[= <- <-] Hin]]; eauto.
  - apply placed_unconditional; intros k Hk Hin.
    apply filter_In in Hk as [_ Hk]; apply mem_keys in Hin.
    rewrite Hin in Hk; discriminate.
Qed.

Lemma first_ready_spec order pending k :
  first_ready order pending = Some k ->
  exists deps, In (k, deps) pending /\
               forall d, In d deps -> In (Single d) order.
Proof.
  unfold first_ready; destruct (find _ pending) as [[k' deps]|] eqn:E; [|discriminate].
  intros [= <-]; apply find_some in E as [Hin Hall]; simpl in Hall.
  exists deps; split; [assumption|].
  intros d Hd; unfold all_sampled in Hall.
  rewrite forallb_forall in Hall; apply key_in_In; auto.
Qed.

Lemma relax_round_inv st k :
  resolver_inv ks cd st ->
  first_ready (fst st) (snd st) = Some k ->
  resolver_inv ks cd (relax_round st)
  /\ S (length (snd (relax_round st))) = length (snd st).
Proof.
  intros [Hperm Hpend Hplaced] Hready.
  unfold relax_round; rewrite Hready; simpl.
  destruct (first_ready_spec _ _ _ Hready) as [deps [Hin Hdeps]].
  assert (Hk : In k (keys (snd st))) by (apply (in_map fst) in Hin; exact Hin).
  split; [constructor; simpl | now apply remove_length].
  - rewrite <- Hperm, <- app_assoc; apply Permutation_app_head; simpl.
    now apply remove_keys_perm.
  - intros k' deps' H'; apply Hpend; eapply remove_incl; eassumption.
  - constructor; [assumption|].
    intros v d Hv Hd; apply Hdeps.
    destruct (Hpend _ _ Hin) as [v' [Hv' ->]].
    rewrite (In_unique _ _ _ _ (wd_cd_keys _ _ _ _ WD) Hv' Hv).
    now apply nodup_In.
Qed.

Hypothesis Hacyclic : acyclic cd.

(** Without a cycle some pending key is always ready. *)
Lemma relax_progress st :
  resolver_inv ks cd st -> snd st <> [] ->
  exists k, first_ready (fst st) (snd st) = Some k.
Proof.
  intros [Hperm Hpend _] Hne.
  destruct (first_ready (fst st) (snd st)) as [k|] eqn:E; [eauto|exfalso].
  unfold first_ready in E.
  destruct (find _ (snd st)) eqn:Efind; [discriminate|].
  destruct (closed_set_has_cycle (keys (snd st)) (depends_on cd)) as [z Hz].
  - destruct (snd st); [congruence | discriminate].
  - intros x Hx; apply in_map_iff in Hx as [[x' deps] [Hfst Hin]]; simpl in Hfst; subst x'.
    pose proof (find_none _ _ Efind _ Hin) as Hnot; simpl in Hnot.
    apply forallb_false_witness in Hnot as [d [Hd Hnotin]].
    apply key_in_not_In in Hnotin.
    destruct (Hpend _ _ Hin) as [v [Hv ->]].
    apply nodup_In in Hd.
    exists (Single d); split.
    + pose proof (wd_sources _ _ _ _ WD _ _ _ Hv Hd) as Hdecl.
      apply (Permutation_in _ (Permutation_sym Hperm)) in Hdecl.
      apply in_app_or in Hdecl as [?|?]; [contradiction | assumption].
    + exists v, d; auto.
  - exact (Hacyclic z Hz).
Qed.

Lemma relax_terminates fuel :
  forall st, resolver_inv ks cd st ->
  length (snd st) <= fuel -> 0 < fuel ->
  exists order, relax fuel st = Ok order /\ resolver_inv ks cd (order, []).
Proof.
  induction fuel as [|fuel IH]; intros st Hinv Hlen Hpos; [lia|].
  simpl.
  destruct (snd st) as [|e rest] eqn:Est.
  - assert (Hround : relax_round st = st).
    { unfold relax_round, first_ready; now rewrite Est. }
    rewrite Hround, Est; exists (fst st); split; [reflexivity|].
    destruct st; simpl in *; now subst.
  - destruct (relax_progress st Hinv) as [k Hk]; [rewrite Est; discriminate|].
    destruct (relax_round_inv st k Hinv Hk) as [Hinv' Hlen'].
    destruct (snd (relax_round st)) as [|e' rest'] eqn:Est'.
    + exists (fst (relax_round st)); split; [reflexivity|].
      destruct (relax_round st); simpl in *; now subst.
    + rewrite Est in Hlen'; simpl in Hlen, Hlen'.
      apply IH; [assumption | rewrite Est'; simpl; lia | lia].
Qed.

Lemma placed_precedes order :
  placed cd order ->
  forall k v d, In k order -> In (k, v) cd -> In d (values v) ->
  precedes (Single d) k order.
Proof.
  induction 1 as [|order k0 Hpl IH Hk0]; intros k v d Hin Hv Hd; [contradiction|].
  apply in_app_or in Hin as [Hin | [<- | []]].
  - destruct (IH _ _ _ Hin Hv Hd) as [l1 [l2 [l3 ->]]].
    exists l1, l2, (l3 ++ [k0]).
    now rewrite <- !app_assoc, <- !app_comm_cons, <- app_assoc.
  - destruct (in_split _ _ (Hk0 _ _ Hv Hd)) as [l1 [l2 ->]].
    exists l1, l2, []; now rewrite <- app_assoc.
Qed.

(** C1 (as amended): for a well-declared component whose dependency graph
    has no cycle and whose conditional data has at most 128 keys,
    [_sample_order] returns a permutation of the declared keys in which
    every dependency precedes its dependent. *)
Theorem sample_order_topological :
  length cd <= max_rounds ->
  exists order,
    _sample_order self = Ok order /\
    Permutation order (keys (coord_distributions self)) /\
    forall k v d, In (k, v) cd -> In d (values v) -> precedes (Single d) k order.
Proof.
  intros Hlen.
  unfold _sample_order; rewrite (wd_cd _ _ _ _ WD).
  destruct (relax_terminates max_rounds _ resolver_inv_init) as [order [Hrun Hinv]].
  - rewrite unconditional_first_filter; unfold pending0, snd.
    now rewrite length_map.
  - unfold max_rounds; lia.
  - exists order; split; [exact Hrun|].
    destruct Hinv as [Hperm _ Hplaced]; simpl in Hperm, Hplaced.
    rewrite app_nil_r in Hperm; split; [exact Hperm|].
    intros k v d Hv Hd; eapply placed_precedes; eauto.
    apply (Permutation_in _ (Permutation_sym Hperm)).
    apply (wd_declared _ _ _ _ WD); apply (in_map fst) in Hv; exact Hv.
Qed.
End ResolverFacts.

(** *** Checking a declaration by computation *)

Lemma distinct_keys_NoDup l : distinct_keys l = true -> NoDup l.
Proof.
  induction l as [|k l IH]; simpl; [constructor|].
  intros H; apply andb_true_iff in H as [Hk Hl].
  constructor; [|auto].
  apply key_in_not_In; now destruct (key_in k l).
Qed.

Lemma well_declaredb_sound {Family Spec} (self : ModelComponent Family Spec) cd :
  conditional_data self = Some cd ->
  well_declaredb self = true -> well_declared self cd.
Proof.
  unfold well_declaredb; intros Hcd; rewrite Hcd.
  rewrite !andb_true_iff; intros [[[H1 H2] H3] H4].
  constructor.
  - exact Hcd.
  - now apply distinct_keys_NoDup.
  - now apply distinct_keys_NoDup.
  - intros k Hk; rewrite forallb_forall in H3; apply key_in_In; auto.
  - intros k v d Hv Hd; rewrite forallb_forall in H4.
    specialize (H4 _ Hv); simpl in H4; rewrite forallb_forall in H4.
    apply key_in_In; auto.
Qed.

Lemma ranked_by_acyclic order cd : ranked_by order cd = true -> acyclic cd.
Proof.
  intros H k Hk.
  assert (Hlt : forall a b, clos_trans CoordKey (depends_on cd) a b ->
                            index_of b order < index_of a order).
  { induction 1 as [a b [v [d [Hv [Hd ->]]]] | a b c _ IH1 _ IH2]; [|lia].
    unfold ranked_by in H; rewrite forallb_forall in H.
    specialize (H _ Hv); simpl in H; rewrite forallb_forall in H.
    apply Nat.ltb_lt; auto. }
  specialize (Hlt _ _ Hk); lia.
Qed.

Lemma sample_order_topological_witness :
  exists order,
    _sample_order Examples.stream = Ok order /\
    Permutation order (keys (coord_distributions Examples.stream)) /\
    forall k v d, In (k, v) Examples.stream_cd -> In d (values v) ->
                  precedes (Single d) k order.
Proof.
  apply (sample_order_topological Examples.stream Examples.stream_cd).
  - apply well_declaredb_sound; reflexivity.
  - apply (ranked_by_acyclic [Single "phi1"; Single "phi2"; Single "pm1"]).
    reflexivity.
  - unfold max_rounds; simpl; lia.
Defined.

Example sample_order_stream :
  _sample_order Examples.stream = Ok [Single "phi1"; Single "phi2"; Single "pm1"].
Proof. reflexivity. Qed.

(** C1 as stated fails on an acyclic graph with 129 conditioned
    coordinates: the 128 rounds place 128 of them and the loop falls through
    to its [else]. *)
Lemma sample_order_budget_exhausted :
  well_declared (Examples.fan 129) (Examples.fan_cd 129) /\
  acyclic (Examples.fan_cd 129) /\
  _sample_order (Examples.fan 129)
  = Raise (ValueError "Circular dependency likely in conditional_data").
Proof.
  split; [|split].
  - apply well_declaredb_sound; [reflexivity | vm_compute; reflexivity].
  - apply (ranked_by_acyclic [Single "x"]); vm_compute; reflexivity.
  - vm_compute; reflexivity.
Qed.

Example sample_order_fan_128 :
  exists order, _sample_order (Examples.fan 128) = Ok order /\ length order = 129.
Proof. eexists; split; vm_compute; reflexivity. Qed.

(** A dependency on a member of a joint key is never satisfied: the order
    holds the tuple, not its members. *)
Example sample_order_joint_member :
  acyclic [(Single "pm1", [("x", "phi1")])] /\
  _sample_order Examples.joint_member
  = Raise (ValueError "Circular dependency likely in conditional_data").
Proof.
  split; [|vm_compute; reflexivity].
  apply (ranked_by_acyclic [Single "phi1"; Single "pm1"]); reflexivity.
Qed.

(** ** Construction *)

Section ConstructionFacts.
Context {Family Spec : Type}.
Implicit Types raw self : ModelComponent Family Spec.

(** What a successful [__post_init__] leaves in the derived fields. *)
Lemma post_init_fields raw self :
  __post_init__ raw = Ok self ->
  coord_distributions self = coord_distributions raw /\
  _coord_names self = Some (flatten_names (keys (coord_distributions raw))) /\
  exists x, default_x_coord self = Some x /\
    match default_x_coord raw with
    | Some x0 => x = x0
    | None => hd_error (flatten_names (keys (coord_distributions raw))) = Some x
    end.
Proof.
  unfold __post_init__.
  destruct (negb _); [discriminate|].
  destruct (default_x_coord raw) as [x0|] eqn:Edef; simpl.
  - destruct (find _ _); [discriminate|].
    intros [= <-]; simpl; eauto.
  - destruct (keys (coord_distributions raw)) as [|[s|[|s names]] ks] eqn:Eks;
      simpl; try discriminate;
      (destruct (find _ _); [discriminate|]);
      intros [= <-]; simpl; eauto.
Qed.

(** C6 (as amended): after construction, an omitted [default_x_coord] is
    the first of the component's coordinate names (the first key, or the
    first name of a first tuple key), and a supplied one is kept as it was
    given. *)
Theorem default_x_coord_after_init raw self :
  __post_init__ raw = Ok self ->
  exists x names,
    default_x_coord self = Some x /\ _coord_names self = Some names /\
    (default_x_coord raw = None -> hd_error names = Some x /\ In x names) /\
    (forall x0, default_x_coord raw = Some x0 -> x = x0).
Proof.
  intros H; destruct (post_init_fields _ _ H) as [_ [Hnames [x [Hx Hdef]]]].
  exists x, (flatten_names (keys (coord_distributions raw))).
  split; [assumption|]; split; [assumption|]; split.
  - intros Hnone; rewrite Hnone in Hdef; split; [exact Hdef|].
    destruct (flatten_names _); [discriminate|].
    injection Hdef as ->; now left.
  - intros x0 Hsome; rewrite Hsome in Hdef; exact Hdef.
Qed.

(** The pairs collected by [__post_init__]. *)
Lemma dependency_pairs_In ks cd coord arg src :
  In coord ks -> In (arg, src) (data_map_of cd coord) ->
  In (coord, src) (dependency_pairs ks cd).
Proof.
  intros Hk Hsrc; unfold dependency_pairs.
  apply in_flat_map; exists coord; split; [assumption|].
  apply in_map_iff; exists src; split; [reflexivity|].
  apply (in_map snd) in Hsrc; exact Hsrc.
Qed.

(** C9 (as amended): a declaration in which two single-name keys [A] and
    [B] of [coord_distributions] read each other is never constructed; once
    the key sets match and the default x coordinate resolves, the failure is
    the circular-dependency error. *)
Theorem two_cycle_rejected raw cd A B argA argB :
  conditional_data raw = Some cd ->
  In (Single A) (keys (coord_distributions raw)) ->
  In (Single B) (keys (coord_distributions raw)) ->
  In (argA, B) (data_map_of cd (Single A)) ->
  In (argB, A) (data_map_of cd (Single B)) ->
  (exists e, __post_init__ raw = Raise e) /\
  (same_key_set (keys (coord_distributions raw)) (keys (coord_parameters raw)) = true ->
   (default_x_coord raw = None ->
    hd_error (keys (coord_distributions raw)) <> Some (Joint [])) ->
   exists p, __post_init__ raw = Raise (ValueError (circular_msg p))).
Proof.
  intros Hcd HA HB HAB HBA.
  assert (Hfind : exists p,
    find (fun p => reversed_in p (dependency_pairs (keys (coord_distributions raw)) cd))
         (dependency_pairs (keys (coord_distributions raw)) cd) = Some p).
  { destruct (find _ _) as [p|] eqn:E; [eauto|exfalso].
    pose proof (dependency_pairs_In _ cd _ _ _ HA HAB) as H1.
    pose proof (dependency_pairs_In _ cd _ _ _ HB HBA) as H2.
    pose proof (find_none _ _ E _ H1) as Hno; simpl in Hno.
    unfold reversed_in in Hno.
    assert (Hyes : existsb
      (fun q => key_eqb (Single (snd (Single A, B))) (fst q)
                && key_eqb (fst (Single A, B)) (Single (snd q)))
      (dependency_pairs (keys (coord_distributions raw)) cd) = true).
    { apply existsb_exists; exists (Single B, A); split; [assumption|].
      simpl; now rewrite !key_eqb_refl. }
    congruence. }
  destruct Hfind as [p Hp].
  unfold __post_init__; rewrite Hcd.
  destruct (negb _) eqn:Eset; [split; [eauto | intros Hs; rewrite Hs in Eset; discriminate]|].
  destruct (default_x_coord raw) as [x0|]; simpl.
  - rewrite Hp; split; eauto.
  - destruct (keys (coord_distributions raw)) as [|[s|[|s names]] ks]; simpl in *.
    + contradiction.
    + rewrite Hp; split; eauto.
    + split; [eauto|]. intros _ Hd; exfalso; now apply Hd.
    + rewrite Hp; split; eauto.
Qed.

(** What the helper returns: a conditional argument whose source is missing
    from [data] is [None], and building the conditional data never raises
    on a constructed component. *)
Lemma make_conditional_data_missing_source {A : Type} self cd
    (data : dict CoordKey A) coord arg src :
  conditional_data self = Some cd ->
  In coord (keys (coord_distributions self)) ->
  get String.eqb arg (data_map_of cd coord) = Some src ->
  get key_eqb (Single src) data = None ->
  exists out kwargs,
    _make_conditional_data self data = Ok out /\
    get key_eqb coord out = Some kwargs /\
    get String.eqb arg kwargs = Some None.
Proof.
  intros Hcd Hk Harg Hmiss.
  unfold _make_conditional_data; rewrite Hcd.
  eexists; eexists; split; [reflexivity|]; split.
  - induction (keys (coord_distributions self)) as [|k ks IH]; [contradiction|].
    simpl; destruct (key_eqb coord k) eqn:E.
    + apply key_eqb_eq in E; subst k; reflexivity.
    + apply key_eqb_neq in E; destruct Hk as [?|Hk]; [congruence | auto].
  - induction (data_map_of cd coord) as [|[a s] m IH]; [discriminate|].
    simpl in *; destruct (String.eqb arg a).
    + injection Harg as ->; now rewrite Hmiss.
    + auto.
Qed.
End ConstructionFacts.

Lemma default_x_coord_after_init_witness :
  exists (x : string) (names : list string),
    default_x_coord Examples.joint_first = None /\
    hd_error names = Some x /\ In x names.
Proof.
  destruct (default_x_coord_after_init Examples.joint_first
              (mkComponent "bg"
                 [(Joint ["phi1"; "phi2"], tt); (Single "pm1", tt)]
                 [(Joint ["phi1"; "phi2"], []); (Single "pm1", [])]
                 (Some "phi1") (Some []) (Some ["phi1"; "phi2"; "pm1"]))
              eq_refl) as [x [names [_ [_ [H _]]]]].
  exists x, names; split; [reflexivity | exact (H eq_refl)].
Defined.

(** C6 as stated fails when the first key is a tuple: the default is then
    the first member of that joint key. *)
Lemma default_x_coord_in_joint_key :
  exists self,
    __post_init__ Examples.joint_first = Ok self /\
    default_x_coord self = Some "phi1" /\
    In (Joint ["phi1"; "phi2"]) (keys (coord_distributions self)) /\
    In "phi1" ["phi1"; "phi2"].
Proof.
  eexists; split; [reflexivity|].
  simpl; auto.
Qed.

Lemma two_cycle_rejected_witness :
  (exists e, __post_init__ Examples.two_cycle = Raise e) /\
  exists p, __post_init__ Examples.two_cycle = Raise (ValueError (circular_msg p)).
Proof.
  destruct (two_cycle_rejected Examples.two_cycle
              [(Single "phi1", [("x", "phi2")]); (Single "phi2", [("x", "phi1")])]
              "phi1" "phi2" "x" "x" eq_refl) as [H1 H2];
    simpl; auto.
  split; [exact H1|].
  apply H2; [reflexivity | discriminate].
Defined.

(** C9 as stated fails when one end of the cycle is modelled jointly: the
    reversed pair is compared with the stored pairs as a tuple, and a name
    never equals the tuple key that holds it. The component is constructed,
    and the cycle is met only when the sampling order is asked for. *)
Lemma two_cycle_through_joint_key_constructed :
  (exists self,
     __post_init__ Examples.joint_cycle = Ok self /\
     _sample_order self
     = Raise (ValueError "Circular dependency likely in conditional_data")) /\
  (exists self,
     __post_init__ Examples.member_cycle = Ok self /\
     _sample_order self
     = Raise (ValueError "Circular dependency likely in conditional_data")).
Proof.
  split; eexists; (split; [reflexivity|]); vm_compute; reflexivity.
Qed.

Example two_cycle_message :
  __post_init__ Examples.two_cycle
  = Raise (ValueError "Circular dependency: ('phi1', 'phi2')").
Proof. reflexivity. Qed.

Lemma make_conditional_data_missing_source_run :
  exists out kwargs,
    _make_conditional_data Examples.stream [(Single "phi1", 1%nat)] = Ok out /\
    get key_eqb (Single "pm1") out = Some kwargs /\
    get String.eqb "loc" kwargs = Some None.
Proof.
  apply (make_conditional_data_missing_source Examples.stream Examples.stream_cd
           [(Single "phi1", 1%nat)] (Single "pm1") "loc" "phi2");
    first [reflexivity | simpl; tauto].
Defined.

(** ** The truncated grid GMM: retained mass *)

Module TruncatedGridGMMFacts.
Import TruncatedGridGMM.
Open Scope R_scope.

Section Symmetric.
Variable Phi : R -> R.
Hypothesis Phi_symmetric : forall x, Phi (- x) = 1 - Phi x.

(** With [sign = 1] the bound is passed to the cdf unchanged. *)
Lemma tail_direct loc scale x :
  normal_cdf Phi loc scale (sub_from loc (scale_sign 1 (sub_from loc x)))
  = normal_cdf Phi loc scale x.
Proof.
  destruct x as [|r|]; simpl.
  - destruct (Rlt_dec 0 1); [reflexivity | lra].
  - f_equal; lra.
  - destruct (Rlt_dec 0 1); [reflexivity | lra].
Qed.

(** With [sign = -1] the bound is mirrored about the mean, which gives the
    complementary tail. *)
Lemma tail_mirrored loc scale x :
  normal_cdf Phi loc scale (sub_from loc (scale_sign (-1) (sub_from loc x)))
  = 1 - normal_cdf Phi loc scale x.
Proof.
  destruct x as [|r|]; simpl.
  - destruct (Rlt_dec 0 (-1)); [lra | simpl; lra].
  - rewrite <- Phi_symmetric; f_equal.
    unfold Rdiv; lra.
  - destruct (Rlt_dec 0 (-1)); [lra | simpl; lra].
Qed.

Lemma log_diff_term_retained loc scale low high :
  log_diff_term Phi loc scale low high = ln (retained_mass Phi loc scale low high).
Proof.
  unfold log_diff_term, retained_mass.
  destruct (ge_bound loc low).
  - rewrite !tail_direct; f_equal; lra.
  - rewrite !tail_mirrored; f_equal; lra.
Qed.

Lemma fold_left_sum (f : axis -> R) (l : list axis) (acc : R) :
  fold_left (fun acc a => acc + f a) l acc = acc + fold_right Rplus 0 (map f l).
Proof.
  revert acc; induction l as [|a l IH]; intros acc; simpl; [lra|].
  rewrite IH; lra.
Qed.

(** Every term of the loop is [log (cdf high - cdf low)] of its own cell,
    whichever sign the correction takes. *)
Lemma log_diff_tail_probs_per_axis locs scales low high :
  _log_diff_tail_probs Phi locs scales low high
  = map2 (fun locs_k scales_k => log_retained_mass Phi locs_k scales_k low high)
         locs scales.
Proof.
  unfold _log_diff_tail_probs, log_retained_mass.
  revert scales; induction locs as [|l locs IH]; intros [|s scales]; simpl;
    try reflexivity.
  rewrite IH; f_equal.
  rewrite fold_left_sum, Rplus_0_l.
  f_equal; apply map_ext; intros a; apply log_diff_term_retained.
Qed.
End Symmetric.

Lemma logistic_symmetric x : logistic (- x) = 1 - logistic x.
Proof.
  unfold logistic; rewrite Ropp_involutive, exp_Ropp.
  pose proof (exp_pos x) as Hx.
  field; split; lra.
Qed.

(** The two branches, on one axis: mean left of the interval, mean inside. *)
Example sign_branch_left :
  ge_bound 0 (Fin 1) = false /\ ge_bound 3 (Fin 1) = true.
Proof.
  simpl; split.
  - destruct (Rle_dec 1 0); [lra | reflexivity].
  - destruct (Rle_dec 1 3); [reflexivity | lra].
Qed.

Close Scope R_scope.
End TruncatedGridGMMFacts.

(** ** Sampling: the keys handed out *)

Module SamplingFacts.
Import Examples.

Example two_coords_constructed : __post_init__ two_coords_raw = Ok two_coords.
Proof. reflexivity. Qed.

Lemma random_split_NoDup key num : NoDup (random_split key num).
Proof.
  unfold random_split.
  apply Finite.Injective_map_NoDup; [|apply seq_NoDup].
  intros i j H; now injection H.
Qed.

(** C5 fails on a two-coordinate component with one drawable prior when no
    parameters are passed: the [seed] handler draws the prior with
    [split(key)[1]], and [split(key, 2)[1]] is then handed to the second
    coordinate. *)
Theorem sample_reuses_key :
  let run := sample draw0 dist_sample0 two_coords (RootKey 0) [100] None world0 in
  (exists samples, fst run = Ok samples) /\
  log (snd run)
  = [SiteDraw "bg:x:loc" (SplitKey (RootKey 0) 2 1);
     DistSample (Single "x") (SplitKey (RootKey 0) 2 0) [100] [];
     DistSample (Single "y") (SplitKey (RootKey 0) 2 1) [100] []] /\
  ~ NoDup (flat_map (fun ev => match consumed_key ev with
                               | Some k => [k]
                               | None => []
                               end) (log (snd run))).
Proof.
  assert (Hlog :
    log (snd (sample draw0 dist_sample0 two_coords (RootKey 0) [100] None world0))
    = [SiteDraw "bg:x:loc" (SplitKey (RootKey 0) 2 1);
       DistSample (Single "x") (SplitKey (RootKey 0) 2 0) [100] [];
       DistSample (Single "y") (SplitKey (RootKey 0) 2 1) [100] []])
    by reflexivity.
  cbv zeta; split; [eexists; reflexivity|]; split; [exact Hlog|].
  rewrite Hlog; simpl.
  intros H; inversion_clear H as [|? ? Hnotin _].
  apply Hnotin; simpl; auto.
Qed.

(** With the parameters supplied nothing is drawn from a prior, and the
    coordinates receive distinct keys. *)
Example sample_with_pars :
  log (snd (sample draw0 dist_sample0 two_coords (RootKey 0) [100]
              (Some [(Single "x", [("loc", [0%R])])]) world0))
  = [DistSample (Single "x") (SplitKey (RootKey 0) 2 0) [100] [];
     DistSample (Single "y") (SplitKey (RootKey 0) 2 1) [100] []].
Proof. reflexivity. Qed.

End SamplingFacts.

(** ** Arrays: bin centres *)

Section ArrayFacts.
Open Scope R_scope.

Lemma centers_cons2 a b t : centers (a :: b :: t) = midpoint a b :: centers (b :: t).
Proof. reflexivity. Qed.

Lemma centers2_rows r1 r2 m :
  centers2 (r1 :: r2 :: m) = map2 midpoint (removelast r1) (tl r2) :: centers2 (r2 :: m).
Proof. reflexivity. Qed.

Lemma constant_rows_centers y1 y2 (ga : list R) :
  map2 midpoint (removelast (map (fun _ => y1) ga)) (tl (map (fun _ => y2) ga))
  = map (fun _ => midpoint y1 y2) (centers ga).
Proof.
  induction ga as [|a1 ga IH]; [reflexivity|].
  destruct ga as [|a2 t]; [reflexivity|].
  rewrite centers_cons2.
  change (map2 midpoint (removelast (map (fun _ => y1) (a1 :: a2 :: t)))
                        (tl (map (fun _ => y2) (a1 :: a2 :: t))))
    with (midpoint y1 y2 ::
          map2 midpoint (removelast (map (fun _ => y1) (a2 :: t)))
                        (tl (map (fun _ => y2) (a2 :: t)))).
  rewrite IH; reflexivity.
Qed.

(** The first mesh of [meshgrid], sliced and averaged along its diagonal,
    holds the bin centres of the first grid in every row. *)
Lemma centers2_mesh_x ga gb :
  centers2 (fst (meshgrid ga gb)) = center_mesh_x ga gb.
Proof.
  unfold meshgrid, center_mesh_x; simpl fst.
  induction gb as [|b1 gb IH]; [reflexivity|].
  destruct gb as [|b2 t]; [reflexivity|].
  rewrite centers_cons2.
  change (map (fun _ => ga) (b1 :: b2 :: t))
    with (ga :: ga :: map (fun _ : R => ga) t).
  rewrite centers2_rows.
  change (ga :: map (fun _ : R => ga) t) with (map (fun _ : R => ga) (b2 :: t)).
  rewrite IH; reflexivity.
Qed.

(** The second mesh holds the bin centre of the second grid along every
    row. *)
Lemma centers2_mesh_y ga gb :
  centers2 (snd (meshgrid ga gb)) = center_mesh_y ga gb.
Proof.
  unfold meshgrid, center_mesh_y; simpl snd.
  induction gb as [|b1 gb IH]; [reflexivity|].
  destruct gb as [|b2 t]; [reflexivity|].
  rewrite centers_cons2.
  change (map (fun y => map (fun _ : R => y) ga) (b1 :: b2 :: t))
    with (map (fun _ : R => b1) ga :: map (fun _ : R => b2) ga ::
          map (fun y => map (fun _ : R => y) ga) t).
  rewrite centers2_rows, constant_rows_centers.
  change (map (fun _ : R => b2) ga :: map (fun y => map (fun _ : R => y) ga) t)
    with (map (fun y => map (fun _ : R => y) ga) (b2 :: t)).
  rewrite IH; reflexivity.
Qed.

Lemma pair_with_constant (l : list R) (cy : R) :
  map2 (@pair R R) l (map (fun _ => cy) l) = map (fun cx => (cx, cy)) l.
Proof. induction l as [|cx l IH]; simpl; [reflexivity | now rewrite IH]. Qed.

Lemma stack_center_meshes ga gb :
  stack_last (center_mesh_x ga gb) (center_mesh_y ga gb) = center_points ga gb.
Proof.
  unfold stack_last, center_mesh_x, center_mesh_y, center_points.
  induction (centers gb) as [|cy l IH]; [reflexivity|].
  simpl; now rewrite IH, pair_with_constant.
Qed.

Lemma increasing_head_lt a t e : increasing (a :: t) -> In e t -> a < e.
Proof.
  revert a; induction t as [|b t IH]; intros a Hinc Hin; [contradiction|].
  destruct Hinc as [Hab Hinc]; destruct Hin as [<- | Hin]; [assumption|].
  specialize (IH _ Hinc Hin); lra.
Qed.

Lemma increasing_centers_gt a t c : increasing (a :: t) -> In c (centers (a :: t)) -> a < c.
Proof.
  revert a; induction t as [|b t IH]; intros a Hinc Hin; [contradiction|].
  destruct Hinc as [Hab Hinc]; rewrite centers_cons2 in Hin.
  destruct Hin as [<- | Hin]; [unfold midpoint; lra|].
  specialize (IH _ Hinc Hin); lra.
Qed.

(** A bin centre of strictly increasing edges is none of the edges. *)
Lemma centers_off_edges g c : increasing g -> In c (centers g) -> ~ In c g.
Proof.
  induction g as [|a t IH]; intros Hinc Hin; [contradiction|].
  destruct t as [|b t]; [contradiction|].
  pose proof Hinc as [Hab Hinc'].
  rewrite centers_cons2 in Hin; destruct Hin as [<- | Hin].
  - intros [Ha | [Hb | Ht]]; unfold midpoint in *; try lra.
    pose proof (increasing_head_lt _ _ _ Hinc' Ht); lra.
  - intros [Ha | Hrest].
    + pose proof (increasing_centers_gt _ _ _ Hinc' Hin); lra.
    + exact (IH Hinc' Hin Hrest).
Qed.

Close Scope R_scope.
End ArrayFacts.

(** ** The call log *)

Section MonadFacts.
Context {A B : Type}.
Variable P : event -> Prop.

Lemma emits_ret (a : A) : emits P (ret a).
Proof. intros w; exists []; simpl; rewrite app_nil_r; auto. Qed.

Lemma emits_raise (e : exn) : emits P (@raise A e).
Proof. intros w; exists []; simpl; rewrite app_nil_r; auto. Qed.

Lemma emits_lift (r : result A) : emits P (lift r).
Proof. intros w; exists []; simpl; rewrite app_nil_r; auto. Qed.

Lemma emits_bind (m : M A) (f : A -> M B) :
  emits P m -> (forall a, emits P (f a)) -> emits P (mbind m f).
Proof.
  intros Hm Hf w; unfold mbind.
  destruct (Hm w) as [evs1 [Hlog1 HP1]].
  destruct (m w) as [[a|e] w1]; simpl in Hlog1.
  - destruct (Hf a w1) as [evs2 [Hlog2 HP2]].
    exists (evs1 ++ evs2); split.
    + now rewrite Hlog2, Hlog1, app_assoc.
    + apply Forall_app; auto.
  - exists evs1; auto.
Qed.

Lemma emits_bind_lift (r : result A) (f : A -> M B) :
  (forall a, r = Ok a -> emits P (f a)) -> emits P (mbind (lift r) f).
Proof.
  intros Hf; destruct r as [a|e].
  - intros w; unfold mbind, lift; apply (Hf a eq_refl).
  - intros w; exists []; simpl; rewrite app_nil_r; auto.
Qed.

Lemma emits_seed (m : M A) key : emits P m -> emits P (seed m key).
Proof.
  intros Hm w; unfold seed.
  destruct (Hm (mkWorld (Some key) (log w))) as [evs [Hlog HP]].
  destruct (m _) as [r w']; simpl in *; eauto.
Qed.
End MonadFacts.

Lemma emits_emit (P : event -> Prop) ev : P ev -> emits P (emit ev).
Proof. intros H w; exists [ev]; simpl; auto. Qed.

Lemma mbind_ok {A B : Type} (m : M A) (f : A -> M B) w b w' :
  mbind m f w = (Ok b, w') ->
  exists a w1, m w = (Ok a, w1) /\ f a w1 = (Ok b, w').
Proof.
  unfold mbind; destruct (m w) as [[a|e] w1]; [eauto | discriminate].
Qed.

Lemma getitem_In {V : Type} k (d : dict CoordKey V) v : getitem k d = Ok v -> In (k, v) d.
Proof.
  unfold getitem; destruct (get key_eqb k d) eqn:E; [|discriminate].
  intros [= <-]; now apply get_Some_In.
Qed.

Lemma set_In {K V : Type} (eqb : K -> K -> bool) k v (d : dict K V) x :
  In x (set eqb k v d) -> snd x = v \/ In x d.
Proof.
  induction d as [|[k' v'] d IH]; simpl.
  - intros [<- | []]; now left.
  - destruct (eqb k k'); simpl.
    + intros [<- | H]; [now left | right; now right].
    + intros [<- | H]; [right; now left|].
      destruct (IH H); [now left | right; now right].
Qed.

(** ** Grid evaluation *)

Section EvaluationFacts.
Context {Value Prior Dist : Type}.
Variable draw : Prior -> PRNGKey -> Value.
Variable log_prob : Dist -> ndarray -> Kwargs -> ndarray.
Variable ln_simpson : ndarray -> ndarray -> ndarray.
Variable nd_add : ndarray -> ndarray -> ndarray.
Implicit Types (self : Component Value Prior Dist) (grids : Grids).

(** *** What [make_dists] asks of the substrate *)

Section Draws.
Variable P : event -> Prop.
Hypothesis P_draw : forall site key, P (SiteDraw site key).

Lemma numpyro_sample_emits site prior : emits P (numpyro_sample draw site prior).
Proof.
  intros w; unfold numpyro_sample; destruct (rng w); simpl.
  - eexists; split; [reflexivity | auto].
  - exists []; rewrite app_nil_r; auto.
Qed.

Lemma resolve_arg_emits self_name pars coord_name arg spec :
  emits P (resolve_arg draw self_name pars coord_name arg spec).
Proof.
  unfold resolve_arg.
  destruct spec as [val | wrapper val]; (apply emits_bind; [|intros; apply emits_ret]);
    (destruct (get String.eqb arg _); [apply emits_ret|]);
    destruct val; first [apply emits_ret | apply numpyro_sample_emits].
Qed.

Lemma resolve_args_emits self_name pars coord_name specs kwargs :
  emits P (resolve_args draw self_name pars coord_name specs kwargs).
Proof.
  revert kwargs; induction specs as [|[arg spec] specs IH]; intros kwargs; simpl.
  - apply emits_ret.
  - apply emits_bind; [apply resolve_arg_emits | intros; apply IH].
Qed.

Lemma make_dists_emits self pars : emits P (make_dists draw self pars).
Proof.
  unfold make_dists; generalize (@nil (CoordKey * Dist)) as dists.
  induction (coord_distributions self) as [|[coord_name Distribution] items IH];
    intros dists; simpl.
  - apply emits_ret.
  - apply emits_bind; [apply resolve_args_emits | intros; apply IH].
Qed.
End Draws.

(** *** The meshes *)

Lemma get_grids_2d_meshes grids pairs :
  forall acc grids_2d,
  meshes_of grids acc ->
  _get_grids_2d grids pairs acc = Ok grids_2d ->
  meshes_of grids grids_2d.
Proof.
  induction pairs as [|p pairs IH]; intros acc grids_2d Hacc; simpl.
  - now intros [= <-].
  - destruct (get String.eqb (fst p) grids) as [ga|] eqn:Ea; [|discriminate].
    destruct (get String.eqb (snd p) grids) as [gb|] eqn:Eb; [|discriminate].
    intros Hrun; eapply IH; [|exact Hrun].
    intros k mesh Hin.
    apply set_In in Hin as [Hnew | Hold]; [|exact (Hacc k mesh Hold)].
    simpl in Hnew; subst mesh; exists (fst p), (snd p), ga, gb; auto.
Qed.

Lemma get_grids_2d_missing grids pairs :
  forall acc,
  (exists p, In p pairs /\
     (get String.eqb (fst p) grids = None \/ get String.eqb (snd p) grids = None)) ->
  exists msg, _get_grids_2d grids pairs acc = Raise (ValueError msg).
Proof.
  induction pairs as [|q pairs IH]; intros acc [p [Hin Hmiss]]; [contradiction|].
  simpl.
  destruct (get String.eqb (fst q) grids) as [ga|] eqn:Ea; [|eauto].
  destruct (get String.eqb (snd q) grids) as [gb|] eqn:Eb; [|eauto].
  apply IH; destruct Hin as [-> | Hin]; [|eauto].
  destruct Hmiss; congruence.
Qed.

(** *** The log-density calls *)

Lemma call_log_prob_emits grids dists conditional coord x :
  at_bin_centers grids x ->
  emits (log_prob_at_centers grids) (call_log_prob log_prob dists conditional coord x).
Proof.
  intros Hx; unfold call_log_prob.
  apply emits_bind_lift; intros d _.
  apply emits_bind_lift; intros kwargs _.
  apply emits_bind; [now apply emits_emit | intros; apply emits_ret].
Qed.

Lemma mesh_points_at_centers grids ga gb a b :
  get String.eqb a grids = Some ga -> get String.eqb b grids = Some gb ->
  at_bin_centers grids
    (Pts (stack_last (centers2 (fst (meshgrid ga gb))) (centers2 (snd (meshgrid ga gb)))))
  /\ at_bin_centers grids (Mat (centers2 (snd (meshgrid ga gb)))).
Proof.
  intros Ha Hb.
  rewrite centers2_mesh_x, centers2_mesh_y, stack_center_meshes.
  split; exists a, b, ga, gb; auto.
Qed.

Lemma evaluate_pairs_emits grids self dists conditional grids_2d ln_p_x pairs :
  meshes_of grids grids_2d ->
  forall evals,
  emits (log_prob_at_centers grids)
        (evaluate_pairs log_prob nd_add self dists conditional grids_2d ln_p_x pairs evals).
Proof.
  intros Hmesh; induction pairs as [|p pairs IH]; intros evals; simpl.
  - apply emits_ret.
  - apply emits_bind_lift; intros mesh Hget.
    destruct (Hmesh _ _ (getitem_In _ _ _ Hget)) as [a [b [ga [gb [Ha [Hb ->]]]]]].
    destruct (mesh_points_at_centers grids ga gb a b Ha Hb) as [Hpts Hmat].
    apply emits_bind; [|intros; apply IH].
    destruct (mem key_eqb (pair_key p) (coord_distributions self)).
    + now apply call_log_prob_emits.
    + apply emits_bind; [now apply call_log_prob_emits | intros; apply emits_ret].
Qed.

(** C7: every [log_prob] call of [evaluate_on_2d_grids], on the
    marginalisation path and on the per-pair path, is made at the bin
    centres of the supplied edge grids; a bin centre of strictly increasing
    edges is none of the edges. *)
Theorem evaluated_at_bin_centers self pars grids grid_coord_names x_coord_name w :
  exists evs,
    log (snd (evaluate_on_2d_grids draw log_prob ln_simpson nd_add self pars grids
                grid_coord_names x_coord_name w)) = log w ++ evs /\
    (forall coord x kwargs,
       In (LogProb coord x kwargs) evs -> at_bin_centers grids x) /\
    (forall name g c,
       get String.eqb name grids = Some g -> increasing g ->
       In c (centers g) -> ~ In c g).
Proof.
  assert (Hemits : emits (log_prob_at_centers grids)
            (evaluate_on_2d_grids draw log_prob ln_simpson nd_add self pars grids
               grid_coord_names x_coord_name)).
  { unfold evaluate_on_2d_grids.
    apply emits_bind_lift; intros [x pairs] _; simpl fst; simpl snd.
    apply emits_bind_lift; intros grids_2d Hg2.
    assert (Hmesh : meshes_of grids grids_2d).
    { eapply get_grids_2d_meshes; [|exact Hg2]. intros k mesh []. }
    apply emits_bind_lift; intros conditional _.
    apply emits_bind; [apply make_dists_emits; intros; exact I|]; intros dists.
    apply emits_bind.
    - destruct (negb _).
      + apply emits_bind_lift; intros xj _.
        apply emits_bind_lift; intros mesh Hget.
        destruct (Hmesh _ _ (getitem_In _ _ _ Hget)) as [a [b [ga [gb [Ha [Hb ->]]]]]].
        destruct (mesh_points_at_centers grids ga gb a b Ha Hb) as [Hpts _].
        apply emits_bind; [now apply call_log_prob_emits|]; intros ln_p.
        apply emits_bind; [apply emits_emit; exact I | intros; apply emits_ret].
      + apply emits_bind_lift; intros grid Hgrid.
        apply call_log_prob_emits; simpl.
        exists x, grid; split; [|reflexivity].
        destruct (get String.eqb x grids); congruence.
    - intros ln_p_x; apply emits_bind; [|intros; apply emits_ret].
      now apply evaluate_pairs_emits. }
  destruct (Hemits w) as [evs [Hlog HP]].
  exists evs; split; [exact Hlog|]; split.
  - intros coord x kwargs Hin.
    rewrite Forall_forall in HP; exact (HP _ Hin).
  - intros name g c _; apply centers_off_edges.
Qed.

(** *** The checks at the head of the evaluation *)

Lemma validate_request_raises self grid_coord_names x_coord_name names x e :
  _coord_names self = Some names ->
  match x_coord_name with None => default_x_coord self | Some x => Some x end = Some x ->
  validate_request self grid_coord_names x_coord_name = Raise e ->
  exists msg, e = ValueError msg.
Proof.
  intros Hnames Hx; unfold validate_request; rewrite Hnames, Hx.
  destruct (negb (str_in x names)); [intros [= <-]; eauto|].
  destruct (find _ _); [intros [= <-]; eauto|].
  destruct (find _ _); [intros [= <-]; eauto | discriminate].
Qed.

Lemma validate_request_accepts self pairs x_coord_name names x request :
  _coord_names self = Some names ->
  match x_coord_name with None => default_x_coord self | Some x => Some x end = Some x ->
  validate_request self (Some pairs) x_coord_name = Ok request ->
  request = (x, pairs) /\ In x names /\
  (forall p, In p pairs -> fst p = x) /\
  (forall p, In p pairs -> In (fst p) names /\ In (snd p) names).
Proof.
  intros Hnames Hx; unfold validate_request; rewrite Hnames, Hx.
  destruct (str_in x names) eqn:Ex; simpl; [|discriminate].
  destruct (find _ pairs) eqn:E1; [discriminate|].
  destruct (find _ (flat_map _ pairs)) eqn:E2; [discriminate|].
  intros [= <-]; split; [reflexivity|]; split; [now apply str_in_In|]; split.
  - intros p Hp; pose proof (find_none _ _ E1 _ Hp) as H; simpl in H.
    apply negb_false_iff, String.eqb_eq in H; exact H.
  - intros p Hp.
    assert (Hn : forall n, In n [fst p; snd p] -> In n names).
    { intros n Hn; apply str_in_In.
      assert (Hin : In n (flat_map (fun q : string * string => [fst q; snd q]) pairs))
        by (apply in_flat_map; eauto).
      pose proof (find_none _ _ E2 _ Hin) as H; simpl in H.
      now apply negb_false_iff in H. }
    split; apply Hn; simpl; auto.
Qed.

(** C8: a requested pair whose first coordinate is not the x coordinate, or
    a requested name that is not a coordinate of the model (or has no 1-D
    grid), makes [evaluate_on_2d_grids] raise [ValueError] with nothing
    drawn, evaluated or integrated. *)
Theorem invalid_request_rejected self pars grids pairs x_coord_name x names w :
  _coord_names self = Some names ->
  match x_coord_name with None => default_x_coord self | Some x => Some x end = Some x ->
  (~ In x names \/
   (exists p, In p pairs /\ fst p <> x) \/
   (exists p, In p pairs /\ (~ In (fst p) names \/ ~ In (snd p) names)) \/
   (exists p, In p pairs /\
      (get String.eqb (fst p) grids = None \/ get String.eqb (snd p) grids = None))) ->
  exists msg,
    evaluate_on_2d_grids draw log_prob ln_simpson nd_add self pars grids
      (Some pairs) x_coord_name w
    = (Raise (ValueError msg), w).
Proof.
  intros Hnames Hx Hbad.
  unfold evaluate_on_2d_grids, mbind at 1, lift at 1.
  destruct (validate_request self (Some pairs) x_coord_name) as [request|e] eqn:Ev.
  - destruct (validate_request_accepts _ _ _ _ _ _ Hnames Hx Ev)
      as [-> [Hxin [Hfst Hall]]].
    destruct Hbad as [Hbad | [[p [Hp Hbad]] | [[p [Hp Hbad]] | Hbad]]].
    + contradiction.
    + exfalso; apply Hbad; auto.
    + exfalso; destruct (Hall _ Hp); tauto.
    + destruct (get_grids_2d_missing grids pairs [] Hbad) as [msg Hmsg].
      exists msg; unfold mbind, lift; simpl fst; simpl snd; now rewrite Hmsg.
  - destruct (validate_request_raises _ _ _ _ _ _ Hnames Hx Ev) as [msg ->].
    eauto.
Qed.
End EvaluationFacts.

(** ** Mixtures: the weighted log-sum-exp *)

Lemma map2_map_map {I A B C : Type} (g : A -> B -> C) (a : I -> A) (b : I -> B)
    (l : list I) :
  map2 g (map a l) (map b l) = map (fun i => g (a i) (b i)) l.
Proof. induction l as [|i l IH]; simpl; [reflexivity | now rewrite IH]. Qed.

Section TransposeFacts.
Context {I1 I2 A : Type}.

(** Transposing a table swaps its two index lists. *)
Lemma transpose_table (f : I1 -> I2 -> A) (rows : list I1) (cols : list I2) :
  rows <> [] ->
  transpose (map (fun i => map (f i) cols) rows)
  = map (fun j => map (fun i => f i j) rows) cols.
Proof.
  induction rows as [|i rows IH]; intros Hne; [congruence|].
  destruct rows as [|i' rows].
  - simpl; rewrite map_map; reflexivity.
  - change (transpose (map (fun i0 => map (f i0) cols) (i :: i' :: rows)))
      with (map2 cons (map (f i) cols)
                 (transpose (map (fun i0 => map (f i0) cols) (i' :: rows)))).
    rewrite IH by discriminate.
    apply (map2_map_map cons (f i) (fun j => map (fun i0 => f i0 j) (i' :: rows))).
Qed.
End TransposeFacts.

Lemma transpose3_table {I1 I2 I3 A : Type} (f : I1 -> I2 -> I3 -> A)
    (l1 : list I1) (l2 : list I2) (l3 : list I3) :
  l1 <> [] -> l2 <> [] ->
  transpose3 (map (fun k => map (fun i => map (f k i) l3) l2) l1)
  = map (fun j => map (fun i => map (fun k => f k i j) l1) l2) l3.
Proof.
  intros H1 H2; unfold transpose3.
  rewrite map_map.
  rewrite (map_ext _ (fun k => map (fun j => map (fun i => f k i j) l2) l3));
    [|intros k; apply (transpose_table (f k)); assumption].
  rewrite (transpose_table (fun k j => map (fun i => f k i j) l2)) by assumption.
  rewrite map_map; apply map_ext; intros j.
  apply (transpose_table (fun k i => f k i j)); assumption.
Qed.

Lemma traverse_map_ok {I A B : Type} (f : A -> result B) (g : I -> A) (h : I -> B)
    (l : list I) :
  (forall x, In x l -> f (g x) = Ok (h x)) ->
  traverse f (map g l) = Ok (map h l).
Proof.
  induction l as [|x l IH]; intros H; simpl; [reflexivity|].
  rewrite (H x (or_introl eq_refl)); simpl.
  rewrite IH; [reflexivity | intros; apply H; now right].
Qed.

(** A list is the table of its entries. *)
Lemma list_as_table {A : Type} (l : list A) (d : A) :
  l = map (fun i => nth i l d) (seq 0 (length l)).
Proof.
  induction l as [|a l IH]; [reflexivity|].
  simpl; f_equal.
  rewrite <- seq_shift, map_map; exact IH.
Qed.

Lemma rect_as_table {A : Type} n1 n2 (m : list (list A)) (d : A) :
  rect n1 n2 m ->
  m = map (fun i => map (fun j => nth j (nth i m []) d) (seq 0 n2)) (seq 0 n1).
Proof.
  intros [Hrows Hcols].
  rewrite (list_as_table m []) at 1; rewrite Hrows.
  apply map_ext_in; intros i Hi; apply in_seq in Hi.
  assert (Hlen : length (nth i m []) = n2).
  { rewrite Forall_forall in Hcols; apply Hcols, nth_In; lia. }
  rewrite (list_as_table (nth i m []) d) at 1; now rewrite Hlen.
Qed.

Lemma rectb_rect {A : Type} n1 n2 (m : list (list A)) :
  rect n1 n2 m -> rectb n1 n2 m = true.
Proof.
  intros [Hrows Hcols]; unfold rectb.
  apply andb_true_iff; split; [now apply Nat.eqb_eq|].
  apply forallb_forall; intros row Hrow; apply Nat.eqb_eq.
  rewrite Forall_forall in Hcols; auto.
Qed.

Lemma table_rect {I1 I2 A : Type} (f : I1 -> I2 -> A) (rows : list I1) (cols : list I2) :
  rect (length rows) (length cols) (map (fun i => map (f i) cols) rows).
Proof.
  split; [apply length_map|].
  apply Forall_forall; intros row Hrow.
  apply in_map_iff in Hrow as [i [<- _]]; apply length_map.
Qed.

(** [jnp.array] accepts surfaces of one shape. *)
Lemma jnp_array_tables {I1 : Type} (f : I1 -> nat -> nat -> R) (l1 : list I1) n1 n2 :
  0 < n1 ->
  jnp_array (map (fun k => Mat (map (fun i => map (f k i) (seq 0 n2)) (seq 0 n1))) l1)
  = Ok (map (fun k => map (fun i => map (f k i) (seq 0 n2)) (seq 0 n1)) l1).
Proof.
  intros Hn1; destruct l1 as [|k0 l1]; [reflexivity|].
  unfold jnp_array.
  change (map (fun k => Mat (map (fun i => map (f k i) (seq 0 n2)) (seq 0 n1))) (k0 :: l1))
    with (Mat (map (fun i => map (f k0 i) (seq 0 n2)) (seq 0 n1)) ::
          map (fun k => Mat (map (fun i => map (f k i) (seq 0 n2)) (seq 0 n1))) l1).
  cbv iota beta.
  change (Mat (map (fun i => map (f k0 i) (seq 0 n2)) (seq 0 n1)) ::
          map (fun k => Mat (map (fun i => map (f k i) (seq 0 n2)) (seq 0 n1))) l1)
    with (map (fun k => Mat (map (fun i => map (f k i) (seq 0 n2)) (seq 0 n1))) (k0 :: l1)).
  apply traverse_map_ok; intros k _.
  rewrite rectb_rect; [reflexivity|].
  replace (length (map (fun i => map (f k0 i) (seq 0 n2)) (seq 0 n1))) with (length (seq 0 n1))
    by (symmetry; apply length_map).
  replace (length (hd [] (map (fun i => map (f k0 i) (seq 0 n2)) (seq 0 n1))))
    with (length (seq 0 n2)).
  - apply table_rect.
  - destruct n1 as [|n1]; [lia|]; simpl; symmetry; apply length_map.
Qed.

Lemma logsumexp_same_length (a b : list R) :
  length a = length b ->
  logsumexp a b = Ok (ln (sum_R (map (fun p => (snd p * exp (fst p))%R) (combine a b)))).
Proof.
  intros Hlen; unfold logsumexp, broadcast_pairs.
  apply Nat.eqb_eq in Hlen; rewrite Hlen; reflexivity.
Qed.

(** [combine_terms] on same-shaped surfaces: the reduction runs over the
    component axis at every grid point. *)
Lemma combine_terms_tables {I1 : Type} (f : I1 -> nat -> nat -> R) (l1 : list I1)
    (b : list R) n1 n2 :
  l1 <> [] -> 0 < n1 -> 0 < n2 -> length b = length l1 ->
  combine_terms
    (map (fun k => Mat (map (fun i => map (f k i) (seq 0 n2)) (seq 0 n1))) l1) b
  = Ok (Mat (map (fun i =>
               map (fun j =>
                      ln (sum_R (map (fun p => (snd p * exp (fst p))%R)
                                     (combine (map (fun k => f k i j) l1) b))))
                   (seq 0 n2))
             (seq 0 n1))).
Proof.
  intros Hl1 Hn1 Hn2 Hb; unfold combine_terms.
  rewrite jnp_array_tables by assumption; simpl bind.
  rewrite (transpose3_table f l1 (seq 0 n1) (seq 0 n2)); [|assumption|].
  2:{ destruct n1; [lia | discriminate]. }
  rewrite (traverse_map_ok _ _
             (fun j => map (fun i =>
                ln (sum_R (map (fun p => (snd p * exp (fst p))%R)
                               (combine (map (fun k => f k i j) l1) b))))
                (seq 0 n1))).
  - simpl bind; do 2 f_equal.
    apply (transpose_table
             (fun j i => ln (sum_R (map (fun p => (snd p * exp (fst p))%R)
                                        (combine (map (fun k => f k i j) l1) b))))).
    destruct n2; [lia | discriminate].
  - intros j _; apply traverse_map_ok; intros i _.
    apply logsumexp_same_length; now rewrite length_map.
Qed.

Section TermFacts.
Context {V : Type}.
Implicit Types (d : dict CoordKey V) (k : CoordKey).

Lemma get_app_absent k d1 d2 :
  ~ In k (keys d1) -> get key_eqb k (d1 ++ d2) = get key_eqb k d2.
Proof.
  induction d1 as [|[k' v'] d1 IH]; simpl; [reflexivity|].
  intros H; destruct (key_eqb k k') eqn:E.
  - apply key_eqb_eq in E; subst; tauto.
  - apply IH; tauto.
Qed.

Lemma set_app_absent k v d1 d2 :
  ~ In k (keys d1) -> set key_eqb k v (d1 ++ d2) = d1 ++ set key_eqb k v d2.
Proof.
  induction d1 as [|[k' v'] d1 IH]; simpl; [reflexivity|].
  intros H; destruct (key_eqb k k') eqn:E.
  - apply key_eqb_eq in E; subst; tauto.
  - rewrite IH; tauto.
Qed.

Lemma keys_table (h : CoordKey -> V) ks : keys (map (fun k => (k, h k)) ks) = ks.
Proof. unfold keys; rewrite map_map; simpl; apply map_id. Qed.

Lemma get_table (h : CoordKey -> V) ks k :
  In k ks -> get key_eqb k (map (fun k => (k, h k)) ks) = Some (h k).
Proof.
  induction ks as [|k' ks IH]; simpl; [tauto|].
  destruct (key_eqb k k') eqn:E.
  - apply key_eqb_eq in E; now subst.
  - apply key_eqb_neq in E; intros [?|?]; [congruence | auto].
Qed.

(** A dict is the table of its values over its keys. *)
Lemma dict_as_table d (dflt : V) :
  NoDup (keys d) ->
  d = map (fun k => (k, match get key_eqb k d with Some v => v | None => dflt end))
          (keys d).
Proof.
  induction d as [|[k v] d IH]; simpl; [reflexivity|].
  intros Hnd; inversion_clear Hnd as [|? ? Hnotin Hnd'].
  rewrite key_eqb_refl; f_equal.
  rewrite (IH Hnd') at 1.
  unfold keys; rewrite !map_map; apply map_ext_in; intros [k' v'] Hin; simpl.
  destruct (key_eqb k' k) eqn:E; [|reflexivity].
  apply key_eqb_eq in E; subst k'.
  exfalso; apply Hnotin; apply (in_map fst) in Hin; exact Hin.
Qed.
End TermFacts.

Section AppendFacts.
Variable f : CoordKey -> ndarray.

Let step (t : dict CoordKey (list ndarray)) (kv : CoordKey * ndarray) :=
  set key_eqb (fst kv)
      (match get key_eqb (fst kv) t with Some l => l | None => [] end ++ [snd kv]) t.

Lemma append_first_fold todo :
  forall done, NoDup (done ++ todo) ->
  fold_left step (map (fun k => (k, f k)) todo) (map (fun k => (k, [f k])) done)
  = map (fun k => (k, [f k])) (done ++ todo).
Proof.
  induction todo as [|k todo IH]; intros done Hnd; simpl.
  - now rewrite app_nil_r.
  - assert (Hk : ~ In k done).
    { intros Hin; apply NoDup_remove_2 in Hnd; apply Hnd, in_or_app; now left. }
    unfold step at 2; simpl fst; simpl snd.
    replace (map (fun k0 => (k0, [f k0])) done)
      with (map (fun k0 => (k0, [f k0])) done ++ []) at 1 2 by apply app_nil_r.
    rewrite get_app_absent, set_app_absent by (now rewrite keys_table).
    simpl.
    change [(k, [f k])] with (map (fun k0 => (k0, [f k0])) [k]).
    rewrite <- map_app, IH; rewrite <- app_assoc; [reflexivity | exact Hnd].
Qed.

(** The first component creates one list per key. *)
Lemma append_terms_first ks :
  NoDup ks ->
  Mixture.append_terms [] (map (fun k => (k, f k)) ks) = map (fun k => (k, [f k])) ks.
Proof. intros Hnd; exact (append_first_fold ks [] Hnd). Qed.

Variable g : CoordKey -> list ndarray.

Lemma append_next_fold todo :
  forall done, NoDup (done ++ todo) ->
  fold_left step (map (fun k => (k, f k)) todo)
            (map (fun k => (k, g k ++ [f k])) done ++ map (fun k => (k, g k)) todo)
  = map (fun k => (k, g k ++ [f k])) (done ++ todo).
Proof.
  induction todo as [|k todo IH]; intros done Hnd; simpl.
  - now rewrite !app_nil_r.
  - assert (Hk : ~ In k done).
    { intros Hin; apply NoDup_remove_2 in Hnd; apply Hnd, in_or_app; now left. }
    unfold step at 2; simpl fst; simpl snd.
    rewrite get_app_absent, set_app_absent by (now rewrite keys_table).
    simpl; rewrite key_eqb_refl.
    specialize (IH (done ++ [k])).
    rewrite map_app, <- !app_assoc in IH; simpl in IH.
    apply IH; exact Hnd.
Qed.

(** A later component appends to every list. *)
Lemma append_terms_next ks :
  NoDup ks ->
  Mixture.append_terms (map (fun k => (k, g k)) ks) (map (fun k => (k, f k)) ks)
  = map (fun k => (k, g k ++ [f k])) ks.
Proof. intros Hnd; exact (append_next_fold ks [] Hnd). Qed.
End AppendFacts.

Lemma terms_after_results ks
    (rest prev : list (dict CoordKey Mesh * dict CoordKey ndarray)) :
  NoDup ks ->
  (forall res, In res rest -> keys (snd res) = ks) ->
  fold_left Mixture.append_terms (map snd rest)
            (map (fun k => (k, map (fun res => Mixture.term_of res k) prev)) ks)
  = map (fun k => (k, map (fun res => Mixture.term_of res k) (prev ++ rest))) ks.
Proof.
  intros Hnd; revert prev; induction rest as [|r rest IH]; intros prev Hkeys; simpl.
  - now rewrite app_nil_r.
  - rewrite (dict_as_table (snd r) (Vec [])), (Hkeys r (or_introl eq_refl))
      by (rewrite (Hkeys r (or_introl eq_refl)); exact Hnd).
    fold (Mixture.term_of r).
    rewrite (append_terms_next (Mixture.term_of r)) by exact Hnd.
    rewrite (map_ext _ (fun k => (k, map (fun res => Mixture.term_of res k) (prev ++ [r]))))
      by (intros k; now rewrite map_app).
    rewrite IH by (intros; apply Hkeys; now right).
    now rewrite <- app_assoc.
Qed.

(** The lists the loop over the components leaves in [terms]. *)
Lemma terms_of_results ks (results : list (dict CoordKey Mesh * dict CoordKey ndarray)) :
  NoDup ks -> results <> [] ->
  (forall res, In res results -> keys (snd res) = ks) ->
  fold_left Mixture.append_terms (map snd results) []
  = map (fun k => (k, map (fun res => Mixture.term_of res k) results)) ks.
Proof.
  intros Hnd Hne Hkeys; destruct results as [|r rest]; [congruence|].
  simpl.
  rewrite (dict_as_table (snd r) (Vec [])), (Hkeys r (or_introl eq_refl))
    by (rewrite (Hkeys r (or_introl eq_refl)); exact Hnd).
  fold (Mixture.term_of r).
  rewrite (append_terms_first (Mixture.term_of r)) by exact Hnd.
  apply (terms_after_results ks rest [r] Hnd).
  intros; apply Hkeys; now right.
Qed.

Lemma weighted_sum_as_logsumexp (ws vals : list R) :
  Forall (fun w => (0 < w)%R) ws ->
  sum_R (map (fun p => (snd p * exp (fst p))%R) (combine vals ws))
  = sum_R (map (fun p => exp (ln (fst p) + snd p)%R) (combine ws vals)).
Proof.
  intros Hpos; revert vals; induction Hpos as [|w ws Hw _ IH]; intros [|v vals];
    try reflexivity.
  simpl; rewrite IH, exp_plus, exp_ln by assumption; reflexivity.
Qed.

Section MixtureFacts.
Context {Value Prior Dist : Type}.
Variable draw : Prior -> PRNGKey -> Value.
Variable log_prob : Dist -> ndarray -> Kwargs -> ndarray.
Variable ln_simpson : ndarray -> ndarray -> ndarray.
Variable nd_add : ndarray -> ndarray -> ndarray.
Variable as_array : Value -> list R.

(** The loop that accumulates [terms] sees each component's own
    evaluation, in order. *)
Lemma evaluate_components_each comps expanded grids grid_coord_names x_coord_name :
  forall st w,
  Mixture.evaluate_components draw log_prob ln_simpson nd_add comps expanded grids
    grid_coord_names x_coord_name st w
  = match Mixture.evaluate_each draw log_prob ln_simpson nd_add comps expanded grids
            grid_coord_names x_coord_name w with
    | (Ok results, w') =>
        (Ok (Mixture.last_grids results (fst st),
             fold_left Mixture.append_terms (map snd results) (snd st)), w')
    | (Raise e, w') => (Raise e, w')
    end.
Proof.
  induction comps as [|c comps IH]; intros [g t] w; simpl; [reflexivity|].
  unfold mbind, lift.
  destruct (Mixture.component_slice expanded c) as [pars_c|e]; [|reflexivity].
  destruct (evaluate_on_2d_grids draw log_prob ln_simpson nd_add c (Some pars_c) grids
              grid_coord_names x_coord_name w) as [[res|e] w1]; [|reflexivity].
  rewrite IH.
  destruct (Mixture.evaluate_each draw log_prob ln_simpson nd_add comps expanded grids
              grid_coord_names x_coord_name w1) as [[others|e] w2]; reflexivity.
Qed.

Lemma last_grids_some results g0 :
  results <> [] -> exists g, Mixture.last_grids results g0 = Some g.
Proof.
  unfold Mixture.last_grids; revert g0; induction results as [|r results IH];
    intros g0 Hne; [congruence|].
  destruct results as [|r' results]; [simpl; eauto|].
  apply (IH (Some (fst r))); discriminate.
Qed.

(** The surface a component returned for [k], as the table of its cells. *)
Lemma term_as_table results ks n1 n2 res k :
  Mixture.homogeneous results ks n1 n2 -> In res results -> In k ks ->
  Mixture.term_of res k
  = Mat (map (fun i => map (Mixture.surface_at res k i) (seq 0 (n2 k))) (seq 0 (n1 k))).
Proof.
  intros Hhom Hres Hk.
  destruct (Mixture.hom_shape _ _ _ _ Hhom res k Hres Hk) as [m [Hget Hrect]].
  unfold Mixture.term_of, Mixture.surface_at; rewrite Hget.
  f_equal; apply (rect_as_table _ _ m 0%R Hrect).
Qed.

(** C3: when every component returns 2-D surfaces for the same pairs, the
    mixture returns for each pair the surface whose value at every grid
    point is [log(sum_k w_k exp(s_k))] over the components' own surfaces
    [s_k], with [w] the supplied [mixture-probs]; for positive weights
    this is [logsumexp_k(log w_k + s_k)], and for two components with
    weights [[1; 0]] it is the first component's surface. *)
Theorem mixture_surface_weighted_logsumexp
    (self : Mixture.ComponentMixtureModel Value Prior Dist) pars grids
    grid_coord_names x_coord_name w expanded results w' v ks n1 n2 :
  Mixture.expand_numpyro_params self pars = Ok expanded ->
  Mixture.evaluate_each draw log_prob ln_simpson nd_add (Mixture.components self)
    expanded grids grid_coord_names x_coord_name w = (Ok results, w') ->
  results <> [] ->
  get String.eqb "mixture-probs" pars = Some v ->
  length (as_array v) = length results ->
  Mixture.homogeneous results ks n1 n2 ->
  exists all_grids terms,
    Mixture.evaluate_on_2d_grids draw log_prob ln_simpson nd_add as_array self pars
      grids grid_coord_names x_coord_name w = (Ok (all_grids, terms), w') /\
    forall k, In k ks ->
      get key_eqb k terms
      = Some (Mat (Mixture.weighted_surface (as_array v) results k (n1 k) (n2 k))) /\
      (Forall (fun w => (0 < w)%R) (as_array v) ->
       forall i j,
         Mixture.weighted_cell (as_array v) results k i j
         = mixture_log_density (as_array v)
             (map (fun res => Mixture.surface_at res k i j) results)) /\
      (forall r1 r2, results = [r1; r2] -> as_array v = [1%R; 0%R] ->
       get key_eqb k terms = get key_eqb k (snd r1)).
Proof.
  intros Hexp Hrun Hne Hprobs Hlen Hhom.
  destruct (last_grids_some results None Hne) as [all_grids Hgrids].
  pose proof (Mixture.hom_distinct _ _ _ _ Hhom) as Hnd.
  set (surface := fun k =>
         Mat (Mixture.weighted_surface (as_array v) results k (n1 k) (n2 k))).
  exists all_grids, (map (fun k => (k, surface k)) ks).
  assert (Hcombine : forall k, In k ks ->
            combine_terms (map (fun res => Mixture.term_of res k) results) (as_array v)
            = Ok (surface k)).
  { intros k Hk.
    rewrite (map_ext_in _
               (fun res => Mat (map (fun i => map (Mixture.surface_at res k i)
                                                  (seq 0 (n2 k))) (seq 0 (n1 k)))))
      by (intros res Hres; eapply term_as_table; eauto).
    apply (combine_terms_tables (fun res => Mixture.surface_at res k)); auto.
    - exact (Mixture.hom_rows _ _ _ _ Hhom k Hk).
    - exact (Mixture.hom_cols _ _ _ _ Hhom k Hk). }
  split.
  - unfold Mixture.evaluate_on_2d_grids, mbind at 1, lift at 1; rewrite Hexp.
    unfold mbind at 1; rewrite evaluate_components_each, Hrun.
    cbn [fst snd]; rewrite Hgrids.
    rewrite (terms_of_results ks results Hnd Hne (Mixture.hom_keys _ _ _ _ Hhom)).
    unfold mbind, lift, ret.
    rewrite (traverse_map_ok _ _ (fun k => (k, surface k))); [reflexivity|].
    intros k Hk; cbn [fst snd].
    unfold Mixture.mixture_probs; rewrite Hprobs; simpl bind.
    now rewrite (Hcombine k Hk).
  - intros k Hk; split; [|split].
    + exact (get_table surface ks k Hk).
    + intros Hpos i j; unfold Mixture.weighted_cell, mixture_log_density.
      now rewrite weighted_sum_as_logsumexp.
    + intros r1 r2 -> Hw.
      rewrite (get_table surface ks k Hk); unfold surface.
      destruct (Mixture.hom_shape _ _ _ _ Hhom r1 k (or_introl eq_refl) Hk)
        as [m [Hget Hrect]].
      rewrite Hget; do 2 f_equal.
      rewrite (rect_as_table _ _ m 0%R Hrect) at 1.
      unfold Mixture.weighted_surface.
      apply map_ext; intros i; apply map_ext; intros j.
      unfold Mixture.weighted_cell, sum_R; rewrite Hw.
      cbn [map combine fold_right fst snd].
      rewrite Rmult_1_l, Rmult_0_l, !Rplus_0_r, ln_exp.
      unfold Mixture.surface_at; now rewrite Hget.
Qed.
End MixtureFacts.

(** ** The theorems on concrete runs *)

Module RunFacts.
Import Examples.

Example evaluate_two_coords_log :
  log (snd (evaluate_on_2d_grids draw0 log_prob0 ln_simpson0 nd_add0 two_coords
              (Some [(Single "x", [("loc", [0%R])])]) edges None None world0))
  = [LogProb (Single "x") (Vec (centers [0; 1; 2]%R)) [];
     LogProb (Single "y") (Mat (centers2 (snd (meshgrid [0; 1; 2]%R [0; 2; 4; 6]%R)))) []].
Proof. reflexivity. Qed.

(** The marginalisation path: the joint density on the centre points, the
    quadrature, then the requested pair. *)
Example evaluate_joint_log :
  log (snd (evaluate_on_2d_grids draw0 log_prob0 ln_simpson0 nd_add0 joint_xy None
              edges None None world0))
  = [LogProb (Joint ["x"; "y"])
       (Pts (stack_last (centers2 (fst (meshgrid [0; 1; 2]%R [0; 2; 4; 6]%R)))
                        (centers2 (snd (meshgrid [0; 1; 2]%R [0; 2; 4; 6]%R))))) [];
     LnSimpson
       (Pts (stack_last (centers2 (fst (meshgrid [0; 1; 2]%R [0; 2; 4; 6]%R)))
                        (centers2 (snd (meshgrid [0; 1; 2]%R [0; 2; 4; 6]%R)))))
       (Mat (centers2 (snd (meshgrid [0; 1; 2]%R [0; 2; 4; 6]%R))));
     LogProb (Joint ["x"; "y"])
       (Pts (stack_last (centers2 (fst (meshgrid [0; 1; 2]%R [0; 2; 4; 6]%R)))
                        (centers2 (snd (meshgrid [0; 1; 2]%R [0; 2; 4; 6]%R))))) []].
Proof. reflexivity. Qed.


Lemma evaluated_at_bin_centers_witness :
  exists evs,
    log (snd (evaluate_on_2d_grids draw0 log_prob0 ln_simpson0 nd_add0 two_coords
                (Some [(Single "x", [("loc", [0%R])])]) edges None None world0))
    = log world0 ++ evs /\
    (forall coord x kwargs,
       In (LogProb coord x kwargs) evs -> at_bin_centers edges x) /\
    (forall name g c,
       get String.eqb name edges = Some g -> increasing g ->
       In c (centers g) -> ~ In c g).
Proof.
  exact (evaluated_at_bin_centers draw0 log_prob0 ln_simpson0 nd_add0 two_coords
           (Some [(Single "x", [("loc", [0%R])])]) edges None None world0).
Defined.

Lemma invalid_request_rejected_witness :
  exists msg,
    evaluate_on_2d_grids draw0 log_prob0 ln_simpson0 nd_add0 two_coords None edges
      (Some [("y", "x")]) None world0
    = (Raise (ValueError msg), world0).
Proof.
  apply (invalid_request_rejected draw0 log_prob0 ln_simpson0 nd_add0 two_coords None
           edges [("y", "x")] None "x" ["x"; "y"] world0).
  - reflexivity.
  - reflexivity.
  - right; left; exists ("y", "x"); split; [now left | discriminate].
Defined.

Example unknown_name_message :
  evaluate_on_2d_grids draw0 log_prob0 ln_simpson0 nd_add0 two_coords None edges
    (Some [("x", "pm1")]) None world0
  = (Raise (ValueError "pm1 is not a valid coordinate name"), world0).
Proof. reflexivity. Qed.

Lemma mix_results_homogeneous :
  Mixture.homogeneous [mix_result; mix_result] [xy] (fun _ => 3) (fun _ => 2).
Proof.
  constructor.
  - intros res [<- | [<- | []]]; reflexivity.
  - repeat constructor; simpl; tauto.
  - intros res k [<- | [<- | []]] [<- | []];
      (eexists; split; [reflexivity | split; [reflexivity | repeat constructor]]).
  - intros; lia.
  - intros; lia.
Qed.

Lemma mixture_surface_weighted_logsumexp_witness :
  exists all_grids terms w',
    Mixture.evaluate_on_2d_grids draw0 log_prob0 ln_simpson0 nd_add0 (fun v => v)
      mix mix_pars edges (Some [("x", "y")]) None world0
    = (Ok (all_grids, terms), w') /\
    get key_eqb xy terms = get key_eqb xy (snd mix_result).
Proof.
  destruct (mixture_surface_weighted_logsumexp draw0 log_prob0 ln_simpson0 nd_add0
              (fun v => v) mix mix_pars edges (Some [("x", "y")]) None world0
              [("stream", inl [(Single "x", [("loc", [0%R])])]);
               ("bg", inl [(Single "x", [("loc", [0%R])])]);
               ("mixture-probs", inr [1%R; 0%R])]
              [mix_result; mix_result]
              (snd (Mixture.evaluate_each draw0 log_prob0 ln_simpson0 nd_add0
                      (Mixture.components mix)
                      [("stream", inl [(Single "x", [("loc", [0%R])])]);
                       ("bg", inl [(Single "x", [("loc", [0%R])])]);
                       ("mixture-probs", inr [1%R; 0%R])]
                      edges (Some [("x", "y")]) None world0))
              [1%R; 0%R] [xy] (fun _ => 3) (fun _ => 2)
              eq_refl eq_refl ltac:(discriminate) eq_refl eq_refl
              mix_results_homogeneous)
    as [all_grids [terms [Hrun Hk]]].
  exists all_grids, terms; eexists; split; [exact Hrun|].
  destruct (Hk xy (or_introl eq_refl)) as [_ [_ Hfirst]].
  exact (Hfirst mix_result mix_result eq_refl eq_refl).
Defined.

End RunFacts.

(** ** The truncated grid GMM, by index *)

Module TruncatedGridGMMIndexFacts.
Import TruncatedGridGMM TruncatedGridGMMFacts.
Open Scope R_scope.

Lemma axes_of_tables {I : Type} (loc scale : I -> R) (low high : I -> ereal)
    (l : list I) :
  axes_of (map loc l) (map scale l) (map low l) (map high l)
  = map (fun d => mkAxis (loc d) (scale d) (low d) (high d)) l.
Proof.
  unfold axes_of; induction l as [|d l IH]; simpl; [reflexivity | now rewrite IH].
Qed.

(** The cells the loop visits for one component are those of the indices
    [0 .. D-1]. *)
Lemma axes_of_by_index locs_k scales_k low high D :
  length locs_k = D -> length scales_k = D -> length low = D -> length high = D ->
  axes_of locs_k scales_k low high
  = map (fun d => mkAxis (nth d locs_k 0) (nth d scales_k 0)
                         (nth d low NegInf) (nth d high PosInf))
        (seq 0 D).
Proof.
  intros Hl Hs Hlo Hhi.
  rewrite <- (axes_of_tables (fun d => nth d locs_k 0) (fun d => nth d scales_k 0)
                (fun d => nth d low NegInf) (fun d => nth d high PosInf)).
  f_equal.
  - rewrite <- Hl; apply list_as_table.
  - rewrite <- Hs; apply list_as_table.
  - rewrite <- Hlo; apply list_as_table.
  - rewrite <- Hhi; apply list_as_table.
Qed.

Section Symmetric.
Variable Phi : R -> R.
Hypothesis Phi_symmetric : forall x, Phi (- x) = 1 - Phi x.

(** C4: for [K] components in [D] dimensions, the constant precomputed for
    component [k] is the sum over every dimension [d < D] of
    [log (cdf(high[d]) - cdf(low[d]))] for [Normal(locs[k, d], scales[k, d])];
    the sign taken by the correction in a dimension does not occur in it. *)
Theorem log_diff_tail_probs_by_index locs scales low high K D :
  rect K D locs -> rect K D scales -> length low = D -> length high = D ->
  _log_diff_tail_probs Phi locs scales low high
  = map (fun k => log_mass_by_index Phi locs scales low high D k) (seq 0 K).
Proof.
  intros [HlK HlD] [HsK HsD] Hlo Hhi.
  rewrite (log_diff_tail_probs_per_axis Phi Phi_symmetric).
  rewrite (list_as_table locs []) at 1; rewrite (list_as_table scales []) at 1.
  rewrite HlK, HsK, map2_map_map.
  apply map_ext_in; intros k Hk; apply in_seq in Hk.
  unfold log_retained_mass, log_mass_by_index.
  rewrite Forall_forall in HlD, HsD.
  rewrite (axes_of_by_index (nth k locs []) (nth k scales []) low high D);
    [| apply HlD, nth_In; lia | apply HsD, nth_In; lia | assumption | assumption].
  now rewrite map_map.
Qed.
End Symmetric.

Lemma log_diff_tail_probs_by_index_witness :
  _log_diff_tail_probs logistic [[0; 5]; [3; -2]] [[1; 1]; [2; 1]]
                       [Fin 1; NegInf] [Fin 2; Fin 4]
  = map (fun k => log_mass_by_index logistic [[0; 5]; [3; -2]] [[1; 1]; [2; 1]]
                                    [Fin 1; NegInf] [Fin 2; Fin 4] 2 k)
        (seq 0 2).
Proof.
  apply (log_diff_tail_probs_by_index logistic logistic_symmetric
           [[0; 5]; [3; -2]] [[1; 1]; [2; 1]] [Fin 1; NegInf] [Fin 2; Fin 4] 2 2);
    try reflexivity; split; try reflexivity; repeat constructor.
Defined.

(** The constant of the second component above, written out: both
    dimensions are summed, the first on the mirrored branch. *)
Example log_mass_by_index_second :
  log_mass_by_index logistic [[0; 5]; [3; -2]] [[1; 1]; [2; 1]]
                    [Fin 1; NegInf] [Fin 2; Fin 4] 2 1
  = ln (logistic ((2 - 3) / 2) - logistic ((1 - 3) / 2))
    + (ln (logistic ((4 - -2) / 1) - 0) + 0).
Proof. reflexivity. Qed.

Close Scope R_scope.
End TruncatedGridGMMIndexFacts.

(** ** Conditional arguments without a source *)






Section MissingSourceFacts.
Context {Value Prior Dist : Type}.
Variable draw : Prior -> PRNGKey -> Value.
Variable log_prob : Dist -> ndarray -> Kwargs -> ndarray.
Variable ln_simpson : ndarray -> ndarray -> ndarray.
Variable nd_add : ndarray -> ndarray -> ndarray.
Variable self : Component Value Prior Dist.
Variable cd : dict CoordKey DataMap.
Hypothesis self_cd : conditional_data self = Some cd.
Variable grids : Grids.
Variable conditional : dict CoordKey Kwargs.
Hypothesis conditional_built :
  _make_conditional_data self
    (map (fun kg => (Single (fst kg), Vec (centers (snd kg)))) grids)
  = Ok conditional.





End MissingSourceFacts.

Section EvaluationMissingSource.
Context {Value Prior Dist : Type}.
Variable draw : Prior -> PRNGKey -> Value.
Variable log_prob : Dist -> ndarray -> Kwargs -> ndarray.
Variable ln_simpson : ndarray -> ndarray -> ndarray.
Variable nd_add : ndarray -> ndarray -> ndarray.
Implicit Types (self : Component Value Prior Dist) (grids : Grids).



End EvaluationMissingSource.



(** * Further properties of the code *)

(** ** The resolver: what every returned order satisfies *)

Lemma index_of_lt k l : In k l -> index_of k l < length l.
Proof.
  induction l as [|k' l IH]; simpl; [tauto|].
  destruct (key_eqb k k') eqn:E; [lia|].
  apply key_eqb_neq in E; intros [? | Hin]; [congruence|].
  specialize (IH Hin); lia.
Qed.

Lemma index_of_app_in k l l' : In k l -> index_of k (l ++ l') = index_of k l.
Proof.
  induction l as [|k' l IH]; simpl; [tauto|].
  destruct (key_eqb k k') eqn:E; [reflexivity|].
  apply key_eqb_neq in E; intros [? | Hin]; [congruence|].
  now rewrite IH.
Qed.

Lemma index_of_app_last k l : ~ In k l -> index_of k (l ++ [k]) = length l.
Proof.
  induction l as [|k' l IH]; simpl; intros H.
  - now rewrite key_eqb_refl.
  - destruct (key_eqb k k') eqn:E.
    + apply key_eqb_eq in E; subst; tauto.
    + rewrite IH; tauto.
Qed.

(** In an order without repetition, a key sits after the keys it reads. *)
Lemma placed_index cd order :
  placed cd order -> NoDup order ->
  forall k v d, In k order -> In (k, v) cd -> In d (values v) ->
  index_of (Single d) order < index_of k order.
Proof.
  induction 1 as [|order k0 Hpl IH Hk0]; intros Hnd k v d Hin Hv Hd; [contradiction|].
  assert (Hnd' : NoDup order) by (now apply NoDup_app_remove_r in Hnd).
  assert (Hk0' : ~ In k0 order).
  { apply NoDup_remove_2 in Hnd; now rewrite app_nil_r in Hnd. }
  apply in_app_or in Hin as [Hin | [<- | []]].
  - pose proof (placed_precedes cd order Hpl k v d Hin Hv Hd) as [l1 [l2 [l3 Heq]]].
    assert (Hd' : In (Single d) order) by (rewrite Heq; apply in_elt).
    rewrite !index_of_app_in by assumption; now apply (IH Hnd' k v d).
  - pose proof (Hk0 v d Hv Hd) as Hd'.
    rewrite index_of_app_in, index_of_app_last by assumption.
    now apply index_of_lt.
Qed.

Section ResolverSoundness.
Context {Family Spec : Type}.
Variable self : ModelComponent Family Spec.
Variable cd : dict CoordKey DataMap.
Hypothesis WD : well_declared self cd.

(** Whatever the loop returns satisfies the invariant with nothing pending,
    cycle or not. *)
Lemma relax_sound fuel :
  forall st order,
  resolver_inv (keys (coord_distributions self)) cd st ->
  relax fuel st = Ok order ->
  resolver_inv (keys (coord_distributions self)) cd (order, []).
Proof.
  induction fuel as [|fuel IH]; intros st order Hinv; simpl; [discriminate|].
  assert (Hinv' : resolver_inv (keys (coord_distributions self)) cd (relax_round st)).
  { destruct (first_ready (fst st) (snd st)) as [k|] eqn:E.
    - exact (proj1 (relax_round_inv self cd WD st k Hinv E)).
    - unfold relax_round; now rewrite E. }
  destruct (snd (relax_round st)) as [|e rest] eqn:Est.
  - intros [= <-]; destruct (relax_round st); simpl in *; now subst.
  - now apply IH.
Qed.

Lemma relax_raises fuel :
  forall st e, relax fuel st = Raise e ->
  e = ValueError "Circular dependency likely in conditional_data".
Proof.
  induction fuel as [|fuel IH]; intros st e; simpl; [now intros [= <-]|].
  destruct (snd (relax_round st)); [discriminate | apply IH].
Qed.

(** X1: a dependency cycle of any length makes [_sample_order] raise: no order
    is ever returned for it. *)
Theorem sample_order_reports_cycle :
  (exists k, clos_trans CoordKey (depends_on cd) k k) ->
  _sample_order self = Raise (ValueError "Circular dependency likely in conditional_data").
Proof.
  intros [k Hcycle].
  destruct (_sample_order self) as [order|e] eqn:Erun.
  - exfalso; unfold _sample_order in Erun; rewrite (wd_cd _ _ _ _ WD) in Erun.
    pose proof (relax_sound _ _ _ (resolver_inv_init self cd WD) Erun)
      as [Hperm _ Hplaced]; simpl in Hperm, Hplaced.
    rewrite app_nil_r in Hperm.
    assert (Hnd : NoDup order).
    { eapply Permutation_NoDup; [apply Permutation_sym; exact Hperm|].
      exact (wd_keys _ _ _ _ WD). }
    assert (Hlt : forall a b, clos_trans CoordKey (depends_on cd) a b ->
                              index_of b order < index_of a order).
    { induction 1 as [a b [v [d [Hv [Hd ->]]]] | a b c _ IH1 _ IH2]; [|lia].
      apply (placed_index cd order Hplaced Hnd a v d); try assumption.
      apply (Permutation_in _ (Permutation_sym Hperm)).
      apply (wd_declared _ _ _ _ WD); apply (in_map fst) in Hv; exact Hv. }
    specialize (Hlt _ _ Hcycle); lia.
  - unfold _sample_order in Erun; rewrite (wd_cd _ _ _ _ WD) in Erun.
    now rewrite (relax_raises _ _ _ Erun).
Qed.
End ResolverSoundness.

Lemma sample_order_reports_cycle_witness :
  _sample_order Examples.two_cycle
  = Raise (ValueError "Circular dependency likely in conditional_data").
Proof.
  apply (sample_order_reports_cycle Examples.two_cycle
           [(Single "phi1", [("x", "phi2")]); (Single "phi2", [("x", "phi1")])]).
  - apply well_declaredb_sound; reflexivity.
  - exists (Single "phi1").
    apply t_trans with (Single "phi2"); apply t_step.
    + exists [("x", "phi2")], "phi2"; simpl; auto.
    + exists [("x", "phi1")], "phi1"; simpl; auto.
Defined.

Section ResolverOrder.
Context {Family Spec : Type}.
Implicit Types self : ModelComponent Family Spec.

Lemma relax_round_extends st :
  exists rest, fst (relax_round st) = fst st ++ rest /\
               incl rest (keys (snd st)) /\
               incl (keys (snd (relax_round st))) (keys (snd st)).
Proof.
  unfold relax_round.
  destruct (first_ready (fst st) (snd st)) as [k|] eqn:E; simpl.
  - destruct (first_ready_spec _ _ _ E) as [deps [Hin _]].
    exists [k]; split; [reflexivity|]; split.
    + intros x [<- | []]; apply (in_map fst) in Hin; exact Hin.
    + intros x Hx; apply in_map_iff in Hx as [e [<- He]].
      apply in_map; eapply remove_incl; exact He.
  - exists []; rewrite app_nil_r; split; [reflexivity|]; split;
      [intros x [] | apply incl_refl].
Qed.

Lemma relax_extends fuel :
  forall st order, relax fuel st = Ok order ->
  exists rest, order = fst st ++ rest /\ incl rest (keys (snd st)).
Proof.
  induction fuel as [|fuel IH]; intros st order; simpl; [discriminate|].
  destruct (relax_round_extends st) as [r1 [Hfst [Hr1 Hkeys]]].
  destruct (snd (relax_round st)) as [|e rest] eqn:Est.
  - intros [= <-]; exists r1; auto.
  - intros Hrun; destruct (IH _ _ Hrun) as [r2 [Horder Hr2]].
    exists (r1 ++ r2); split.
    + now rewrite Horder, Hfst, app_assoc.
    + apply incl_app; [assumption|].
      intros x Hx; apply Hkeys; rewrite <- Est; now apply Hr2.
Qed.

(** X2: every returned order starts with the keys that have no conditional
    data, in declaration order, and goes on with conditioned keys only. *)
Theorem sample_order_unconditioned_first self cd order :
  conditional_data self = Some cd ->
  _sample_order self = Ok order ->
  exists rest,
    order = filter (fun k => negb (mem key_eqb k cd)) (keys (coord_distributions self))
            ++ rest /\
    incl rest (keys cd).
Proof.
  intros Hcd; unfold _sample_order; rewrite Hcd, unconditional_first_filter.
  intros Hrun; destruct (relax_extends _ _ _ Hrun) as [rest [Horder Hrest]].
  exists rest; split; [exact Horder|].
  simpl in Hrest; unfold keys in Hrest; rewrite map_map in Hrest; exact Hrest.
Qed.

(** X3: without conditional data the order is the declaration order, however
    many coordinates there are. *)
Theorem sample_order_without_conditional_data self :
  conditional_data self = Some [] ->
  _sample_order self = Ok (keys (coord_distributions self)).
Proof.
  intros Hcd; unfold _sample_order; rewrite Hcd.
  rewrite (unconditional_first_filter self []).
  unfold max_rounds; simpl relax.
  f_equal; induction (keys (coord_distributions self)) as [|k ks IH];
    simpl; [reflexivity | now rewrite IH].
Qed.
End ResolverOrder.

Lemma sample_order_unconditioned_first_witness :
  exists rest,
    [Single "phi1"; Single "phi2"; Single "pm1"]
    = filter (fun k => negb (mem key_eqb k Examples.stream_cd))
             (keys (coord_distributions Examples.stream)) ++ rest /\
    incl rest (keys Examples.stream_cd).
Proof.
  exact (sample_order_unconditioned_first Examples.stream Examples.stream_cd
           [Single "phi1"; Single "phi2"; Single "pm1"] eq_refl eq_refl).
Defined.

Lemma sample_order_without_conditional_data_witness :
  _sample_order Examples.two_coords = Ok [Single "x"; Single "y"].
Proof.
  exact (sample_order_without_conditional_data Examples.two_coords eq_refl).
Defined.

(** ** The naming codec: what the decoder does with any encoded name *)

Module CodecMore.
Import PyStr PyStrFacts Codec.

(** The segments of an encoded name with an argument. *)
Lemma split_encoded c k a :
  free_of ":" c -> free_of ":" (segment k) -> free_of ":" a ->
  split ":" (_make_numpyro_name c k (Some a)) = [c; segment k; a].
Proof.
  intros Hc Hk Ha; unfold _make_numpyro_name; fold (segment k).
  replace ((c ++ ":" ++ segment k) ++ ":" ++ a)%string
    with (c ++ String ":" (segment k ++ String ":" a))%string
    by (rewrite append_assoc; reflexivity).
  now rewrite (split_app_sep _ _ _ Hc), (split_app_sep _ _ _ Hk), (split_free _ _ Ha).
Qed.

Lemma codec_key_segment k : codec_key k -> free_of ":" (segment k).
Proof.
  destruct k as [s|names]; simpl.
  - now intros [_ H].
  - intros [_ H]; apply contains_join_other; [reflexivity|].
    eapply Forall_impl; [|exact H]; now intros ? [_ ?].
Qed.

Lemma codec_key_decode k :
  codec_key k ->
  (if contains "-" (segment k) then Joint (split "-" (segment k))
   else Single (segment k)) = k.
Proof.
  destruct k as [s|names]; simpl.
  - intros [H _]; unfold free_of in H; now rewrite H.
  - intros [Hlen H].
    destruct names as [|x [|y l]]; simpl in Hlen; try lia.
    rewrite contains_join_sep, split_join; [reflexivity | discriminate |].
    eapply Forall_impl; [|exact H]; now intros ? [? _].
Qed.

Lemma expand_encoded c k a :
  free_of ":" c -> codec_key k -> free_of ":" a ->
  _expand_numpyro_name (_make_numpyro_name c k (Some a)) = Ok (c, k, a).
Proof.
  intros Hc Hk Ha; unfold _expand_numpyro_name.
  rewrite (split_encoded c k a Hc (codec_key_segment k Hk) Ha).
  now rewrite (codec_key_decode k Hk).
Qed.

(** X4: a name encoded without an argument has two segments, and decoding it
    raises [IndexError]. *)
Theorem expand_name_without_argument c k :
  free_of ":" c -> free_of ":" (segment k) ->
  _expand_numpyro_name (_make_numpyro_name c k None) = Raise IndexError.
Proof.
  intros Hc Hk; unfold _expand_numpyro_name, _make_numpyro_name; fold (segment k).
  change (c ++ ":" ++ segment k)%string with (c ++ String ":" (segment k))%string.
  now rewrite (split_app_sep _ _ _ Hc), (split_free _ _ Hk).
Qed.

Lemma expand_name_without_argument_witness :
  _expand_numpyro_name (_make_numpyro_name "stream" (Joint ["phi1"; "phi2"]) None)
  = Raise IndexError.
Proof.
  apply expand_name_without_argument; reflexivity.
Defined.

(** X5: a single coordinate name that holds ["-"] is decoded as the tuple of
    its pieces. *)
Theorem expand_hyphenated_single c s a :
  free_of ":" c -> free_of ":" s -> free_of ":" a ->
  contains "-" s = true ->
  _expand_numpyro_name (_make_numpyro_name c (Single s) (Some a))
  = Ok (c, Joint (split "-" s), a).
Proof.
  intros Hc Hs Ha Hdash; unfold _expand_numpyro_name.
  rewrite (split_encoded c (Single s) a Hc Hs Ha); simpl segment.
  now rewrite Hdash.
Qed.

Lemma expand_hyphenated_single_witness :
  _expand_numpyro_name (_make_numpyro_name "stream" (Single "pm-ra") (Some "loc"))
  = Ok ("stream", Joint ["pm"; "ra"], "loc").
Proof.
  apply (expand_hyphenated_single "stream" "pm-ra" "loc"); reflexivity.
Defined.

(** X6: names encoded from valid triples are distinct for distinct triples. *)
Theorem make_numpyro_name_injective c k a c' k' a' :
  free_of ":" c -> codec_key k -> free_of ":" a ->
  free_of ":" c' -> codec_key k' -> free_of ":" a' ->
  _make_numpyro_name c k (Some a) = _make_numpyro_name c' k' (Some a') ->
  c = c' /\ k = k' /\ a = a'.
Proof.
  intros Hc Hk Ha Hc' Hk' Ha' Heq.
  pose proof (split_encoded c k a Hc (codec_key_segment k Hk) Ha) as H1.
  pose proof (split_encoded c' k' a' Hc' (codec_key_segment k' Hk') Ha') as H2.
  rewrite Heq, H2 in H1; injection H1 as -> Hseg ->.
  split; [reflexivity|]; split; [|reflexivity].
  rewrite <- (codec_key_decode k Hk), <- (codec_key_decode k' Hk'); now rewrite Hseg.
Qed.

Lemma make_numpyro_name_injective_witness :
  "stream" = "stream" /\ Joint ["phi1"; "phi2"] = Joint ["phi1"; "phi2"] /\ "loc" = "loc".
Proof.
  apply (make_numpyro_name_injective "stream" (Joint ["phi1"; "phi2"]) "loc"
           "stream" (Joint ["phi1"; "phi2"]) "loc");
    first [reflexivity | split; [simpl; lia | repeat constructor]].
Defined.

End CodecMore.

(** ** Dictionaries: lookup after an update *)

Section SetFacts.
Context {V : Type}.
Implicit Types (d : dict CoordKey V) (k : CoordKey).

Lemma get_set_same k v d : get key_eqb k (set key_eqb k v d) = Some v.
Proof.
  induction d as [|[k' v'] d IH]; simpl.
  - now rewrite key_eqb_refl.
  - destruct (key_eqb k k') eqn:E; simpl; rewrite E; [reflexivity | exact IH].
Qed.

Lemma get_set_other k k' v d :
  k <> k' -> get key_eqb k' (set key_eqb k v d) = get key_eqb k' d.
Proof.
  intros Hne; induction d as [|[k0 v0] d IH]; simpl.
  - destruct (key_eqb k' k) eqn:E; [|reflexivity].
    apply key_eqb_eq in E; congruence.
  - destruct (key_eqb k k0) eqn:E; simpl.
    + apply key_eqb_eq in E; subst k0.
      destruct (key_eqb k' k) eqn:E'; [|reflexivity].
      apply key_eqb_eq in E'; congruence.
    + now rewrite IH.
Qed.

Lemma keys_set k v d x : In x (keys (set key_eqb k v d)) <-> x = k \/ In x (keys d).
Proof.
  induction d as [|[k' v'] d IH]; simpl; [intuition congruence|].
  destruct (key_eqb k k') eqn:E; simpl.
  - apply key_eqb_eq in E; subst; intuition congruence.
  - rewrite IH; intuition congruence.
Qed.
End SetFacts.

(** ** [make_dists]: what it registers *)

Section MakeDistsFacts.
Context {Value Prior Dist : Type}.
Variable draw : Prior -> PRNGKey -> Value.
Implicit Types (self : Component Value Prior Dist) (pars : Pars Value).

Lemma resolve_arg_determined self_name pars coord_name arg spec w :
  overridden pars coord_name arg = true \/ is_literal (spec_body spec) = true ->
  exists v, resolve_arg draw self_name pars coord_name arg spec w = (Ok v, w).
Proof.
  unfold overridden, mem, resolve_arg; intros H.
  destruct spec as [val | wrapper val]; simpl in H;
    (destruct (get String.eqb arg _) as [v|]; [eexists; reflexivity|]);
    (destruct H as [H | H]; [discriminate|]);
    (destruct val; try discriminate; eexists; reflexivity).
Qed.

Lemma resolve_args_determined self_name pars coord_name specs :
  (forall arg spec, In (arg, spec) specs ->
     overridden pars coord_name arg = true \/ is_literal (spec_body spec) = true) ->
  forall kwargs w,
  exists out, resolve_args draw self_name pars coord_name specs kwargs w = (Ok out, w).
Proof.
  induction specs as [|[arg spec] specs IH]; intros H kwargs w; simpl.
  - eexists; reflexivity.
  - destruct (resolve_arg_determined self_name pars coord_name arg spec w
                (H arg spec (or_introl eq_refl))) as [v Hv].
    unfold mbind; rewrite Hv; apply IH; intros; apply H; now right.
Qed.

Lemma make_dists_loop_determined self pars items :
  (forall coord_name fam, In (coord_name, fam) items ->
     forall specs arg spec,
       get key_eqb coord_name (coord_parameters self) = Some specs ->
       In (arg, spec) specs ->
       overridden pars coord_name arg = true \/ is_literal (spec_body spec) = true) ->
  forall dists w,
  exists out,
    make_dists_loop draw self pars items dists w = (Ok out, w) /\
    forall k, In k (keys out) <-> In k (keys items) \/ In k (keys dists).
Proof.
  induction items as [|[coord_name fam] items IH]; intros H dists w; simpl.
  - exists dists; split; [reflexivity | tauto].
  - assert (Hspecs : forall arg spec,
              In (arg, spec)
                 (match get key_eqb coord_name (coord_parameters self) with
                  | Some m => m
                  | None => []
                  end) ->
              overridden pars coord_name arg = true \/
              is_literal (spec_body spec) = true).
    { intros arg spec Hin.
      destruct (get key_eqb coord_name (coord_parameters self)) as [m|] eqn:E;
        [|contradiction].
      exact (H coord_name fam (or_introl eq_refl) m arg spec E Hin). }
    destruct (resolve_args_determined (name self) pars coord_name _ Hspecs [] w)
      as [kw Hkw].
    unfold mbind.
    destruct (resolve_args _ _ _ _ _ _ _) as [r w1] eqn:E.
    injection Hkw as -> ->.
    destruct (IH (fun c f Hc => H c f (or_intror Hc))
                 (set key_eqb coord_name (fam kw) dists) w) as [out [Hout Hkeys]].
    exists out; split; [exact Hout|].
    intros k; rewrite Hkeys, keys_set; simpl; intuition congruence.
Qed.

(** X7: when every declared argument is a literal or is given in [pars],
    [make_dists] registers no site, leaves the handler state alone and
    returns a distribution for every declared key. *)
Theorem make_dists_without_draws self pars w :
  fully_determined self pars ->
  exists dists,
    make_dists draw self (Some pars) w = (Ok dists, w) /\
    forall k, In k (keys dists) <-> In k (keys (coord_distributions self)).
Proof.
  intros Hdet; unfold make_dists.
  assert (Hitems : forall coord_name fam,
            In (coord_name, fam) (coord_distributions self) ->
            forall specs arg spec,
              get key_eqb coord_name (coord_parameters self) = Some specs ->
              In (arg, spec) specs ->
              overridden pars coord_name arg = true \/
              is_literal (spec_body spec) = true).
  { intros coord_name fam Hin specs arg spec Hspecs Harg.
    apply (Hdet coord_name specs arg spec); try assumption.
    apply (in_map fst) in Hin; exact Hin. }
  destruct (make_dists_loop_determined self pars (coord_distributions self) Hitems [] w)
    as [out [Hout Hkeys]].
  exists out; split; [exact Hout|].
  intros k; rewrite Hkeys; simpl; tauto.
Qed.

(** *** The sites registered *)

Lemma resolve_arg_sites self coord_name specs arg spec pars :
  In coord_name (keys (coord_distributions self)) ->
  get key_eqb coord_name (coord_parameters self) = Some specs ->
  In (arg, spec) specs ->
  emits (declared_site self pars)
        (resolve_arg draw (name self) pars coord_name arg spec).
Proof.
  intros Hk Hspecs Hin.
  assert (Hdraw : forall p,
            is_literal (spec_body spec) = false ->
            overridden pars coord_name arg = false ->
            emits (declared_site self pars)
              (numpyro_sample draw
                 (Codec._make_numpyro_name (name self) coord_name (Some arg)) p)).
  { intros p Hprior Hfree w; unfold numpyro_sample; destruct (rng w); simpl.
    - eexists; split; [reflexivity|].
      constructor; [|constructor].
      exists coord_name, specs, arg, spec; auto 10.
    - exists []; rewrite app_nil_r; auto. }
  unfold resolve_arg.
  destruct spec as [val | wrapper val]; (apply emits_bind; [|intros; apply emits_ret]);
    (destruct (get String.eqb arg _) eqn:Eov; [apply emits_ret|]);
    (destruct val; [apply emits_ret | |]);
    (apply Hdraw; [reflexivity | unfold overridden, mem; now rewrite Eov]).
Qed.

Lemma resolve_args_sites self coord_name specs pars :
  In coord_name (keys (coord_distributions self)) ->
  get key_eqb coord_name (coord_parameters self) = Some specs ->
  forall todo kwargs, incl todo specs ->
  emits (declared_site self pars)
        (resolve_args draw (name self) pars coord_name todo kwargs).
Proof.
  intros Hk Hspecs; induction todo as [|[arg spec] todo IH]; intros kwargs Hincl; simpl.
  - apply emits_ret.
  - apply emits_bind.
    + eapply resolve_arg_sites; eauto; apply Hincl; now left.
    + intros v; apply IH; intros x Hx; apply Hincl; now right.
Qed.

Lemma make_dists_loop_sites self pars items :
  incl (keys items) (keys (coord_distributions self)) ->
  forall dists,
    emits (declared_site self pars) (make_dists_loop draw self pars items dists).
Proof.
  induction items as [|[coord_name fam] items IH]; intros Hincl dists; simpl.
  - apply emits_ret.
  - apply emits_bind.
    + destruct (get key_eqb coord_name (coord_parameters self)) as [specs|] eqn:E.
      * eapply resolve_args_sites; [apply Hincl; now left | exact E | apply incl_refl].
      * apply emits_ret.
    + intros kw; apply IH; intros x Hx; apply Hincl; now right.
Qed.

(** X8: everything [make_dists] asks of the substrate is the draw of a declared
    argument that is a prior and has no value in [pars], under its encoded
    name; for separator-free names the decoder gives back the component, the
    coordinate key and the argument. *)
Theorem make_dists_sites_decode self (given : option (Pars Value)) w :
  exists evs,
    log (snd (make_dists draw self given w)) = log w ++ evs /\
    Forall (declared_site self (match given with Some p => p | None => [] end)) evs /\
    (Codec.free_of ":" (name self) ->
     (forall k, In k (keys (coord_distributions self)) -> Codec.codec_key k) ->
     (forall k specs arg spec,
        get key_eqb k (coord_parameters self) = Some specs ->
        In (arg, spec) specs -> Codec.free_of ":" arg) ->
     forall site key, In (SiteDraw site key) evs ->
     exists coord_name arg,
       In coord_name (keys (coord_distributions self)) /\
       Codec._expand_numpyro_name site = Ok (name self, coord_name, arg)).
Proof.
  destruct (make_dists_loop_sites self (match given with Some p => p | None => [] end)
              (coord_distributions self) (incl_refl _) [] w) as [evs [Hlog HP]].
  exists evs; split; [exact Hlog|]; split; [exact HP|].
  intros Hname Hkeys Hargs site key Hin.
  rewrite Forall_forall in HP; specialize (HP _ Hin); simpl in HP.
  destruct HP as [coord_name [specs [arg [spec [Hk [Hspecs [Harg [_ [_ ->]]]]]]]]].
  exists coord_name, arg; split; [exact Hk|].
  exact (CodecMore.expand_encoded (name self) coord_name arg Hname (Hkeys _ Hk)
           (Hargs _ _ _ _ Hspecs Harg)).
Qed.
End MakeDistsFacts.

Lemma make_dists_without_draws_witness :
  exists dists,
    make_dists Examples.draw0 Examples.two_coords
      (Some [(Single "x", [("loc", [0%R])])]) Examples.world0
    = (Ok dists, Examples.world0) /\
    forall k, In k (keys dists) <-> In k (keys (coord_distributions Examples.two_coords)).
Proof.
  apply (make_dists_without_draws (Dist := unit) Examples.draw0 Examples.two_coords
           [(Single "x", [("loc", [0%R])])] Examples.world0).
  intros c specs arg spec Hc Hs Ha.
  destruct Hc as [<- | [<- | []]]; injection Hs as <-;
    destruct Ha as [[= <- <-] | [[= <- <-] | []]];
    first [left; reflexivity | right; reflexivity].
Defined.

Lemma make_dists_sites_decode_witness :
  exists evs,
    log (snd (make_dists (Dist := unit) Examples.draw0 Examples.two_coords None
                (mkWorld (Some (RootKey 0)) [])))
    = [] ++ evs /\
    Forall (declared_site Examples.two_coords []) evs /\
    (forall site key, In (SiteDraw site key) evs ->
     exists coord_name arg,
       In coord_name (keys (coord_distributions Examples.two_coords)) /\
       Codec._expand_numpyro_name site = Ok ("bg", coord_name, arg)).
Proof.
  destruct (make_dists_sites_decode (Dist := unit) Examples.draw0 Examples.two_coords None
              (mkWorld (Some (RootKey 0)) [])) as [evs [Hlog [Hsites Hdecode]]].
  exists evs; split; [exact Hlog|]; split; [exact Hsites|].
  apply Hdecode.
  - reflexivity.
  - intros k [<- | [<- | []]]; split; reflexivity.
  - intros k specs arg spec Hs Ha.
    destruct (CoordKey_eq_dec k (Single "x")) as [-> | Hx];
      [|destruct (CoordKey_eq_dec k (Single "y")) as [-> | Hy]].
    + injection Hs as <-; destruct Ha as [[= <- _] | [[= <- _] | []]]; reflexivity.
    + injection Hs as <-; destruct Ha as [[= <- _] | [[= <- _] | []]]; reflexivity.
    + exfalso; simpl in Hs.
      apply key_eqb_neq in Hx, Hy; rewrite Hx, Hy in Hs; discriminate.
Defined.

(** ** Sampling: what the coordinates receive *)

Lemma dist_keys_app evs evs' : dist_keys (evs ++ evs') = dist_keys evs ++ dist_keys evs'.
Proof. unfold dist_keys; apply flat_map_app. Qed.

Lemma dist_keys_none evs : Forall not_dist_sample evs -> dist_keys evs = [].
Proof.
  induction 1 as [|ev evs Hev _ IH]; [reflexivity|].
  destruct ev; simpl in *; tauto.
Qed.

Section KeyFacts.
Context {A B : Type}.
Variable l : list PRNGKey.

Lemma emits_keys_none (m : M A) : emits not_dist_sample m -> emits_keys l m.
Proof.
  intros Hm w; destruct (Hm w) as [evs [Hlog HP]].
  exists evs, 0; split; [exact Hlog | now apply dist_keys_none].
Qed.

Lemma emits_keys_bind_pre (m : M A) (f : A -> M B) :
  emits not_dist_sample m -> (forall a, emits_keys l (f a)) ->
  emits_keys l (mbind m f).
Proof.
  intros Hm Hf w; unfold mbind.
  destruct (Hm w) as [evs1 [Hlog1 HP1]].
  destruct (m w) as [[a|e] w1]; simpl in Hlog1.
  - destruct (Hf a w1) as [evs2 [n [Hlog2 Hkeys]]].
    exists (evs1 ++ evs2), n; split.
    + now rewrite Hlog2, Hlog1, app_assoc.
    + now rewrite dist_keys_app, (dist_keys_none _ HP1).
  - exists evs1, 0; split; [exact Hlog1 | now apply dist_keys_none].
Qed.

Lemma emits_keys_bind_post (m : M A) (f : A -> M B) :
  emits_keys l m -> (forall a, emits not_dist_sample (f a)) ->
  emits_keys l (mbind m f).
Proof.
  intros Hm Hf w; unfold mbind.
  destruct (Hm w) as [evs1 [n [Hlog1 Hkeys]]].
  destruct (m w) as [[a|e] w1]; simpl in Hlog1.
  - destruct (Hf a w1) as [evs2 [Hlog2 HP2]].
    exists (evs1 ++ evs2), n; split.
    + now rewrite Hlog2, Hlog1, app_assoc.
    + now rewrite dist_keys_app, (dist_keys_none _ HP2), app_nil_r.
  - exists evs1, n; auto.
Qed.
End KeyFacts.

Lemma map_snd_combine {A B : Type} (l : list A) (l' : list B) :
  map snd (combine l l') = firstn (length l) l'.
Proof.
  revert l'; induction l as [|a l IH]; intros [|b l']; simpl; try reflexivity.
  now rewrite IH.
Qed.



Section SampleFacts.
Context {Value Prior Dist : Type}.
Variable draw : Prior -> PRNGKey -> Value.
Variable dist_sample : Dist -> PRNGKey -> list nat -> Kwargs -> ndarray.
Implicit Types (self : Component Value Prior Dist).

Lemma collect_samples_keys ks samples out :
  collect_samples ks samples = Ok out -> keys out = ks.
Proof.
  revert out; induction ks as [|k ks IH]; intros out; simpl.
  - now intros [= <-].
  - destruct (getitem k samples) as [v|]; [|discriminate]; simpl.
    destruct (collect_samples ks samples) as [tail|]; [|discriminate]; simpl.
    intros [= <-]; simpl; now rewrite (IH tail eq_refl).
Qed.

(** X9: a returned sample dict has exactly the declared keys, in declaration
    order, whatever the order of sampling was. *)
Theorem sample_keyed_by_declaration self key sample_shape pars w samples w' :
  sample draw dist_sample self key sample_shape pars w = (Ok samples, w') ->
  keys samples = keys (coord_distributions self).
Proof.
  unfold sample; intros H.
  apply mbind_ok in H as [dists [w1 [_ H]]].
  apply mbind_ok in H as [order [w2 [_ H]]].
  apply mbind_ok in H as [drawn [w3 [_ H]]].
  apply mbind_ok in H as [u [w4 [_ H]]].
  unfold lift in H; injection H as H _.
  now apply collect_samples_keys in H.
Qed.

Lemma sample_loop_keys self dists sample_shape todo :
  forall samples,
  emits_keys (map snd todo) (sample_loop dist_sample self dists sample_shape todo samples).
Proof.
  induction todo as [|[c key] todo IH]; intros samples w; simpl.
  - exists [], 0; rewrite app_nil_r; auto.
  - unfold mbind, lift.
    destruct (_make_conditional_data self samples) as [extra|e];
      [|exists [], 0; rewrite app_nil_r; auto].
    destruct (getitem c extra) as [kwargs|e];
      [|exists [], 0; rewrite app_nil_r; auto].
    destruct (getitem c dists) as [d|e];
      [|exists [], 0; rewrite app_nil_r; auto].
    simpl.
    match goal with
    | |- context [sample_loop _ _ _ _ _ ?s ?w0] =>
        destruct (IH s w0) as [evs [n [Hlog Hkeys]]]
    end.
    eexists (_ :: evs), (S n); split.
    + rewrite Hlog; simpl; rewrite <- app_assoc; reflexivity.
    + simpl; now rewrite Hkeys.
Qed.

(** X10: the coordinates' [sample] calls receive the first keys of
    [jax.random.split(key, n)], one each and in sampling order: they are
    pairwise distinct, whatever [make_dists] drew before. *)
Theorem sample_coordinate_keys_distinct self key sample_shape pars w :
  exists evs n,
    log (snd (sample draw dist_sample self key sample_shape pars w)) = log w ++ evs /\
    dist_keys evs = firstn n (random_split key (length (coord_distributions self))) /\
    NoDup (dist_keys evs).
Proof.
  assert (H : emits_keys (random_split key (length (coord_distributions self)))
                (sample draw dist_sample self key sample_shape pars)).
  { unfold sample; apply emits_keys_bind_pre.
    - destruct pars; [|apply emits_seed];
        apply make_dists_emits; intros; exact I.
    - intros dists; apply emits_keys_bind_pre; [apply emits_lift|]; intros order.
      apply emits_keys_bind_post.
      + intros w0.
        destruct (sample_loop_keys self dists sample_shape
                    (combine order (random_split key (length (coord_distributions self))))
                    [] w0) as [evs [n [Hlog Hkeys]]].
        exists evs, (Nat.min n (length order)); split; [exact Hlog|].
        now rewrite Hkeys, map_snd_combine, firstn_firstn.
      + intros drawn; apply emits_bind; [|intros; apply emits_lift].
        destruct (Nat.eqb _ _); [apply emits_ret | apply emits_raise]. }
  destruct (H w) as [evs [n [Hlog Hkeys]]].
  exists evs, n; split; [exact Hlog|]; split; [exact Hkeys|].
  rewrite Hkeys.
  pose proof (SamplingFacts.random_split_NoDup key (length (coord_distributions self)))
    as Hnd.
  rewrite <- (firstn_skipn n) in Hnd; now apply NoDup_app_remove_r in Hnd.
Qed.
End SampleFacts.

Lemma sample_keyed_by_declaration_witness :
  keys [(Single "x", Vec []); (Single "y", Vec [])]
  = keys (coord_distributions Examples.two_coords).
Proof.
  exact (sample_keyed_by_declaration Examples.draw0 Examples.dist_sample0
           Examples.two_coords (RootKey 0) [100]
           (Some [(Single "x", [("loc", [0%R])])]) Examples.world0
           [(Single "x", Vec []); (Single "y", Vec [])] _ eq_refl).
Defined.


Section ConditionedFacts.
Context {Value Prior Dist : Type}.
Variable draw : Prior -> PRNGKey -> Value.
Variable dist_sample : Dist -> PRNGKey -> list nat -> Kwargs -> ndarray.
Variable self : Component Value Prior Dist.
Variable cd : dict CoordKey DataMap.
Hypothesis WD : well_declared self cd.


End ConditionedFacts.

Example sample_chain_log :
  log (snd (sample Examples.draw0 Examples.dist_sample0 Examples.chain (RootKey 0) [100]
              None Examples.world0))
  = [DistSample (Single "x") (SplitKey (RootKey 0) 2 0) [100] [];
     DistSample (Single "y") (SplitKey (RootKey 0) 2 1) [] [("loc_at", Some (Vec []))]].
Proof. reflexivity. Qed.


(** ** Grid evaluation: the meshes and the surfaces returned *)

Lemma pair_key_injective p q : pair_key p = pair_key q -> p = q.
Proof. destruct p, q; unfold pair_key; simpl; now intros [= -> ->]. Qed.

Lemma pair_eq_dec (p q : string * string) : {p = q} + {p <> q}.
Proof. decide equality; apply string_dec. Qed.

Lemma get_grids_2d_lookup grids pairs :
  (forall p, In p pairs -> mesh_of grids p <> None) ->
  forall acc,
  exists grids_2d,
    _get_grids_2d grids pairs acc = Ok grids_2d /\
    (forall p, In p pairs -> get key_eqb (pair_key p) grids_2d = mesh_of grids p) /\
    (forall k, (forall p, In p pairs -> pair_key p <> k) ->
               get key_eqb k grids_2d = get key_eqb k acc).
Proof.
  induction pairs as [|p pairs IH]; intros Hall acc.
  - exists acc; split; [reflexivity|]; split; [intros p [] | auto].
  - pose proof (Hall p (or_introl eq_refl)) as Hp.
    simpl; unfold mesh_of in Hp.
    destruct (get String.eqb (fst p) grids) as [ga|] eqn:Ea; [|congruence].
    destruct (get String.eqb (snd p) grids) as [gb|] eqn:Eb; [|congruence].
    destruct (IH (fun q Hq => Hall q (or_intror Hq))
                 (set key_eqb (pair_key p) (meshgrid ga gb) acc))
      as [g2 [Hrun [Hlook Hframe]]].
    exists g2; split; [exact Hrun|]; split.
    + intros q [<- | Hq]; [|now apply Hlook].
      destruct (in_dec pair_eq_dec p pairs) as [Hin | Hnotin]; [now apply Hlook|].
      rewrite Hframe, get_set_same; [unfold mesh_of; now rewrite Ea, Eb|].
      intros q Hq Heq; apply pair_key_injective in Heq; congruence.
    + intros k Hk; rewrite Hframe by (intros q Hq; apply Hk; now right).
      apply get_set_other; apply Hk; now left.
Qed.

(** X12: when every requested name has a 1-D grid, [_get_grids_2d] returns a
    dict that maps each requested pair to the meshgrid of its two grids and
    holds nothing else. *)
Theorem get_grids_2d_complete grids pairs :
  (forall p, In p pairs -> mesh_of grids p <> None) ->
  exists grids_2d,
    _get_grids_2d grids pairs [] = Ok grids_2d /\
    (forall p, In p pairs -> get key_eqb (pair_key p) grids_2d = mesh_of grids p) /\
    (forall k, In k (keys grids_2d) -> In k (map pair_key pairs)).
Proof.
  intros Hall.
  destruct (get_grids_2d_lookup grids pairs Hall []) as [g2 [Hrun [Hlook Hframe]]].
  exists g2; split; [exact Hrun|]; split; [exact Hlook|].
  intros k Hk.
  destruct (in_dec CoordKey_eq_dec k (map pair_key pairs)) as [Hin | Hnotin];
    [exact Hin | exfalso].
  apply mem_keys in Hk; unfold mem in Hk; rewrite Hframe in Hk; [discriminate|].
  intros p Hp <-; apply Hnotin; now apply in_map.
Qed.

Lemma get_grids_2d_complete_witness :
  exists grids_2d,
    _get_grids_2d Examples.edges [("x", "y")] [] = Ok grids_2d /\
    (forall p, In p [("x", "y")] ->
       get key_eqb (pair_key p) grids_2d = mesh_of Examples.edges p) /\
    (forall k, In k (keys grids_2d) -> In k (map pair_key [("x", "y")])).
Proof.
  apply (get_grids_2d_complete Examples.edges [("x", "y")]).
  intros p [<- | []]; discriminate.
Defined.

Section RequestFacts.
Context {Value Prior Dist : Type}.
Variable draw : Prior -> PRNGKey -> Value.
Variable log_prob : Dist -> ndarray -> Kwargs -> ndarray.
Variable ln_simpson : ndarray -> ndarray -> ndarray.
Variable nd_add : ndarray -> ndarray -> ndarray.
Implicit Types (self : Component Value Prior Dist).

(** X13: with no pairs requested and a valid x coordinate the checks pass: the
    pairs evaluated are [(x, c)] for every coordinate name [c] after the
    first declared one, wherever [x] itself sits. *)
Theorem validate_default_request self x_coord_name x names :
  _coord_names self = Some names ->
  match x_coord_name with None => default_x_coord self | Some x => Some x end = Some x ->
  In x names ->
  validate_request self None x_coord_name
  = Ok (x, map (fun coord_name => (x, coord_name)) (tl names)).
Proof.
  intros Hnames Hx Hin; unfold validate_request; rewrite Hnames, Hx.
  apply str_in_In in Hin; rewrite Hin; simpl.
  assert (Htl : forall c, In c (tl names) -> In c names).
  { destruct names; simpl; auto. }
  destruct (find _ (map _ (tl names))) as [p|] eqn:E1.
  { apply find_some in E1 as [Hp Hne]; apply in_map_iff in Hp as [c [<- _]].
    simpl in Hne; now rewrite String.eqb_refl in Hne. }
  destruct (find _ (flat_map _ _)) as [n|] eqn:E2; [|reflexivity].
  apply find_some in E2 as [Hn Hbad]; apply in_flat_map in Hn as [p [Hp Hn]].
  apply in_map_iff in Hp as [c [<- Hc]]; simpl in Hn.
  apply negb_true_iff in Hbad.
  destruct Hn as [<- | [<- | []]]; [congruence|].
  apply Htl, str_in_In in Hc; congruence.
Qed.

Lemma evaluate_pairs_keys self dists conditional grids_2d ln_p_x pairs :
  forall evals w out w',
  evaluate_pairs log_prob nd_add self dists conditional grids_2d ln_p_x pairs evals w
  = (Ok out, w') ->
  forall k, In k (keys out) <-> In k (map pair_key pairs) \/ In k (keys evals).
Proof.
  induction pairs as [|p pairs IH]; intros evals w out w'; simpl.
  - intros [= <- _]; tauto.
  - intros H.
    apply mbind_ok in H as [mesh [w1 [_ H]]].
    apply mbind_ok in H as [surface [w2 [_ H]]].
    intros k; rewrite (IH _ _ _ _ H k), keys_set; intuition congruence.
Qed.

(** X14: a successful evaluation returns a surface for every requested pair and
    for nothing else. *)
Theorem evaluate_returns_requested_pairs self pars grids grid_coord_names x_coord_name
    w grids_2d evals w' :
  evaluate_on_2d_grids draw log_prob ln_simpson nd_add self pars grids grid_coord_names
    x_coord_name w = (Ok (grids_2d, evals), w') ->
  exists x pairs,
    validate_request self grid_coord_names x_coord_name = Ok (x, pairs) /\
    forall k, In k (keys evals) <-> In k (map pair_key pairs).
Proof.
  unfold evaluate_on_2d_grids; intros H.
  apply mbind_ok in H as [[x pairs] [w1 [Hval H]]].
  unfold lift in Hval; injection Hval as Hval _.
  apply mbind_ok in H as [g2 [w2 [_ H]]].
  apply mbind_ok in H as [conditional [w3 [_ H]]].
  apply mbind_ok in H as [dists [w4 [_ H]]].
  apply mbind_ok in H as [ln_p_x [w5 [_ H]]].
  apply mbind_ok in H as [out [w6 [Hpairs H]]].
  unfold ret in H; injection H as _ <- _.
  exists x, pairs; split; [exact Hval|].
  intros k; rewrite (evaluate_pairs_keys _ _ _ _ _ _ _ _ _ _ Hpairs k); simpl; tauto.
Qed.
End RequestFacts.

Lemma validate_default_request_witness :
  validate_request Examples.two_coords None (Some "y") = Ok ("y", [("y", "y")]).
Proof.
  exact (validate_default_request Examples.two_coords (Some "y") "y" ["x"; "y"]
           eq_refl eq_refl (or_intror (or_introl eq_refl))).
Defined.

Lemma evaluate_returns_requested_pairs_witness :
  exists x pairs,
    validate_request (Examples.mix_component "bg") (Some [("x", "y")]) None
    = Ok (x, pairs) /\
    forall k, In k (keys (snd Examples.mix_result)) <-> In k (map pair_key pairs).
Proof.
  exact (evaluate_returns_requested_pairs Examples.draw0 Examples.log_prob0
           Examples.ln_simpson0 Examples.nd_add0 (Examples.mix_component "bg")
           (Some [(Single "x", [("loc", [0%R])])]) Examples.edges (Some [("x", "y")])
           None Examples.world0 (fst Examples.mix_result) (snd Examples.mix_result) _
           eq_refl).
Defined.

(** ** Construction: the key sets *)

Section KeySetFacts.
Context {Family Spec : Type}.
Implicit Types raw : ModelComponent Family Spec.

Lemma same_key_set_false a b :
  same_key_set a b = false <->
  exists k, (In k a /\ ~ In k b) \/ (In k b /\ ~ In k a).
Proof.
  unfold same_key_set; rewrite andb_false_iff; split.
  - intros [H | H]; apply forallb_false_witness in H as [k [Hk Hnot]];
      apply key_in_not_In in Hnot; exists k; auto.
  - intros [k [[Hk Hnot] | [Hk Hnot]]]; [left | right];
      (destruct (forallb _ _) eqn:E; [|reflexivity]);
      rewrite forallb_forall in E; apply E in Hk; apply key_in_In in Hk; contradiction.
Qed.

(** X15: construction fails with the key-mismatch error exactly when some key is
    declared in one of [coord_distributions] and [coord_parameters] only. *)
Theorem post_init_key_mismatch raw :
  __post_init__ raw
  = Raise (ValueError "Keys in coord_distributions and coord_parameters must match")
  <->
  exists k,
    (In k (keys (coord_distributions raw)) /\ ~ In k (keys (coord_parameters raw))) \/
    (In k (keys (coord_parameters raw)) /\ ~ In k (keys (coord_distributions raw))).
Proof.
  rewrite <- same_key_set_false; unfold __post_init__.
  destruct (same_key_set _ _); simpl; [|tauto].
  split; [|discriminate].
  assert (Hfind : forall ks x,
            match find (fun _pair => reversed_in _pair
                          (dependency_pairs ks
                             match conditional_data raw with Some cd => cd | None => [] end))
                       (dependency_pairs ks
                          match conditional_data raw with Some cd => cd | None => [] end)
            with
            | Some _pair => Raise (ValueError (circular_msg _pair))
            | None =>
                Ok (mkComponent (name raw) (coord_distributions raw)
                      (coord_parameters raw) (Some x)
                      (Some match conditional_data raw with Some cd => cd | None => [] end)
                      (Some (flatten_names ks)))
            end
            <> Raise (ValueError
                        "Keys in coord_distributions and coord_parameters must match")).
  { intros ks x; destruct (find _ _); [|discriminate].
    unfold circular_msg; simpl; discriminate. }
  destruct (default_x_coord raw) as [x|]; [intros H; exfalso; exact (Hfind _ x H)|].
  destruct (keys (coord_distributions raw)) as [|[s|[|s l]] ks];
    try discriminate; intros H; exfalso;
    [exact (Hfind (Single s :: ks) s H) | exact (Hfind (Joint (s :: l) :: ks) s H)].
Qed.
End KeySetFacts.

Lemma post_init_key_mismatch_witness :
  __post_init__ (mkComponent (Family := unit) (Spec := unit)
                   "bg" [(Single "x", tt)] [(Single "y", [])] None None None)
  = Raise (ValueError "Keys in coord_distributions and coord_parameters must match").
Proof.
  apply (proj2 (post_init_key_mismatch _)).
  exists (Single "x"); left; simpl; split; [auto | intros [H | []]; discriminate].
Defined.

(** ** The truncated grid GMM: the size of the retained mass *)

Module IntervalFacts.
Import TruncatedGridGMM TruncatedGridGMMFacts Interval.
Open Scope R_scope.

(** X16: without truncation there is nothing to correct: every constant is 0,
    for any cdf. *)
Theorem log_diff_tail_probs_untruncated Phi locs scales low high :
  Forall (eq NegInf) low -> Forall (eq PosInf) high ->
  _log_diff_tail_probs Phi locs scales low high = map2 (fun _ _ => 0) locs scales.
Proof.
  intros Hlow Hhigh; unfold _log_diff_tail_probs.
  assert (Hterm : forall loc scale, log_diff_term Phi loc scale NegInf PosInf = 0).
  { intros loc scale; unfold log_diff_term; simpl.
    destruct (Rlt_dec 0 1) as [_|H]; [|lra]; simpl.
    replace (1 * (1 - 0)) with 1 by lra; apply ln_1. }
  assert (Haxes : forall locs_k scales_k,
            Forall (fun a => ax_low a = NegInf /\ ax_high a = PosInf)
                   (axes_of locs_k scales_k low high)).
  { intros locs_k scales_k; unfold axes_of.
    generalize (combine locs_k scales_k) as ls.
    assert (Hlh : Forall (fun lh => fst lh = NegInf /\ snd lh = PosInf) (combine low high)).
    { clear - Hlow Hhigh; revert high Hhigh.
      induction Hlow as [|l low <- _ IH]; intros high Hhigh; [constructor|].
      destruct Hhigh as [|h high <- Hhigh]; [constructor|].
      simpl; constructor; [auto | now apply IH]. }
    induction Hlh as [|lh rest [H1 H2] _ IH]; intros [|l ls]; simpl; constructor; auto. }
  revert scales; induction locs as [|l locs IH]; intros [|s scales]; simpl;
    try reflexivity.
  rewrite IH; f_equal.
  rewrite fold_left_sum, Rplus_0_l.
  specialize (Haxes l s); induction Haxes as [|a axes [Ha1 Ha2] _ IHa]; [reflexivity|].
  simpl; rewrite Ha1, Ha2, Hterm, IHa; lra.
Qed.

Lemma log_diff_tail_probs_untruncated_witness :
  _log_diff_tail_probs logistic [[0; 5]; [3; -2]] [[1; 1]; [2; 1]]
                       [NegInf; NegInf] [PosInf; PosInf]
  = [0; 0].
Proof.
  apply (log_diff_tail_probs_untruncated logistic [[0; 5]; [3; -2]] [[1; 1]; [2; 1]]);
    repeat constructor.
Defined.

Section Mass.
Variable Phi : R -> R.
Hypothesis Phi_cdf : cdf_like Phi.

Lemma retained_mass_range loc scale low high :
  0 < scale -> lt_bound low high ->
  0 < retained_mass Phi loc scale low high <= 1.
Proof.
  intros Hscale Hlt; unfold retained_mass.
  pose proof (cdf_range Phi Phi_cdf) as Hrange.
  destruct low as [|a|], high as [|b|]; simpl in *; try contradiction.
  - pose proof (Hrange ((b - loc) / scale)); lra.
  - lra.
  - assert (Hab : (a - loc) / scale < (b - loc) / scale).
    { unfold Rdiv; apply Rmult_lt_compat_r; [now apply Rinv_0_lt_compat | lra]. }
    pose proof (cdf_increasing Phi Phi_cdf _ _ Hab).
    pose proof (Hrange ((a - loc) / scale)); pose proof (Hrange ((b - loc) / scale)); lra.
  - pose proof (Hrange ((a - loc) / scale)); lra.
Qed.

(** X17: on a proper interval and for a positive scale the logarithm in the
    loop is taken of the retained mass, a number in (0, 1], on either sign
    branch: the term added is at most 0 and its exponential is the mass. *)
Theorem log_diff_term_of_positive_mass loc scale low high :
  0 < scale -> lt_bound low high ->
  log_diff_term Phi loc scale low high <= 0 /\
  exp (log_diff_term Phi loc scale low high) = retained_mass Phi loc scale low high /\
  0 < retained_mass Phi loc scale low high <= 1.
Proof.
  intros Hscale Hlt.
  pose proof (retained_mass_range loc scale low high Hscale Hlt) as [Hpos Hle].
  rewrite (log_diff_term_retained Phi (cdf_symmetric Phi Phi_cdf)).
  split; [|split; [now apply exp_ln | split; assumption]].
  destruct (Rle_lt_or_eq_dec _ _ Hle) as [Hlt1 | ->]; [|rewrite ln_1; lra].
  rewrite <- ln_1; left; now apply ln_increasing.
Qed.
End Mass.

Lemma logistic_cdf_like : cdf_like logistic.
Proof.
  constructor.
  - apply logistic_symmetric.
  - intros x y Hxy; unfold logistic.
    pose proof (exp_pos (- x)); pose proof (exp_pos (- y)).
    apply Rinv_lt_contravar; [apply Rmult_lt_0_compat; lra|].
    apply Rplus_lt_compat_l, exp_increasing; lra.
  - intros x; unfold logistic; pose proof (exp_pos (- x)) as Hx; split.
    + apply Rinv_0_lt_compat; lra.
    + rewrite <- Rinv_1 at 2; apply Rinv_lt_contravar; lra.
Qed.

Lemma log_diff_term_of_positive_mass_witness :
  log_diff_term logistic 0 1 (Fin 1) (Fin 2) <= 0 /\
  exp (log_diff_term logistic 0 1 (Fin 1) (Fin 2))
  = retained_mass logistic 0 1 (Fin 1) (Fin 2) /\
  0 < retained_mass logistic 0 1 (Fin 1) (Fin 2) <= 1.
Proof.
  apply (log_diff_term_of_positive_mass logistic logistic_cdf_like); simpl; lra.
Defined.

Close Scope R_scope.
End IntervalFacts.

(** ** Expanding flat parameters *)

Section StringDictFacts.
Context {V : Type}.
Implicit Types (d : dict string V) (k : string).

Lemma sget_set_same k v d : get String.eqb k (set String.eqb k v d) = Some v.
Proof.
  induction d as [|[k' v'] d IH]; simpl.
  - now rewrite String.eqb_refl.
  - destruct (String.eqb k k') eqn:E; simpl; rewrite E; [reflexivity | exact IH].
Qed.

Lemma sget_set_other k k' v d :
  k <> k' -> get String.eqb k' (set String.eqb k v d) = get String.eqb k' d.
Proof.
  intros Hne; induction d as [|[k0 v0] d IH]; simpl.
  - destruct (String.eqb k' k) eqn:E; [|reflexivity].
    apply String.eqb_eq in E; congruence.
  - destruct (String.eqb k k0) eqn:E; simpl.
    + apply String.eqb_eq in E; subst k0.
      destruct (String.eqb k' k) eqn:E'; [|reflexivity].
      apply String.eqb_eq in E'; congruence.
    + now rewrite IH.
Qed.

Lemma sget_In k v d : NoDup (keys d) -> In (k, v) d -> get String.eqb k d = Some v.
Proof.
  induction d as [|[k' v'] d IH]; simpl; [tauto|].
  intros Hnd; inversion_clear Hnd as [|? ? Hnotin Hnd'].
  intros [[= -> ->] | Hin]; [now rewrite String.eqb_refl|].
  destruct (String.eqb k k') eqn:E; [|auto].
  apply String.eqb_eq in E; subst k'.
  exfalso; apply Hnotin; apply (in_map fst) in Hin; exact Hin.
Qed.
End StringDictFacts.

Section ExpandFacts.
Context {Value : Type}.
Variable c : string.
Hypothesis c_free : Codec.free_of ":" c.
Implicit Types (st : dict string (Pars Value) * option string)
               (entries : list (CoordKey * string * Value)).

Let state_get st (k : CoordKey) (a : string) : option Value :=
  match get String.eqb c (fst st) with
  | Some nested => lookup_nested nested k a
  | None => None
  end.

Let encodable (e : CoordKey * string * Value) : Prop :=
  Codec.codec_key (fst (fst e)) /\ Codec.free_of ":" (snd (fst e)).

Lemma expand_item_get st k a v :
  Codec.codec_key k -> Codec.free_of ":" a ->
  exists st',
    Mixture.expand_item Value st (Codec._make_numpyro_name c k (Some a), v) = Ok st' /\
    snd st' = Some c /\
    state_get st' k a = Some v /\
    forall k' a', (k', a') <> (k, a) -> state_get st' k' a' = state_get st k' a'.
Proof.
  intros Hk Ha; unfold Mixture.expand_item; cbn [fst snd].
  rewrite (CodecMore.expand_encoded c k a c_free Hk Ha); simpl.
  eexists; split; [reflexivity|]; split; [reflexivity|].
  unfold state_get, lookup_nested; simpl; rewrite !sget_set_same; split.
  - now rewrite get_set_same, sget_set_same.
  - intros k' a' Hne.
    destruct (CoordKey_eq_dec k k') as [<- | Hkk].
    + rewrite get_set_same.
      assert (Haa : a <> a') by congruence.
      rewrite (sget_set_other _ _ _ _ Haa).
      destruct (get String.eqb c (fst st)) as [of_name|]; simpl;
        [destruct (get key_eqb k of_name) |]; reflexivity.
    + rewrite (get_set_other _ _ _ _ Hkk).
      destruct (get String.eqb c (fst st)); reflexivity.
Qed.

Lemma expand_items_get entries :
  Forall encodable entries ->
  forall st, exists st',
    Mixture.expand_items Value (flat_pars c entries) st = Ok st' /\
    snd st' = match entries with [] => snd st | _ :: _ => Some c end /\
    (forall k a, ~ In (k, a) (map fst entries) -> state_get st' k a = state_get st k a) /\
    (NoDup (map fst entries) ->
     forall k a v, In (k, a, v) entries -> state_get st' k a = Some v).
Proof.
  induction 1 as [|[[k a] v] entries [Hk Ha] _ IH]; intros st; simpl.
  - exists st; repeat split; tauto.
  - destruct (expand_item_get st k a v Hk Ha) as [st1 [E1 [Hn1 [Hsame Hother]]]].
    simpl in E1 |- *; rewrite E1; simpl.
    destruct (IH st1) as [st' [E' [Hn' [Hout Hin]]]].
    exists st'; split; [exact E'|]; split; [|split].
    + rewrite Hn'; destruct entries; [exact Hn1 | reflexivity].
    + intros k' a' Hnot; rewrite Hout by tauto.
      apply Hother; intros [= -> ->]; tauto.
    + intros Hnd k' a' v' [[= <- <- <-] | Hmem];
        inversion_clear Hnd as [|? ? Hfresh Hnd'].
      * rewrite Hout by exact Hfresh; exact Hsame.
      * now apply Hin.
Qed.

(** X18: every entry encoded into the flat dict is found again under its
    coordinate and argument, and the nested dict holds nothing else. *)
Theorem component_expand_lookup entries :
  Forall (fun e => Codec.codec_key (fst (fst e)) /\ Codec.free_of ":" (snd (fst e)))
         entries ->
  NoDup (map fst entries) -> entries <> [] ->
  exists nested,
    Mixture.component_expand_numpyro_params Value (flat_pars c entries) = Ok nested /\
    forall k a v, lookup_nested nested k a = Some v <-> In (k, a, v) entries.
Proof.
  intros Hok Hnd Hne; unfold Mixture.component_expand_numpyro_params.
  destruct (expand_items_get entries Hok ([], None)) as [st' [E [Hn [Hout Hin]]]].
  rewrite E; simpl.
  destruct entries as [|[[k0 a0] v0] rest]; [congruence|].
  rewrite Hn.
  pose proof (Hin Hnd k0 a0 v0 (or_introl eq_refl)) as H0.
  unfold state_get in H0, Hout, Hin.
  destruct (get String.eqb c (fst st')) as [nested|]; [|discriminate].
  exists nested; split; [reflexivity|].
  intros k a v; split; [|now apply Hin].
  intros Hget.
  assert (Hdec : forall x y : CoordKey * string, {x = y} + {x <> y}).
  { decide equality; [apply string_dec | apply CoordKey_eq_dec]. }
  destruct (in_dec Hdec (k, a) (map fst ((k0, a0, v0) :: rest))) as [Hmem | Hnot].
  - apply in_map_iff in Hmem as [[[k' a'] v'] [[= -> ->] Hmem]].
    pose proof (Hin Hnd k a v' Hmem) as Hget'; congruence.
  - rewrite (Hout k a Hnot) in Hget; discriminate.
Qed.
End ExpandFacts.

Lemma component_expand_lookup_witness :
  exists nested,
    Mixture.component_expand_numpyro_params nat
      (flat_pars "bg" [(Single "x", "loc", 1); (Joint ["a"; "b"], "scale", 2)])
    = Ok nested /\
    forall k a v,
      lookup_nested nested k a = Some v <->
      In (k, a, v) [(Single "x", "loc", 1); (Joint ["a"; "b"], "scale", 2)].
Proof.
  apply (component_expand_lookup "bg" eq_refl).
  - repeat constructor.
  - repeat constructor; simpl; intuition discriminate.
  - discriminate.
Defined.

Section MixtureExpandFacts.
Context {Value Prior Dist : Type}.
Implicit Types (comps : list (Component Value Prior Dist)) (pars : dict string Value)
               (self : Mixture.ComponentMixtureModel Value Prior Dist).

Lemma no_key_of_filter component_name pars f :
  no_key_of component_name pars -> no_key_of component_name (filter f pars).
Proof.
  intros H key Hin; apply H.
  unfold keys in *; apply in_map_iff in Hin as [kv [<- Hkv]].
  apply filter_In in Hkv as [Hkv _]; now apply in_map.
Qed.

Lemma filter_none component_name pars :
  no_key_of component_name pars ->
  filter (fun kv => String.prefix (component_name ++ ":") (fst kv)) pars = [].
Proof.
  intros H; induction pars as [|kv pars IH]; [reflexivity|]; simpl.
  rewrite (H (fst kv)) by now left.
  apply IH; intros key Hin; apply H; now right.
Qed.

Lemma expand_components_raises comps : forall pars acc component,
  In component comps -> no_key_of (name component) pars ->
  exists e, Mixture.expand_components Value Prior Dist comps pars acc = Raise e.
Proof.
  induction comps as [|c0 comps IH]; intros pars acc component Hmem Hno;
    [destruct Hmem|]; destruct Hmem as [-> | Hin]; simpl.
  - rewrite (filter_none _ _ Hno); simpl; eauto.
  - destruct (Mixture.component_expand_numpyro_params Value _) as [e0|e0]; simpl;
      [|eauto].
    apply (IH _ _ component Hin); now apply no_key_of_filter.
Qed.

(** X19: a component none of whose parameters is among the flat parameters makes
    the mixture's expansion fail, and with it the grid evaluation, before
    any component is evaluated. *)
Theorem mixture_expand_needs_every_component
    draw log_prob ln_simpson nd_add as_array self pars component
    grids grid_coord_names x_coord_name w :
  In component (Mixture.components self) -> no_key_of (name component) pars ->
  exists e,
    Mixture.expand_numpyro_params self pars = Raise e /\
    Mixture.evaluate_on_2d_grids draw log_prob ln_simpson nd_add as_array self pars
      grids grid_coord_names x_coord_name w = (Raise e, w).
Proof.
  intros Hin Hno.
  destruct (expand_components_raises _ pars [] component Hin Hno) as [e He].
  assert (Hexp : Mixture.expand_numpyro_params self pars = Raise e).
  { unfold Mixture.expand_numpyro_params; now rewrite He. }
  exists e; split; [exact Hexp|].
  unfold Mixture.evaluate_on_2d_grids, mbind, lift; now rewrite Hexp.
Qed.

Lemma expand_components_rest comps : forall pars acc rest acc',
  Mixture.expand_components Value Prior Dist comps pars acc = Ok (rest, acc') ->
  rest = filter (fun kv =>
                   forallb (fun component =>
                              negb (String.prefix (name component ++ ":") (fst kv)))
                           comps)
                pars.
Proof.
  induction comps as [|c0 comps IH]; intros pars acc rest acc'; simpl.
  - intros [= <- <-]; induction pars as [|kv pars IHp]; simpl; congruence.
  - destruct (Mixture.component_expand_numpyro_params Value _) as [e0|e0]; simpl;
      [|discriminate].
    intros H; apply IH in H; subst rest.
    clear; induction pars as [|kv pars IHp]; [reflexivity|]; simpl.
    destruct (String.prefix (name c0 ++ ":") (fst kv)); simpl; [exact IHp|].
    now rewrite IHp.
Qed.

Lemma update_get (rest : dict string Value) : forall (acc : Mixture.Expanded Value) key v,
  NoDup (keys rest) -> In (key, v) rest ->
  get String.eqb key
      (fold_left (fun acc kv => set String.eqb (fst kv) (inr (snd kv)) acc) rest acc)
  = Some (inr v).
Proof.
  assert (Hout : forall (rest : dict string Value) (acc : Mixture.Expanded Value) key,
            ~ In key (keys rest) ->
            get String.eqb key
                (fold_left (fun acc kv => set String.eqb (fst kv) (inr (snd kv)) acc)
                           rest acc)
            = get String.eqb key acc).
  { clear; induction rest as [|[k0 v0] rest IH]; intros acc key Hnot; simpl;
      [reflexivity|].
    rewrite IH by (simpl in Hnot; tauto).
    apply sget_set_other; simpl in Hnot; intros <-; tauto. }
  induction rest as [|[k0 v0] rest IH]; intros acc key v Hnd Hmem; [destruct Hmem|].
  destruct Hmem as [[= -> ->] | Hin]; simpl;
    inversion_clear Hnd as [|? ? Hfresh Hnd'].
  - rewrite Hout by exact Hfresh; apply sget_set_same.
  - now apply IH.
Qed.

(** X20: a parameter whose name starts with no component's prefix, such as the
    mixture weights, is kept at the top level with its value. *)
Theorem mixture_expand_keeps_other_keys self pars expanded key v :
  NoDup (keys pars) ->
  Mixture.expand_numpyro_params self pars = Ok expanded ->
  In (key, v) pars ->
  (forall component, In component (Mixture.components self) ->
     String.prefix (name component ++ ":") key = false) ->
  get String.eqb key expanded = Some (inr v).
Proof.
  intros Hnd Hexp Hin Hfree; unfold Mixture.expand_numpyro_params in Hexp.
  destruct (Mixture.expand_components _ _ _ _ _ _) as [[rest acc]|e] eqn:E;
    [|discriminate].
  simpl in Hexp; injection Hexp as <-.
  apply expand_components_rest in E; subst rest.
  apply update_get.
  - unfold keys in *; clear - Hnd.
    induction pars as [|kv pars IH]; simpl; [constructor|].
    inversion_clear Hnd as [|? ? Hfresh Hnd'].
    destruct (forallb _ _); simpl; [constructor|]; auto.
    intros Hmem; apply Hfresh.
    apply in_map_iff in Hmem as [kv' [<- Hkv']].
    apply filter_In in Hkv' as [Hkv' _]; now apply in_map.
  - apply filter_In; split; [exact Hin|].
    apply forallb_forall; intros component Hc; simpl.
    now rewrite (Hfree component Hc).
Qed.
End MixtureExpandFacts.

Lemma mixture_expand_needs_every_component_witness :
  exists e,
    Mixture.expand_numpyro_params Examples.mix
      [("stream:x:loc", [0%R]); ("mixture-probs", [1%R; 0%R])] = Raise e /\
    Mixture.evaluate_on_2d_grids Examples.draw0 Examples.log_prob0 Examples.ln_simpson0
      Examples.nd_add0 (fun v => v) Examples.mix
      [("stream:x:loc", [0%R]); ("mixture-probs", [1%R; 0%R])]
      Examples.edges (Some [("x", "y")]) None Examples.world0
    = (Raise e, Examples.world0).
Proof.
  apply (mixture_expand_needs_every_component Examples.draw0 Examples.log_prob0
           Examples.ln_simpson0 Examples.nd_add0 (fun v => v) Examples.mix
           [("stream:x:loc", [0%R]); ("mixture-probs", [1%R; 0%R])]
           (Examples.mix_component "bg")).
  - right; left; reflexivity.
  - intros key [<- | [<- | []]]; reflexivity.
Defined.

Lemma mixture_expand_keeps_other_keys_witness :
  exists expanded,
    Mixture.expand_numpyro_params Examples.mix Examples.mix_pars = Ok expanded /\
    get String.eqb "mixture-probs" expanded = Some (inr [1%R; 0%R]).
Proof.
  eexists; split; [reflexivity|].
  apply (mixture_expand_keeps_other_keys Examples.mix Examples.mix_pars _
           "mixture-probs" [1%R; 0%R]).
  - repeat constructor; simpl; intuition discriminate.
  - reflexivity.
  - right; right; left; reflexivity.
  - intros component [<- | [<- | []]]; reflexivity.
Defined.
